(** * Blocking strategies of thunder.rdds.imgblocks.strategy

    A shallow embedding of [strategy.py]: the slice generation of
    [SimpleBlockingStrategy], the block-size search sequence
    [_BlockMemoryAsSequence] with its reversed view, the size-driven factory,
    and the blocking / combining functions, together with the pieces of the
    Python and numpy runtime they call.  Python ints are unbounded integers;
    Python floats are the IEEE 754 binary64 numbers of [SpecFloat], with
    their rounding. *)

From Stdlib Require Import String.
From Stdlib Require Import ZArith List Lia Bool.
From Stdlib Require Import SpecFloat.
Import ListNotations.
Open Scope Z_scope.

(** ** Python runtime: exceptions and results *)

Module Py.

(** The exceptions raised in this file; [OutOfFuel] is not one of Python's,
    it marks a loop of the model that ran out of its iteration bound (see
    [bisect_left_fuel]). *)
Inductive exn : Type :=
| ValueError
| TypeError
| IndexError
| AttributeError
| RecursionError
| ZeroDivisionError
| OverflowError
| NotImplementedError
| OutOfFuel.

Inductive result (A : Type) : Type :=
| Ok (a : A)
| Raise (e : exn).

Arguments Ok {A} a.
Arguments Raise {A} e.

Definition bind {A B : Type} (m : result A) (k : A -> result B) : result B :=
  match m with
  | Ok a => k a
  | Raise e => Raise e
  end.

Fixpoint mapM {A B : Type} (f : A -> result B) (l : list A) : result (list B) :=
  match l with
  | [] => Ok []
  | a :: l' =>
      bind (f a) (fun b => bind (mapM f l') (fun bs => Ok (b :: bs)))
  end.

(** A Python [slice] object; [None] fields are the omitted ones, so that
    [slice(None)] is [full_slice]. *)
Record slice : Type := mkSlice {
  start : option Z;
  stop : option Z;
  step : option Z
}.

Definition slice3 (a b c : Z) : slice := mkSlice (Some a) (Some b) (Some c).
Definition full_slice : slice := mkSlice None None None.

(** [slice.indices(len)] together with the slice length, as CPython's
    [PySlice_GetIndicesEx] computes them: (start, step, length).  A zero step
    raises [ValueError]. *)
Definition clamp_bound (len stepv : Z) (o : option Z) (dflt_neg dflt_pos : Z) : Z :=
  match o with
  | None => if stepv <? 0 then dflt_neg else dflt_pos
  | Some v =>
      let v' := if v <? 0 then v + len else v in
      if v' <? 0 then (if stepv <? 0 then -1 else 0)
      else if len <=? v' then (if stepv <? 0 then len - 1 else len)
      else v'
  end.

Definition slice_indices (s : slice) (len : Z) : result (Z * Z * Z) :=
  let stepv := match step s with None => 1 | Some v => v end in
  if stepv =? 0 then Raise ValueError
  else
    let st := clamp_bound len stepv (start s) (len - 1) 0 in
    let en := clamp_bound len stepv (stop s) (-1) len in
    let n :=
      if stepv <? 0
      then (if en <? st then (st - en - 1) / (- stepv) + 1 else 0)
      else (if st <? en then (en - st - 1) / stepv + 1 else 0) in
    Ok (st, stepv, n).

(** [itertools.product] over the lists [ls]: the last list varies fastest. *)
Fixpoint product {A : Type} (ls : list (list A)) : list (list A) :=
  match ls with
  | [] => [[]]
  | l :: ls' => flat_map (fun a => map (cons a) (product ls')) l
  end.

End Py.

Import Py.

Notation "x <- m ;; k" := (Py.bind m (fun x => k))
  (at level 61, m at next level, right associativity).

(** ** Python floats *)

(** Python floats are IEEE 754 binary64 numbers: 53 bits of precision,
    exponents below 1024, results rounded to nearest, ties to even. *)
Module Float.

Definition float : Type := spec_float.

(** The double nearest to an integer, ties to even; an infinity when the
    integer is beyond the largest double. *)
Definition nearest (z : Z) : float := binary_normalize 53 1024 z 0 false.

(** [float(z)] for an int: [OverflowError] when [z] is too large. *)
Definition ofInt (z : Z) : result float :=
  match nearest z with
  | S754_infinity _ => Raise OverflowError
  | f => Ok f
  end.

(** The integers [float] accepts. *)
Definition representable (z : Z) : Prop := exists f, ofInt z = Ok f.

Definition isZero (f : float) : bool :=
  match f with
  | S754_zero _ => true
  | _ => false
  end.

(** [a / b] on floats. *)
Definition div (a b : float) : result float :=
  if isZero b then Raise ZeroDivisionError else Ok (SFdiv 53 1024 a b).

(** [a * b] on floats. *)
Definition mul (a b : float) : float := SFmul 53 1024 a b.

(** [a < b] and [a <= b] on floats. *)
Definition ltb (a b : float) : bool := SFltb a b.
Definition leb (a b : float) : bool := SFleb a b.

End Float.

(** ** Slice generation *)

(** State of the inner loop of [__generateSlices]: [st], [blockrem] and the
    slices appended so far. *)
Fixpoint dimSlicesLoop (n : nat) (blocksize dimsize st blockrem : Z)
    (dimslices : list slice) : list slice :=
  match n with
  | O => dimslices
  | S n' =>
      let en := st + blocksize in
      let '(en, blockrem) :=
        if blockrem =? 0 then (en, blockrem) else (en + 1, blockrem - 1) in
      dimSlicesLoop n' blocksize dimsize en blockrem
        (dimslices ++ [slice3 st (Z.min en dimsize) 1])
  end.

(** Body of the outer loop for one [(nsplits, dimsize)] pair. *)
Definition dimSlices (nsplits dimsize : Z) : list slice :=
  let blocksize := dimsize / nsplits in
  let blockrem := dimsize mod nsplits in
  dimSlicesLoop (Z.to_nat nsplits) blocksize dimsize 0 blockrem [].

Definition generateSlices (splitsPerDim dims : list Z) : list (list slice) :=
  map (fun p => dimSlices (fst p) (snd p)) (combine splitsPerDim dims).

(** Boundary number [k] of the balanced partition with block size [b] and
    remainder [r], and the slice number [k] it gives. *)
Definition cutAt (b r k : Z) : Z := k * b + Z.min k r.

Definition cutSlice (b r d : Z) (k : nat) : slice :=
  slice3 (cutAt b r (Z.of_nat k)) (Z.min (cutAt b r (Z.of_nat k + 1)) d) 1.

(** Slice number [i] of [sl] is [slice(a, b, 1)]. *)
Definition sliceOf (sl : list slice) (i : nat) (a b : Z) : Prop :=
  nth_error sl i = Some (slice3 a b 1).

(** ** numpy arrays *)

Module Np.

(** An n-dimensional array: its shape, its dtype tag and its elements by
    index.  Only indices within the shape are meaningful. *)
Record ndarray : Type := mkArray {
  shape : list Z;
  dtype : string;
  at_ : list Z -> Z
}.

Definition ndim (a : ndarray) : Z := Z.of_nat (length (shape a)).

Definition inRange (shp idx : list Z) : Prop :=
  Forall2 (fun d i => 0 <= i < d) shp idx.

(** Equality of arrays, element for element. *)
Definition arrayEq (a b : ndarray) : Prop :=
  shape a = shape b /\ dtype a = dtype b /\
  forall idx, inRange (shape a) idx -> at_ a idx = at_ b idx.

(** The (start, step, length) triples of an index tuple of slices applied to
    an array of shape [shp]; axes past the tuple are taken whole, and a tuple
    longer than the shape raises [IndexError]. *)
Fixpoint axes (sls : list slice) (shp : list Z) : result (list (Z * Z * Z)) :=
  match shp with
  | [] =>
      match sls with
      | [] => Ok []
      | _ :: _ => Raise IndexError
      end
  | d :: shp' =>
      match sls with
      | [] => ts <- axes [] shp' ;; Ok ((0, 1, d) :: ts)
      | s :: sls' =>
          t <- slice_indices s d ;;
          ts <- axes sls' shp' ;;
          Ok (t :: ts)
      end
  end.

Definition axLen (t : Z * Z * Z) : Z := snd t.

(** Index in the base array of the element at [idx] of the sliced view. *)
Fixpoint reindex (ax : list (Z * Z * Z)) (idx : list Z) : list Z :=
  match ax, idx with
  | (st, sp, _) :: ax', i :: idx' => (st + i * sp) :: reindex ax' idx'
  | _, _ => idx
  end.

(** Position within the sliced region of the base index [idx], if it lies in
    the region. *)
Fixpoint locate (ax : list (Z * Z * Z)) (idx : list Z) : option (list Z) :=
  match ax, idx with
  | [], [] => Some []
  | (st, sp, n) :: ax', i :: idx' =>
      let j := (i - st) / sp in
      if ((i - st) mod sp =? 0) && (0 <=? j) && (j <? n)
      then option_map (cons j) (locate ax' idx')
      else None
  | _, _ => None
  end.

(** [a[sls]] for a tuple of slices [sls]. *)
Definition getitem (a : ndarray) (sls : list slice) : result ndarray :=
  ax <- axes sls (shape a) ;;
  Ok (mkArray (map axLen ax) (dtype a) (fun idx => at_ a (reindex ax idx))).

(** [a[i]] for an integer [i]. *)
Definition getitemInt (a : ndarray) (i : Z) : result ndarray :=
  match shape a with
  | [] => Raise IndexError
  | d :: shp' =>
      let i' := if i <? 0 then i + d else i in
      if (0 <=? i') && (i' <? d)
      then Ok (mkArray shp' (dtype a) (fun idx => at_ a (i' :: idx)))
      else Raise IndexError
  end.

(** [expand_dims(a, axis)]. *)
Definition expand_dims (a : ndarray) (axis : nat) : ndarray :=
  mkArray (firstn axis (shape a) ++ 1 :: skipn axis (shape a)) (dtype a)
          (fun idx => at_ a (firstn axis idx ++ skipn (S axis) idx)).

(** [zeros(shp, dt)]. *)
Definition zeros (shp : list Z) (dt : string) : result ndarray :=
  if existsb (fun d => d <? 0) shp then Raise ValueError
  else Ok (mkArray shp dt (fun _ => 0)).

(** Broadcasting of a value shape against a region shape, both reversed so
    that the last axes are aligned. *)
Fixpoint bcastOk (rv rr : list Z) : bool :=
  match rv, rr with
  | [], _ => true
  | b :: rv', [] => (b =? 1) && bcastOk rv' []
  | b :: rv', r :: rr' => ((b =? r) || (b =? 1)) && bcastOk rv' rr'
  end.

Fixpoint bcastIndex (rv rrel : list Z) : list Z :=
  match rv, rrel with
  | [], _ => []
  | _ :: rv', [] => 0 :: bcastIndex rv' []
  | b :: rv', j :: rrel' => (if b =? 1 then 0 else j) :: bcastIndex rv' rrel'
  end.

(** [a[sls] = v] for a tuple of slices [sls]: the array afterwards. *)
Definition setitem (a : ndarray) (sls : list slice) (v : ndarray) : result ndarray :=
  ax <- axes sls (shape a) ;;
  if bcastOk (rev (shape v)) (rev (map axLen ax))
  then Ok (mkArray (shape a) (dtype a)
             (fun idx =>
                match locate ax idx with
                | Some rel => at_ v (rev (bcastIndex (rev (shape v)) (rev rel)))
                | None => at_ a idx
                end))
  else Raise ValueError.

End Np.

Import Np.

(** ** Block keys *)

(** Modelled from the spec: [BlockGroupingKey] of thunder.rdds.imgblocks.blocks,
    which is not part of this file: a key carries the original full shape and
    the original per-axis slices, axis 0 being time. *)
Record BlockGroupingKey : Type := mkKey {
  origshape : list Z;
  origslices : list slice
}.

(** ** Strategies *)

(** The metadata source handed to [setImages]. *)
Record Images : Type := mkImages {
  images_dims : list Z;
  images_nimages : Z;
  images_dtype : string
}.

(** Fields of the superclass [BlockingStrategy]. *)
Record BlockingStrategy : Type := mkBlockingStrategy {
  _dims : option (list Z);
  _nimages : option Z;
  _dtype : option string
}.

Record SimpleBlockingStrategy : Type := mkSimple {
  super : BlockingStrategy;
  _splitsPerDim : list Z;
  _slices : option (list (list slice))
}.

(** Methods mutate the strategy and may raise: the state after the call is
    returned in both cases. *)
Definition Method (A : Type) : Type :=
  SimpleBlockingStrategy -> result A * SimpleBlockingStrategy.

Definition ret {A : Type} (a : A) : Method A := fun s => (Ok a, s).
Definition raise {A : Type} (e : exn) : Method A := fun s => (Raise e, s).
Definition get : Method SimpleBlockingStrategy := fun s => (Ok s, s).
Definition put (s : SimpleBlockingStrategy) : Method unit := fun _ => (Ok tt, s).

Definition mbind {A B : Type} (m : Method A) (k : A -> Method B) : Method B :=
  fun s =>
    match m s with
    | (Ok a, s') => k a s'
    | (Raise e, s') => (Raise e, s')
    end.

Notation "x <~ m ;; k" := (mbind m (fun x => k))
  (at level 61, m at next level, right associativity).

Definition BlockingStrategy_init : BlockingStrategy :=
  mkBlockingStrategy None None None.

(** The property accessors. *)
Definition dims (s : SimpleBlockingStrategy) : option (list Z) := _dims (super s).
Definition nimages (s : SimpleBlockingStrategy) : option Z := _nimages (super s).

(** The [dtype] property returns [self.dtype], which is the property itself:
    every call makes another call, until the interpreter's recursion limit
    [depth] is used up. *)
Fixpoint dtype_property (depth : nat) (s : SimpleBlockingStrategy)
    : result (option string) :=
  match depth with
  | O => Raise RecursionError
  | S depth' => dtype_property depth' s
  end.

(** The superclass leaves both functions to its subclasses. *)
Definition BlockingStrategy_blockingFunction
    (timePointIdxAndImageArray : Z * ndarray)
    : result (list (BlockGroupingKey * ndarray)) :=
  Raise NotImplementedError.

Definition BlockingStrategy_combiningFunction {T : Type}
    (spatialIdxAndBlocksSequence : T * list (BlockGroupingKey * ndarray))
    : result (BlockGroupingKey * option ndarray) :=
  Raise NotImplementedError.

Definition BlockingStrategy_setImages (images : Images) : Method unit :=
  s <~ get ;;
  put (mkSimple
         (mkBlockingStrategy (Some (images_dims images))
                             (Some (images_nimages images))
                             (Some (images_dtype images)))
         (_splitsPerDim s) (_slices s)).

Definition normalizeSplits (splitsPerDim : list Z) : result (list Z) :=
  if existsb (fun nsplits => nsplits <=? 0) splitsPerDim
  then Raise ValueError
  else Ok splitsPerDim.

Definition SimpleBlockingStrategy_init (splitsPerDim : list Z)
    : result SimpleBlockingStrategy :=
  sp <- normalizeSplits splitsPerDim ;;
  Ok (mkSimple BlockingStrategy_init sp None).

Definition validateSplitsForImage : Method unit :=
  s <~ get ;;
  match dims s with
  | None => raise TypeError
  | Some ds =>
      if Nat.eqb (length (_splitsPerDim s)) (length ds)
      then ret tt
      else raise ValueError
  end.

Definition setImages (images : Images) : Method unit :=
  _ <~ BlockingStrategy_setImages images ;;
  _ <~ validateSplitsForImage ;;
  s <~ get ;;
  match dims s with
  | None => raise TypeError
  | Some ds =>
      put (mkSimple (super s) (_splitsPerDim s)
                    (Some (generateSlices (_splitsPerDim s) ds)))
  end.

(** ** Blocking and combining *)

Definition extractBlockFromImage (imgary : ndarray) (blockslices : list slice)
    (timepoint numtimepoints : Z) : result (BlockGroupingKey * ndarray) :=
  sub <- getitem imgary blockslices ;;
  let val := expand_dims sub 0 in
  let origshape := numtimepoints :: shape imgary in
  let origslices := slice3 timepoint (timepoint + 1) 1 :: blockslices in
  Ok (mkKey origshape origslices, val).

(** [blockingFunction]: [itertools.product] over [None] raises [TypeError].
    [_nimages] is written by [setImages] before [_slices] is, so the branch
    with slices but no image count is never reached (see
    [setImages_slices_nimages]). *)
Definition blockingFunction (s : SimpleBlockingStrategy)
    (timePointIdxAndImageArray : Z * ndarray)
    : result (list (BlockGroupingKey * ndarray)) :=
  let '(tpidx, imgary) := timePointIdxAndImageArray in
  let totnumimages := nimages s in
  match _slices s with
  | None => Raise TypeError
  | Some slices =>
      match totnumimages with
      | None => Raise TypeError
      | Some n =>
          mapM (fun blockslices => extractBlockFromImage imgary blockslices tpidx n)
               (product slices)
      end
  end.

Definition item0 {A : Type} (l : list A) : result A :=
  match l with
  | [] => Raise IndexError
  | a :: _ => Ok a
  end.

(** One iteration of the loop of [combiningFunction] over the state
    [(ary, firstkey)]. *)
Definition combineStep (st : option ndarray * option BlockGroupingKey)
    (kb : BlockGroupingKey * ndarray)
    : result (option ndarray * option BlockGroupingKey) :=
  let '(ary, firstkey) := st in
  let '(key, block) := kb in
  st1 <- match ary with
         | None =>
             n <- item0 (origshape key) ;;
             let newshape := n :: tl (shape block) in
             a <- zeros newshape (dtype block) ;;
             Ok (a, Some key)
         | Some a => Ok (a, firstkey)
         end ;;
  let '(ary1, firstkey1) := st1 in
  t <- item0 (origslices key) ;;
  let targslices := t :: repeat full_slice (Z.to_nat (ndim block - 1)) in
  ary2 <- setitem ary1 targslices block ;;
  Ok (Some ary2, firstkey1).

Fixpoint combineLoop (st : option ndarray * option BlockGroupingKey)
    (l : list (BlockGroupingKey * ndarray))
    : result (option ndarray * option BlockGroupingKey) :=
  match l with
  | [] => Ok st
  | kb :: l' => st' <- combineStep st kb ;; combineLoop st' l'
  end.

(** [combiningFunction] reads nothing of the strategy. *)
Definition combiningFunction {T : Type} (s : SimpleBlockingStrategy)
    (spatialIdxAndBlocksSequence : T * list (BlockGroupingKey * ndarray))
    : result (BlockGroupingKey * option ndarray) :=
  let '(_, partitionedSequence) := spatialIdxAndBlocksSequence in
  st <- combineLoop (None, None) partitionedSequence ;;
  let '(ary, firstkey) := st in
  match firstkey with
  | None => Raise AttributeError
  | Some fk =>
      let neworigslices := full_slice :: tl (origslices fk) in
      Ok (mkKey (origshape fk) neworigslices, ary)
  end.

(** The blocks of spatial cell number [k] for the time points [ts] of the
    source array [src], as the execution engine groups them. *)
Definition blockOfCell (s : SimpleBlockingStrategy) (src : ndarray) (k : nat)
    (t : Z) : result (BlockGroupingKey * ndarray) :=
  imgary <- getitemInt src t ;;
  blocks <- blockingFunction s (t, imgary) ;;
  match nth_error blocks k with
  | Some kb => Ok kb
  | None => Raise IndexError
  end.

Definition blocksOfCell (s : SimpleBlockingStrategy) (src : ndarray) (k : nat)
    (ts : list Z) : result (list (BlockGroupingKey * ndarray)) :=
  mapM (blockOfCell s src k) ts.

(** ** The block-size search sequence *)

Module BlockMemoryAsSequence.

Fixpoint setNth (l : list Z) (i : nat) (v : Z) : list Z :=
  match l, i with
  | [], _ => []
  | _ :: l', O => v :: l'
  | a :: l', S i' => a :: setNth l' i' v
  end.

(** The loop of [indtosub] over [enumerate(dims[::-1])]. *)
Fixpoint indtosubLoop (en : list (nat * Z)) (dims : list Z) (ndims : nat)
    (sub : list Z) (idx : Z) : list Z :=
  match en with
  | [] => sub
  | (didx0, _) :: en' =>
      let didx := (ndims - (didx0 + 1))%nat in
      let delta := Z.min (nth didx dims 0 - 1) idx in
      let '(sub, idx) :=
        if 0 <? delta
        then (setNth sub didx (nth didx sub 0 + delta), idx - delta)
        else (sub, idx) in
      if idx <=? 0 then sub else indtosubLoop en' dims ndims sub idx
  end.

Definition indtosub (dims : list Z) (idx : Z) : list Z :=
  let ndims := length dims in
  let sub := repeat 1 ndims in
  indtosubLoop (combine (seq 0 ndims) (rev dims)) dims ndims sub idx.

(** [d / float(s)] on ints: [float(s)] is evaluated first, the division
    converts [d], then looks at the divisor. *)
Definition floatDiv (d s : Z) : result Float.float :=
  fs <- Float.ofInt s ;;
  fd <- Float.ofInt d ;;
  Float.div fd fs.

(** [reduce(mul, sz)], which raises [TypeError] on an empty sequence. *)
Definition reduceMul (sz : list Float.float) : result Float.float :=
  match sz with
  | [] => Raise TypeError
  | q :: sz' => Ok (fold_left Float.mul sz' q)
  end.

Definition blockMemoryForSplits (dims sub : list Z) : result Float.float :=
  sz <- mapM (fun p => floatDiv (fst p) (snd p)) (combine dims sub) ;;
  reduceMul sz.

Definition len (dims : list Z) : Z :=
  fold_right Z.add 0 (map (fun d => d - 1) dims) + 1.

Definition getitem (dims : list Z) (item : Z) : result Float.float :=
  let sub := indtosub dims item in
  blockMemoryForSplits dims sub.

End BlockMemoryAsSequence.

Module BlockMemoryAsReversedSequence.

Definition reverseIdx (dims : list Z) (idx : Z) : result Z :=
  let l := BlockMemoryAsSequence.len dims in
  if (idx <? 0) || (l <=? idx) then Raise IndexError
  else Ok (l - (idx + 1)).

Definition indtosub (dims : list Z) (idx : Z) : result (list Z) :=
  i <- reverseIdx dims idx ;;
  Ok (BlockMemoryAsSequence.indtosub dims i).

Definition len := BlockMemoryAsSequence.len.

(** The inherited [__getitem__] calls the overriding [indtosub]. *)
Definition getitem (dims : list Z) (item : Z) : result Float.float :=
  sub <- indtosub dims item ;;
  BlockMemoryAsSequence.blockMemoryForSplits dims sub.

End BlockMemoryAsReversedSequence.

(** The traversal of split-space in the words of the specification: start at
    the all-ones split, increment the last dimension's split count until it
    reaches its dimension, then the next-to-last, and so on.  The lists here
    are reversed: the head is the last dimension. *)
Fixpoint traversalStepRev (rdims rsub : list Z) : list Z :=
  match rdims, rsub with
  | d :: rdims', s :: rsub' =>
      if s <? d then (s + 1) :: rsub' else s :: traversalStepRev rdims' rsub'
  | _, _ => rsub
  end.

Definition traversalStep (dims sub : list Z) : list Z :=
  rev (traversalStepRev (rev dims) (rev sub)).

Definition traversal (dims : list Z) (k : nat) : list Z :=
  Nat.iter k (traversalStep dims) (repeat 1 (length dims)).

(** ** The size-driven factory *)

(** [bisect.bisect_left(a, x)] over a sequence given by its length and its
    item access; [fuel] bounds the iterations of the loop. *)
Fixpoint bisectLoop (fuel : nat) (a : Z -> result Float.float)
    (x : Float.float) (lo hi : Z) : result Z :=
  if lo <? hi then
    match fuel with
    | O => Raise OutOfFuel
    | S fuel' =>
        let mid := (lo + hi) / 2 in
        v <- a mid ;;
        if Float.ltb v x
        then bisectLoop fuel' a x (mid + 1) hi
        else bisectLoop fuel' a x lo mid
    end
  else Ok lo.

Definition bisect_left (alen : Z) (a : Z -> result Float.float)
    (x : Float.float) : result Z :=
  bisectLoop (Z.to_nat alen) a x 0 alen.

Inductive blockSizeArg : Type :=
| SizeInt (n : Z)
| SizeStr (s : string).

Section Factory.

(** Collaborators outside this file: [parseMemoryString] of
    thunder.utils.common and the [itemsize] of a numpy dtype. *)
Variable parseMemoryString : string -> result Z.
Variable itemsize : string -> Z.

Definition generateFromBlockSize (blockSize : blockSizeArg) (dims : list Z)
    (nimages : Z) (datatype : string) : result SimpleBlockingStrategy :=
  let minseriessize := nimages * itemsize datatype in
  blockSize <- match blockSize with
               | SizeStr s => parseMemoryString s
               | SizeInt n => Ok n
               end ;;
  target <- BlockMemoryAsSequence.floatDiv blockSize minseriessize ;;
  tmpidx <- bisect_left (BlockMemoryAsReversedSequence.len dims)
                        (BlockMemoryAsReversedSequence.getitem dims) target ;;
  let tmpidx :=
    if tmpidx =? BlockMemoryAsReversedSequence.len dims
    then tmpidx - 1 else tmpidx in
  splitsPerDim <- BlockMemoryAsReversedSequence.indtosub dims tmpidx ;;
  SimpleBlockingStrategy_init splitsPerDim.


End Factory.

(** ** Auxiliary definitions for the proofs *)

(** The splits at linear index [idx], last dimension first: what the loop of
    [indtosub] computes, as a recursion over the reversed dimensions. *)
Fixpoint walkRev (rdims : list Z) (idx : Z) : list Z :=
  match rdims with
  | [] => []
  | d :: rdims' =>
      let delta := Z.max 0 (Z.min (d - 1) idx) in
      (1 + delta) :: walkRev rdims' (idx - delta)
  end.

Definition sumPred (l : list Z) : Z :=
  fold_right Z.add 0 (map (fun d => d - 1) l).

(** The quotients [d / float(s)] and their product, as
    [blockMemoryForSplits] computes them when no conversion overflows and no
    divisor is zero. *)
Definition sizes (dims sub : list Z) : list Float.float :=
  map (fun p => SFdiv 53 1024 (Float.nearest (fst p)) (Float.nearest (snd p)))
      (combine dims sub).

Definition productOf (sz : list Float.float) : Float.float :=
  match sz with
  | [] => S754_zero false
  | q :: sz' => fold_left Float.mul sz' q
  end.

(** *** Rounding

    The rounding of [SpecFloat] starts from a mantissa [m] and a location
    [l] that tells where the real number lies between [m] and [m + 1].
    [brk m l N U] says so for the real number [N / U]. *)
Definition brk (m : Z) (l : location) (N U : Z) : Prop :=
  match l with
  | loc_Exact => N = m * U
  | loc_Inexact Lt => m * U < N /\ 2 * N < (2 * m + 1) * U
  | loc_Inexact Eq => 2 * N = (2 * m + 1) * U
  | loc_Inexact Gt => (2 * m + 1) * U < 2 * N /\ N < (m + 1) * U
  end.

(** Mantissa and location as one integer, in the order of the real numbers
    they stand for. *)
Definition code (m : Z) (l : location) : Z :=
  4 * m + match l with
          | loc_Exact => 0
          | loc_Inexact Lt => 1
          | loc_Inexact Eq => 2
          | loc_Inexact Gt => 3
          end.

Definition recbrk (mrs : shr_record) (N U : Z) : Prop :=
  brk (shr_m mrs) (loc_of_shr_record mrs) N U.

(** The result of rounding a 53-bit truncated mantissa [mt] with location
    [lt] at exponent [E]. *)
Definition rnd_result (mt : Z) (lt : location) (E : Z) : spec_float :=
  let m1 := round_nearest_even mt lt in
  if m1 <? 2 ^ 53
  then (if E <=? 971 then S754_finite false (Z.to_pos m1) E
        else S754_infinity false)
  else (if E + 1 <=? 971 then S754_finite false (Z.to_pos (2 ^ 52)) (E + 1)
        else S754_infinity false).

(** Floats that are positive and normal with exponent at least [lo] (and at
    most 971, the largest there is), or plus infinity. *)
Definition atLeast (lo : Z) (f : spec_float) : Prop :=
  match f with
  | S754_finite false m e => Zpos (digits2_pos m) = 53 /\ lo <= e <= 971
  | S754_infinity false => True
  | _ => False
  end.

(** Floats that are neither negative nor a NaN. *)
Definition nonnegative (f : spec_float) : Prop :=
  match f with
  | S754_zero _ | S754_infinity false | S754_finite false _ _ => True
  | _ => False
  end.

(** Positive normal floats with exponent between [lo] and [hi]. *)
Definition normalIn (lo hi : Z) (f : spec_float) : Prop :=
  match f with
  | S754_finite false m e => Zpos (digits2_pos m) = 53 /\ lo <= e <= hi
  | _ => False
  end.

(** Real numbers are compared through integer numerators: the rational
    [N / (D * 2 ^ 2200)] has numerator [N], and a mantissa at exponent [e]
    counts in units of [scale D e]. *)
Definition scale (D e : Z) : Z := D * 2 ^ (e + 2200).

Abbreviation bra := (binary_round_aux 53 1024).
Abbreviation fl := Float.nearest.
Abbreviation fmul := (SFmul 53 1024).
Abbreviation fdiv := (SFdiv 53 1024).

(** A slice [slice(a, b, 1)] lying within a dimension of size [d], and the
    (start, step, length) triple it stands for. *)
Definition goodSlice (d : Z) (sl : slice) : Prop :=
  exists a b, sl = slice3 a b 1 /\ 0 <= a <= b /\ b <= d.

Definition axOf (sl : slice) : Z * Z * Z :=
  match start sl, stop sl with
  | Some a, Some b => (a, 1, b - a)
  | _, _ => (0, 1, 0)
  end.

(** What [extractBlockFromImage] returns for the image at time [t] of the
    source array [src] and the slices [cell]. *)
Definition blockAt (src : ndarray) (n : Z) (cell : list slice) (t : Z)
    : BlockGroupingKey * ndarray :=
  let ax := map axOf cell in
  (mkKey (n :: tl (shape src)) (slice3 t (t + 1) 1 :: cell),
   expand_dims
     (mkArray (map axLen ax) (dtype src)
        (fun idx => at_ src (t :: reindex ax idx))) 0).

(** The collection array [ary] of [combiningFunction] holds, at the time
    points in [P], the values of the source array [src] within the slices
    [cell]; [n] is the number of time points. *)
Definition collected (src : ndarray) (n : Z) (cell : list slice)
    (P : Z -> Prop) (ary : ndarray) : Prop :=
  shape ary = n :: map axLen (map axOf cell) /\ dtype ary = dtype src /\
  forall t idx, P t -> inRange (map axLen (map axOf cell)) idx ->
    at_ ary (t :: idx) = at_ src (t :: reindex (map axOf cell) idx).

(** What [extractBlockFromImage] returns for an image [img] and slices
    [cell] that lie within the image. *)
Definition cellBlock (img : ndarray) (n : Z) (cell : list slice) (t : Z)
    : BlockGroupingKey * ndarray :=
  let ax := map axOf cell in
  (mkKey (n :: shape img) (slice3 t (t + 1) 1 :: cell),
   expand_dims
     (mkArray (map axLen ax) (dtype img)
        (fun idx => at_ img (reindex ax idx))) 0).

(** Position [x] lies in the slice [slice(a, b, 1)]; the index [idx] lies in
    the cell, axis by axis; its position relative to the cell's start; and
    the same for a block, read off the spatial slices of its key. *)
Definition sliceHas (sl : slice) (x : Z) : bool :=
  match start sl, stop sl with
  | Some a, Some b => (a <=? x) && (x <? b)
  | _, _ => false
  end.

Fixpoint cellHas (cell : list slice) (idx : list Z) : bool :=
  match cell, idx with
  | [], [] => true
  | sl :: cell', x :: idx' => sliceHas sl x && cellHas cell' idx'
  | _, _ => false
  end.

Fixpoint relIndex (cell : list slice) (idx : list Z) : list Z :=
  match cell, idx with
  | sl :: cell', x :: idx' =>
      (x - match start sl with Some a => a | None => 0 end) :: relIndex cell' idx'
  | _, _ => []
  end.

Definition blockHas (kb : BlockGroupingKey * ndarray) (idx : list Z) : bool :=
  cellHas (tl (origslices (fst kb))) idx.

(** The collection array [ary] is zero at the time points outside [P]. *)
Definition zeroElsewhere (cell : list slice) (P : Z -> Prop) (ary : ndarray)
    : Prop :=
  forall t idx, ~ P t -> inRange (map axLen (map axOf cell)) idx ->
    at_ ary (t :: idx) = 0.

(** A slice [slice(a, b, 1)] of balanced length for [k] splits of [d]
    elements. *)
Definition balancedSlice (k d : Z) (sl : slice) : Prop :=
  exists a b, sl = slice3 a b 1 /\
    d / k <= b - a <= d / k + 1 /\ (d mod k = 0 -> b - a = d / k).

(** * Properties *)

(** ** Slice generation *)

Lemma dimSlicesLoop_eq (n : nat) :
  forall b d r (i : nat) acc,
    0 <= r ->
    dimSlicesLoop n b d (cutAt b r (Z.of_nat i)) (Z.max (r - Z.of_nat i) 0) acc =
    acc ++ map (cutSlice b r d) (seq i n).
Proof.
  induction n as [|n IH]; intros b d r i acc Hr.
  - simpl. now rewrite app_nil_r.
  - cbn [dimSlicesLoop seq map].
    assert (Hnext : Z.of_nat (S i) = Z.of_nat i + 1) by lia.
    destruct (Z.max (r - Z.of_nat i) 0 =? 0) eqn:E.
    + apply Z.eqb_eq in E.
      replace (cutAt b r (Z.of_nat i) + b) with (cutAt b r (Z.of_nat (S i)))
        by (unfold cutAt; lia).
      replace (Z.max (r - Z.of_nat i) 0) with (Z.max (r - Z.of_nat (S i)) 0) by lia.
      rewrite IH by assumption. rewrite <- app_assoc. cbn [app].
      unfold cutSlice at 2. now rewrite Hnext.
    + apply Z.eqb_neq in E.
      replace (cutAt b r (Z.of_nat i) + b + 1) with (cutAt b r (Z.of_nat (S i)))
        by (unfold cutAt; lia).
      replace (Z.max (r - Z.of_nat i) 0 - 1) with (Z.max (r - Z.of_nat (S i)) 0) by lia.
      rewrite IH by assumption. rewrite <- app_assoc. cbn [app].
      unfold cutSlice at 2. now rewrite Hnext.
Qed.

Lemma dimSlices_cut (nsplits dimsize : Z) :
  0 < nsplits ->
  dimSlices nsplits dimsize =
  map (cutSlice (dimsize / nsplits) (dimsize mod nsplits) dimsize)
      (seq 0 (Z.to_nat nsplits)).
Proof.
  intros Hn. unfold dimSlices.
  pose proof (Z.mod_pos_bound dimsize nsplits Hn) as Hm.
  pose proof (dimSlicesLoop_eq (Z.to_nat nsplits) (dimsize / nsplits) dimsize
                (dimsize mod nsplits) 0 [] (proj1 Hm)) as H.
  unfold cutAt at 1 in H. cbn [Z.of_nat] in H.
  replace (0 * (dimsize / nsplits) + Z.min 0 (dimsize mod nsplits)) with 0 in H by lia.
  replace (Z.max (dimsize mod nsplits - 0) 0) with (dimsize mod nsplits) in H by lia.
  exact H.
Qed.

Lemma cutAt_mono (b r i j : Z) :
  0 <= b -> i <= j -> cutAt b r i <= cutAt b r j.
Proof. unfold cutAt. intros Hb Hij. nia. Qed.

Lemma cutAt_last (nsplits dimsize : Z) :
  0 < nsplits ->
  cutAt (dimsize / nsplits) (dimsize mod nsplits) nsplits = dimsize.
Proof.
  intros Hn. unfold cutAt.
  pose proof (Z.mod_pos_bound dimsize nsplits Hn).
  pose proof (Z.div_mod dimsize nsplits ltac:(lia)). nia.
Qed.

Lemma cutAt_le_dim (nsplits dimsize k : Z) :
  0 < nsplits -> 0 <= dimsize -> k <= nsplits ->
  cutAt (dimsize / nsplits) (dimsize mod nsplits) k <= dimsize.
Proof.
  intros Hn Hd Hk.
  rewrite <- (cutAt_last nsplits dimsize Hn) at 3.
  apply cutAt_mono; [apply Z.div_pos; lia | assumption].
Qed.

(** With a positive split count and a non-negative dimension the [min]
    against the dimension never cuts. *)
Lemma dimSlices_nth (nsplits dimsize : Z) (k : nat) :
  0 < nsplits -> 0 <= dimsize -> (k < Z.to_nat nsplits)%nat ->
  nth_error (dimSlices nsplits dimsize) k =
  Some (slice3 (cutAt (dimsize / nsplits) (dimsize mod nsplits) (Z.of_nat k))
               (cutAt (dimsize / nsplits) (dimsize mod nsplits) (Z.of_nat k + 1)) 1).
Proof.
  intros Hn Hd Hk. rewrite dimSlices_cut by assumption.
  rewrite nth_error_map, nth_error_nth' with (d := O) by (now rewrite length_seq).
  rewrite seq_nth by assumption. cbn [option_map Nat.add]. unfold cutSlice.
  rewrite Z.min_l; [reflexivity|]. apply cutAt_le_dim; lia.
Qed.

Lemma dimSlices_length (nsplits dimsize : Z) :
  length (dimSlices nsplits dimsize) = Z.to_nat nsplits.
Proof.
  destruct (Z.ltb_spec 0 nsplits) as [Hn|Hn].
  - rewrite dimSlices_cut by assumption. now rewrite length_map, length_seq.
  - unfold dimSlices. replace (Z.to_nat nsplits) with O by lia. reflexivity.
Qed.

Lemma sliceOf_dimSlices (nsplits dimsize : Z) (i : nat) (a b : Z) :
  0 < nsplits -> 0 <= dimsize ->
  sliceOf (dimSlices nsplits dimsize) i a b ->
  (i < Z.to_nat nsplits)%nat /\
  a = cutAt (dimsize / nsplits) (dimsize mod nsplits) (Z.of_nat i) /\
  b = cutAt (dimsize / nsplits) (dimsize mod nsplits) (Z.of_nat i + 1).
Proof.
  intros Hn Hd H. unfold sliceOf in H.
  assert (Hi : (i < Z.to_nat nsplits)%nat).
  { rewrite <- (dimSlices_length nsplits dimsize).
    apply nth_error_Some. congruence. }
  split; [assumption|].
  rewrite dimSlices_nth in H by assumption.
  unfold slice3 in H. injection H as Ha Hb. now split.
Qed.

Lemma cutAt_find (b r : Z) (n : nat) :
  forall x, 0 <= x < cutAt b r (Z.of_nat n) ->
    exists i, (i < n)%nat /\
      cutAt b r (Z.of_nat i) <= x < cutAt b r (Z.of_nat i + 1).
Proof.
  induction n as [|n IH]; intros x Hx.
  - unfold cutAt in Hx. cbn in Hx. lia.
  - destruct (Z_lt_le_dec x (cutAt b r (Z.of_nat n))) as [Hlt|Hge].
    + destruct (IH x ltac:(lia)) as (i & Hi & Hc). exists i. split; [lia|assumption].
    + exists n. split; [lia|]. replace (Z.of_nat n + 1) with (Z.of_nat (S n)) by lia. lia.
Qed.

(** C1: for [1 <= splits <= dimSize], [__generateSlices] yields for the axis
    exactly [splits] slices with step 1; slice [i] has length [base + 1] when
    [i < remainder] and [base] otherwise; the first slice starts at 0, each
    slice starts where the previous one stops, the last one stops at
    [dimSize]; a position lies in [0, dimSize) exactly when some slice holds
    it, and no position lies in two slices. *)
Theorem generateSlices_balanced_partition (dimSize splits : Z) :
  1 <= splits <= dimSize ->
  exists sl,
    generateSlices [splits] [dimSize] = [sl] /\
    length sl = Z.to_nat splits /\
    (forall s, In s sl -> step s = Some 1) /\
    (forall i, (i < Z.to_nat splits)%nat ->
       exists a b, sliceOf sl i a b /\
         b - a = dimSize / splits +
                 (if Z.of_nat i <? dimSize mod splits then 1 else 0)) /\
    (exists b, sliceOf sl 0 0 b) /\
    (forall i a b a' b',
       sliceOf sl i a b -> sliceOf sl (S i) a' b' -> a' = b) /\
    (exists a, sliceOf sl (Z.to_nat splits - 1) a dimSize) /\
    (forall x, 0 <= x < dimSize <->
       exists i a b, sliceOf sl i a b /\ a <= x < b) /\
    (forall x i j a b a' b',
       sliceOf sl i a b -> sliceOf sl j a' b' ->
       a <= x < b -> a' <= x < b' -> i = j).
Proof.
  intros Hs.
  assert (Hn : 0 < splits) by lia. assert (Hd : 0 <= dimSize) by lia.
  set (bs := dimSize / splits). set (r := dimSize mod splits).
  assert (Hbs : 1 <= bs).
  { unfold bs. apply Z.div_le_lower_bound; lia. }
  pose proof (Z.mod_pos_bound dimSize splits Hn) as Hr. fold r in Hr.
  assert (Hnth : forall k, (k < Z.to_nat splits)%nat ->
            sliceOf (dimSlices splits dimSize) k
              (cutAt bs r (Z.of_nat k)) (cutAt bs r (Z.of_nat k + 1))).
  { intros k Hk. now apply dimSlices_nth. }
  assert (Hinv : forall i a b, sliceOf (dimSlices splits dimSize) i a b ->
            (i < Z.to_nat splits)%nat /\ a = cutAt bs r (Z.of_nat i) /\
            b = cutAt bs r (Z.of_nat i + 1)).
  { intros i a b H. now apply sliceOf_dimSlices. }
  assert (Hlast : cutAt bs r splits = dimSize) by now apply cutAt_last.
  exists (dimSlices splits dimSize). repeat split.
  - apply dimSlices_length.
  - intros s Hin. rewrite dimSlices_cut in Hin by assumption.
    apply in_map_iff in Hin. destruct Hin as (k & <- & _). reflexivity.
  - intros i Hi. eexists. eexists. split; [now apply Hnth|].
    unfold cutAt. destruct (Z.ltb_spec (Z.of_nat i) r); lia.
  - exists (cutAt bs r (0 + 1)).
    replace 0 with (cutAt bs r (Z.of_nat 0)) at 1 by (unfold cutAt; cbn; lia).
    apply Hnth. lia.
  - intros i a b a' b' H1 H2.
    apply Hinv in H1. apply Hinv in H2.
    destruct H1 as (_ & _ & ->). destruct H2 as (_ & -> & _).
    f_equal. lia.
  - exists (cutAt bs r (Z.of_nat (Z.to_nat splits - 1))).
    pose proof (Hnth (Z.to_nat splits - 1)%nat ltac:(lia)) as H.
    replace (Z.of_nat (Z.to_nat splits - 1) + 1) with splits in H by lia.
    rewrite Hlast in H. exact H.
  - intros Hx.
    assert (Hx' : 0 <= x < cutAt bs r (Z.of_nat (Z.to_nat splits)))
      by (rewrite Z2Nat.id by lia; lia).
    destruct (cutAt_find bs r _ x Hx') as (i & Hi & Hc).
    exists i. eexists. eexists. split; [now apply Hnth|assumption].
  - destruct H as (i & a & b & H & Hab). apply Hinv in H.
    destruct H as (Hi & -> & _). unfold cutAt in Hab. nia.
  - destruct H as (i & a & b & H & Hab). apply Hinv in H.
    destruct H as (Hi & _ & ->).
    pose proof (cutAt_le_dim splits dimSize (Z.of_nat i + 1) Hn Hd ltac:(lia)).
    fold bs r in H. lia.
  - intros x i j a b a' b' H1 H2 Hx Hx'.
    apply Hinv in H1. apply Hinv in H2.
    destruct H1 as (_ & -> & ->). destruct H2 as (_ & -> & ->).
    destruct (Nat.lt_trichotomy i j) as [Hlt|[Heq|Hgt]]; [exfalso|assumption|exfalso].
    + pose proof (cutAt_mono bs r (Z.of_nat i + 1) (Z.of_nat j) ltac:(lia) ltac:(lia)). lia.
    + pose proof (cutAt_mono bs r (Z.of_nat j + 1) (Z.of_nat i) ltac:(lia) ltac:(lia)). lia.
Qed.

Lemma generateSlices_balanced_partition_witness :
  1 <= 3 <= 10 /\
  generateSlices [3] [10] = [[slice3 0 4 1; slice3 4 7 1; slice3 7 10 1]] /\
  exists sl,
    generateSlices [3] [10] = [sl] /\
    length sl = Z.to_nat 3 /\
    (forall s, In s sl -> step s = Some 1) /\
    (forall i, (i < Z.to_nat 3)%nat ->
       exists a b, sliceOf sl i a b /\
         b - a = 10 / 3 + (if Z.of_nat i <? 10 mod 3 then 1 else 0)) /\
    (exists b, sliceOf sl 0 0 b) /\
    (forall i a b a' b',
       sliceOf sl i a b -> sliceOf sl (S i) a' b' -> a' = b) /\
    (exists a, sliceOf sl (Z.to_nat 3 - 1) a 10) /\
    (forall x, 0 <= x < 10 <->
       exists i a b, sliceOf sl i a b /\ a <= x < b) /\
    (forall x i j a b a' b',
       sliceOf sl i a b -> sliceOf sl j a' b' ->
       a <= x < b -> a' <= x < b' -> i = j).
Proof.
  split; [lia|]. split; [reflexivity|].
  apply (generateSlices_balanced_partition 10 3). lia.
Defined.

(** ** Binding metadata *)

Lemma normalizeSplits_Ok (splits sp : list Z) :
  normalizeSplits splits = Ok sp ->
  sp = splits /\ Forall (fun n => 0 < n) splits.
Proof.
  unfold normalizeSplits. destruct (existsb _ splits) eqn:E; [discriminate|].
  intros [= <-]. split; [reflexivity|].
  apply Forall_forall. intros n Hin.
  destruct (Z.leb_spec n 0) as [Hle|Hgt]; [|assumption].
  assert (existsb (fun nsplits => nsplits <=? 0) splits = true).
  { apply existsb_exists. exists n. split; [assumption|]. now apply Z.leb_le. }
  congruence.
Qed.

Lemma init_Ok (splits : list Z) (s : SimpleBlockingStrategy) :
  SimpleBlockingStrategy_init splits = Ok s ->
  s = mkSimple BlockingStrategy_init splits None /\
  Forall (fun n => 0 < n) splits.
Proof.
  unfold SimpleBlockingStrategy_init.
  destruct (normalizeSplits splits) as [sp|e] eqn:E; cbn; [|discriminate].
  apply normalizeSplits_Ok in E. destruct E as [-> Hpos].
  intros [= <-]. now split.
Qed.

Lemma init_positive (splits : list Z) :
  Forall (fun n => 0 < n) splits ->
  SimpleBlockingStrategy_init splits =
  Ok (mkSimple BlockingStrategy_init splits None).
Proof.
  intros Hpos. unfold SimpleBlockingStrategy_init, normalizeSplits.
  destruct (existsb _ splits) eqn:E; [|reflexivity].
  apply existsb_exists in E. destruct E as (n & Hin & Hle).
  rewrite Forall_forall in Hpos. apply Hpos in Hin. apply Z.leb_le in Hle. lia.
Qed.

Lemma setImages_same_length (images : Images) (s : SimpleBlockingStrategy) :
  length (_splitsPerDim s) = length (images_dims images) ->
  setImages images s =
  (Ok tt,
   mkSimple (mkBlockingStrategy (Some (images_dims images))
                                (Some (images_nimages images))
                                (Some (images_dtype images)))
            (_splitsPerDim s)
            (Some (generateSlices (_splitsPerDim s) (images_dims images)))).
Proof.
  intros Hlen. unfold setImages, mbind, BlockingStrategy_setImages,
    validateSplitsForImage, get, put, ret, raise, dims. cbn.
  apply Nat.eqb_eq in Hlen. now rewrite Hlen.
Qed.

Lemma setImages_other_length (images : Images) (s : SimpleBlockingStrategy) :
  length (_splitsPerDim s) <> length (images_dims images) ->
  setImages images s =
  (Raise ValueError,
   mkSimple (mkBlockingStrategy (Some (images_dims images))
                                (Some (images_nimages images))
                                (Some (images_dtype images)))
            (_splitsPerDim s) (_slices s)).
Proof.
  intros Hlen. unfold setImages, mbind, BlockingStrategy_setImages,
    validateSplitsForImage, get, put, ret, raise, dims. cbn.
  apply Nat.eqb_neq in Hlen. now rewrite Hlen.
Qed.

(** Slices are only ever stored together with an image count. *)
Lemma setImages_slices_nimages (images : Images) (s : SimpleBlockingStrategy) :
  nimages (snd (setImages images s)) = Some (images_nimages images) /\
  (_slices s = None ->
   fst (setImages images s) <> Ok tt ->
   _slices (snd (setImages images s)) = None).
Proof.
  destruct (Nat.eq_dec (length (_splitsPerDim s)) (length (images_dims images)))
    as [E|E].
  - rewrite setImages_same_length by assumption. cbn. split; [reflexivity|].
    intros _ H. now contradiction H.
  - rewrite setImages_other_length by assumption. cbn. now split.
Qed.

(** C7, as the claim states it, fails: three splits on a dimension of size
    two are bound without an error. *)
Lemma setImages_excess_splits_counterexample :
  ~ (forall splits ds n dt s,
       SimpleBlockingStrategy_init splits = Ok s ->
       length splits = length ds ->
       (exists i, nth i ds 0 < nth i splits 0) ->
       exists e, fst (setImages (mkImages ds n dt) s) = Raise e).
Proof.
  intros H.
  destruct (H [3] [2] 5 "int16"%string (mkSimple BlockingStrategy_init [3] None))
    as (e & He).
  - reflexivity.
  - reflexivity.
  - exists O. cbn. lia.
  - cbn in He. discriminate.
Qed.

(** C7, amended: a split count above the dimension size is rejected neither
    at construction nor at binding.  Construction succeeds for positive
    split counts; binding a source of the same dimensionality returns
    normally and stores the slices of [__generateSlices], one list of
    [splitsPerDim[i]] slices per axis. *)
Theorem setImages_accepts_excess_splits
    (splits ds : list Z) (n : Z) (dt : string) :
  Forall (fun k => 0 < k) splits ->
  length splits = length ds ->
  (exists i, nth i ds 0 < nth i splits 0) ->
  exists s s' sls,
    SimpleBlockingStrategy_init splits = Ok s /\
    setImages (mkImages ds n dt) s = (Ok tt, s') /\
    dims s' = Some ds /\
    _slices s' = Some sls /\
    sls = generateSlices splits ds /\
    Forall2 (fun sl k => length sl = Z.to_nat k) sls splits.
Proof.
  intros Hpos Hlen _.
  exists (mkSimple BlockingStrategy_init splits None).
  eexists. exists (generateSlices splits ds).
  split; [now apply init_positive|].
  split; [now apply setImages_same_length|].
  cbn. repeat split.
  clear Hpos. unfold generateSlices.
  revert ds Hlen. induction splits as [|k splits IH]; intros [|d ds] Hlen;
    try discriminate; cbn; constructor.
  - apply dimSlices_length.
  - apply IH. now injection Hlen.
Qed.

Lemma setImages_accepts_excess_splits_witness :
  exists s s' sls,
    SimpleBlockingStrategy_init [3; 2] = Ok s /\
    setImages (mkImages [2; 4] 5 "int16"%string) s = (Ok tt, s') /\
    dims s' = Some [2; 4] /\
    _slices s' = Some sls /\
    sls = generateSlices [3; 2] [2; 4] /\
    Forall2 (fun sl k => length sl = Z.to_nat k) sls [3; 2].
Proof.
  apply (setImages_accepts_excess_splits [3; 2] [2; 4] 5 "int16"%string).
  - repeat constructor.
  - reflexivity.
  - exists O. cbn. lia.
Defined.

(** C9, as the claim states it, fails: after a failed bind the stored
    dimensions are those of the rejected source. *)
Lemma setImages_mismatch_counterexample :
  ~ (forall splits s images,
       SimpleBlockingStrategy_init splits = Ok s ->
       length (images_dims images) <> length splits ->
       let s' := snd (setImages images s) in
       dims s' = dims s /\ nimages s' = nimages s /\
       _dtype (super s') = _dtype (super s) /\ _slices s' = _slices s).
Proof.
  intros H.
  destruct (H [2; 2] (mkSimple BlockingStrategy_init [2; 2] None)
              (mkImages [3] 5 "int16"%string)) as (Hd & _).
  - reflexivity.
  - cbn. lia.
  - cbn in Hd. discriminate.
Qed.

(** C9, amended: when the source's dimensionality differs from the length of
    the split specification, [setImages] raises [ValueError]; by then the
    superclass has stored the source's dims, nimages and dtype, and only the
    slice grid and the split specification are as before the call. *)
Theorem setImages_mismatch_keeps_slices
    (s : SimpleBlockingStrategy) (images : Images) :
  length (images_dims images) <> length (_splitsPerDim s) ->
  let s' := snd (setImages images s) in
  fst (setImages images s) = Raise ValueError /\
  dims s' = Some (images_dims images) /\
  nimages s' = Some (images_nimages images) /\
  _dtype (super s') = Some (images_dtype images) /\
  _slices s' = _slices s /\
  _splitsPerDim s' = _splitsPerDim s.
Proof.
  intros Hlen.
  rewrite setImages_other_length by congruence. cbn. repeat split.
Qed.

Lemma setImages_mismatch_keeps_slices_witness :
  let s := mkSimple BlockingStrategy_init [2; 2] None in
  let images := mkImages [3] 5 "int16"%string in
  let s' := snd (setImages images s) in
  fst (setImages images s) = Raise ValueError /\
  dims s' = Some [3] /\
  nimages s' = Some 5 /\
  _dtype (super s') = Some "int16"%string /\
  _slices s' = None /\
  _splitsPerDim s' = [2; 2].
Proof.
  apply (setImages_mismatch_keeps_slices
           (mkSimple BlockingStrategy_init [2; 2] None)
           (mkImages [3] 5 "int16"%string)).
  cbn. lia.
Defined.

(** C10: after [setImages], [dims] and [nimages] return the values of the
    source, but the [dtype] property calls itself and never returns the
    stored dtype: whatever the recursion limit, it ends in
    [RecursionError]. *)
Theorem dtype_property_never_returns
    (s : SimpleBlockingStrategy) (images : Images) :
  let s' := snd (setImages images s) in
  dims s' = Some (images_dims images) /\
  nimages s' = Some (images_nimages images) /\
  _dtype (super s') = Some (images_dtype images) /\
  forall depth, dtype_property depth s' = Raise RecursionError.
Proof.
  cbn zeta.
  assert (Hrec : forall s0 depth, dtype_property depth s0 = Raise RecursionError).
  { intros s0 depth. induction depth as [|depth IH]; [reflexivity|exact IH]. }
  destruct (Nat.eq_dec (length (_splitsPerDim s)) (length (images_dims images)))
    as [E|E].
  - rewrite setImages_same_length by assumption. cbn. repeat split. apply Hrec.
  - rewrite setImages_other_length by assumption. cbn. repeat split. apply Hrec.
Qed.

(** ** The block-size search sequence *)

Import BlockMemoryAsSequence.

Lemma setNth_middle (l1 l2 : list Z) (x v : Z) :
  setNth (l1 ++ x :: l2) (length l1) v = l1 ++ v :: l2.
Proof. induction l1 as [|a l1 IH]; cbn; [reflexivity|now rewrite IH]. Qed.

Lemma repeat_snoc (n : nat) (x : Z) (l : list Z) :
  repeat x (S n) ++ l = repeat x n ++ x :: l.
Proof.
  cbn [repeat]. rewrite repeat_cons, <- app_assoc. reflexivity.
Qed.

Lemma walkRev_length (rdims : list Z) :
  forall idx, length (walkRev rdims idx) = length rdims.
Proof. induction rdims as [|d r IH]; intros idx; cbn; [reflexivity|now rewrite IH]. Qed.

Lemma walkRev_nonpos (rdims : list Z) :
  forall idx, idx <= 0 -> walkRev rdims idx = repeat 1 (length rdims).
Proof.
  induction rdims as [|d r IH]; intros idx Hidx; cbn; [reflexivity|].
  replace (Z.max 0 (Z.min (d - 1) idx)) with 0 by lia.
  rewrite Z.sub_0_r, IH by assumption. reflexivity.
Qed.

Lemma rev_repeat (n : nat) (x : Z) : rev (repeat x n) = repeat x n.
Proof.
  induction n as [|n IH]; [reflexivity|].
  cbn [repeat rev]. rewrite IH. symmetry. apply repeat_cons.
Qed.

Lemma indtosubLoop_walk (rest : list Z) :
  forall (td ts : list Z) (dims : list Z) (idx : Z),
    dims = rev rest ++ td ->
    length ts = length td ->
    indtosubLoop (combine (seq (length td) (length rest)) rest) dims
                 (length dims) (repeat 1 (length rest) ++ ts) idx =
    rev (walkRev rest idx) ++ ts.
Proof.
  induction rest as [|d rest IH]; intros td ts dims idx Hdims Hlen.
  - reflexivity.
  - cbn [length seq combine indtosubLoop walkRev rev].
    assert (Hn : (length dims - (length td + 1) = length (rev rest))%nat).
    { rewrite Hdims. cbn [rev]. rewrite !length_app, !length_rev. cbn. lia. }
    rewrite Hn.
    assert (Hd : nth (length (rev rest)) dims 0 = d).
    { rewrite Hdims. cbn [rev]. rewrite <- app_assoc. cbn [app]. apply nth_middle. }
    rewrite Hd. rewrite repeat_snoc.
    assert (Hrl : length (rev rest) = length (repeat 1 (length rest))).
    { now rewrite length_rev, repeat_length. }
    rewrite Hrl, nth_middle.
    assert (Hdims' : dims = rev rest ++ d :: td).
    { rewrite Hdims. cbn [rev]. now rewrite <- app_assoc. }
    assert (Hlen' : length ((1 + Z.max 0 (Z.min (d - 1) idx)) :: ts) = length (d :: td)).
    { cbn. now rewrite Hlen. }
    destruct (Z.ltb_spec 0 (Z.min (d - 1) idx)) as [Hpos|Hnpos].
    + rewrite setNth_middle.
      replace (Z.max 0 (Z.min (d - 1) idx)) with (Z.min (d - 1) idx) in * by lia.
      destruct (Z.leb_spec (idx - Z.min (d - 1) idx) 0) as [Hbrk|Hgo].
      * rewrite walkRev_nonpos by assumption. rewrite rev_repeat.
        now rewrite <- app_assoc.
      * specialize (IH (d :: td) ((1 + Z.min (d - 1) idx) :: ts) dims
                       (idx - Z.min (d - 1) idx) Hdims' Hlen').
        cbn [length] in IH. rewrite IH. now rewrite <- app_assoc.
    + replace (Z.max 0 (Z.min (d - 1) idx)) with 0 in * by lia.
      rewrite Z.sub_0_r. change (1 + 0) with 1 in *.
      destruct (Z.leb_spec idx 0) as [Hbrk|Hgo].
      * rewrite walkRev_nonpos by assumption. rewrite rev_repeat.
        now rewrite <- app_assoc.
      * specialize (IH (d :: td) (1 :: ts) dims idx Hdims' Hlen').
        cbn [length] in IH. rewrite IH. now rewrite <- app_assoc.
Qed.

Lemma indtosub_walk (dims : list Z) (idx : Z) :
  indtosub dims idx = rev (walkRev (rev dims) idx).
Proof.
  unfold indtosub.
  pose proof (indtosubLoop_walk (rev dims) [] [] dims idx) as H.
  rewrite rev_involutive, !app_nil_r, length_rev in H.
  cbn [length] in H. now apply H.
Qed.

Lemma sumPred_app (l1 l2 : list Z) :
  sumPred (l1 ++ l2) = sumPred l1 + sumPred l2.
Proof.
  unfold sumPred. induction l1 as [|a l1 IH]; cbn; [reflexivity|]. rewrite IH. lia.
Qed.

Lemma sumPred_rev (l : list Z) : sumPred (rev l) = sumPred l.
Proof.
  induction l as [|a l IH]; [reflexivity|].
  cbn [rev]. rewrite sumPred_app, IH. unfold sumPred. cbn. lia.
Qed.

Lemma sumPred_nonneg (l : list Z) :
  Forall (fun d => 0 < d) l -> 0 <= sumPred l.
Proof.
  unfold sumPred. induction 1 as [|d l Hd _ IH]; cbn; lia.
Qed.

Lemma len_sumPred (dims : list Z) : len dims = sumPred dims + 1.
Proof. reflexivity. Qed.

Lemma Forall2_rev {A B : Type} (R : A -> B -> Prop) (l1 : list A) (l2 : list B) :
  Forall2 R l1 l2 -> Forall2 R (rev l1) (rev l2).
Proof.
  induction 1 as [|a b l1 l2 Hab _ IH]; cbn; [constructor|].
  apply Forall2_app; [assumption|]. now constructor.
Qed.

Lemma walkRev_full (rdims : list Z) :
  Forall (fun d => 0 < d) rdims -> walkRev rdims (sumPred rdims) = rdims.
Proof.
  induction 1 as [|d r Hd Hr IH]; [reflexivity|].
  pose proof (sumPred_nonneg r Hr) as Hs.
  cbn [walkRev]. change (sumPred (d :: r)) with (d - 1 + sumPred r).
  replace (Z.max 0 (Z.min (d - 1) (d - 1 + sumPred r))) with (d - 1) by lia.
  replace (d - 1 + sumPred r - (d - 1)) with (sumPred r) by lia.
  rewrite IH. f_equal. lia.
Qed.

Lemma walkRev_bounds (rdims : list Z) :
  Forall (fun d => 0 < d) rdims ->
  forall idx, Forall2 (fun s d => 1 <= s <= d) (walkRev rdims idx) rdims.
Proof.
  induction 1 as [|d r Hd Hr IH]; intros idx; cbn [walkRev]; constructor.
  - lia.
  - apply IH.
Qed.

Lemma walkRev_sum (rdims : list Z) :
  Forall (fun d => 0 < d) rdims ->
  forall idx, 0 <= idx <= sumPred rdims -> sumPred (walkRev rdims idx) = idx.
Proof.
  induction 1 as [|d r Hd Hr IH]; intros idx Hidx.
  - unfold sumPred in *. cbn in *. lia.
  - cbn [walkRev].
    change (sumPred (d :: r)) with (d - 1 + sumPred r) in Hidx.
    set (delta := Z.max 0 (Z.min (d - 1) idx)).
    change (sumPred ((1 + delta) :: walkRev r (idx - delta)))
      with (1 + delta - 1 + sumPred (walkRev r (idx - delta))).
    pose proof (sumPred_nonneg r Hr) as Hs.
    rewrite IH by (unfold delta; lia). lia.
Qed.

Lemma walkRev_mono (rdims : list Z) :
  forall i j, i <= j -> Forall2 Z.le (walkRev rdims i) (walkRev rdims j).
Proof.
  induction rdims as [|d r IH]; intros i j Hij; cbn [walkRev]; constructor.
  - lia.
  - apply IH. lia.
Qed.

Lemma walkRev_step (rdims : list Z) :
  Forall (fun d => 0 < d) rdims ->
  forall idx, 0 <= idx < sumPred rdims ->
    traversalStepRev rdims (walkRev rdims idx) = walkRev rdims (idx + 1).
Proof.
  induction 1 as [|d r Hd Hr IH]; intros idx Hidx.
  - unfold sumPred in Hidx. cbn in Hidx. lia.
  - change (sumPred (d :: r)) with (d - 1 + sumPred r) in Hidx.
    cbn [walkRev traversalStepRev].
    destruct (Z.ltb_spec (1 + Z.max 0 (Z.min (d - 1) idx)) d) as [Hlt|Hge].
    + replace (Z.max 0 (Z.min (d - 1) idx)) with idx by lia.
      replace (Z.max 0 (Z.min (d - 1) (idx + 1))) with (idx + 1) by lia.
      replace (idx + 1 - (idx + 1)) with (idx - idx) by lia.
      f_equal. lia.
    + replace (Z.max 0 (Z.min (d - 1) idx)) with (d - 1) by lia.
      replace (Z.max 0 (Z.min (d - 1) (idx + 1))) with (d - 1) by lia.
      rewrite IH by lia. do 2 f_equal. lia.
Qed.

Lemma traversal_walk (dims : list Z) :
  Forall (fun d => 0 < d) dims ->
  forall k, Z.of_nat k <= sumPred dims ->
    traversal dims k = rev (walkRev (rev dims) (Z.of_nat k)).
Proof.
  intros Hpos. induction k as [|k IH]; intros Hk.
  - unfold traversal. cbn [Nat.iter Z.of_nat].
    rewrite walkRev_nonpos by lia. now rewrite rev_repeat, length_rev.
  - change (traversal dims (S k)) with (traversalStep dims (traversal dims k)).
    rewrite IH by lia. unfold traversalStep. rewrite rev_involutive.
    rewrite walkRev_step.
    + do 2 f_equal. lia.
    + now apply Forall_rev.
    + rewrite sumPred_rev. lia.
Qed.

Lemma bounded_at_one (ss ds : list Z) :
  Forall2 (fun s d => 1 <= s <= d) ss ds ->
  forall k, nth k ds 0 = 1 -> nth k ss 0 = 1.
Proof.
  induction 1 as [|s d ss ds Hsd _ IH]; intros k Hk.
  - destruct k; cbn in Hk; lia.
  - destruct k as [|k]; cbn in *; [lia|]. now apply IH.
Qed.

(** C4: for dims of positive integers the search sequence has
    [sum(d-1 for d in dims) + 1] entries; index 0 gives the all-ones split
    and the last index gives [dims]; at every index of the range [indtosub]
    returns the split that the traversal (last dimension first, one
    increment per step) reaches after that many steps, every component lies
    between 1 and its dimension, and the index is recovered from the split as
    the number of increments, so distinct indices give distinct splits; a
    dimension of size 1 keeps split count 1. *)
Theorem indtosub_inverts_traversal (dims : list Z) :
  Forall (fun d => 0 < d) dims ->
  len dims = fold_right Z.add 0 (map (fun d => d - 1) dims) + 1 /\
  indtosub dims 0 = repeat 1 (length dims) /\
  indtosub dims (len dims - 1) = dims /\
  (forall idx, 0 <= idx < len dims ->
     indtosub dims idx = traversal dims (Z.to_nat idx) /\
     Forall2 (fun s d => 1 <= s <= d) (indtosub dims idx) dims /\
     fold_right Z.add 0 (map (fun s => s - 1) (indtosub dims idx)) = idx /\
     (forall k, nth k dims 0 = 1 -> nth k (indtosub dims idx) 0 = 1)) /\
  (forall i j, 0 <= i < len dims -> 0 <= j < len dims ->
     indtosub dims i = indtosub dims j -> i = j).
Proof.
  intros Hpos.
  assert (Hrpos : Forall (fun d => 0 < d) (rev dims)) by now apply Forall_rev.
  assert (Hsum : forall idx, 0 <= idx < len dims ->
            sumPred (indtosub dims idx) = idx).
  { intros idx Hidx. rewrite len_sumPred in Hidx.
    rewrite indtosub_walk, sumPred_rev.
    apply walkRev_sum; [assumption|]. rewrite sumPred_rev. lia. }
  assert (Hbnd : forall idx,
            Forall2 (fun s d => 1 <= s <= d) (indtosub dims idx) dims).
  { intros idx. rewrite indtosub_walk.
    rewrite <- (rev_involutive dims) at 2.
    apply Forall2_rev. now apply walkRev_bounds. }
  split; [reflexivity|]. split; [|split; [|split]].
  - rewrite indtosub_walk, walkRev_nonpos by lia.
    now rewrite rev_repeat, length_rev.
  - rewrite len_sumPred, indtosub_walk.
    replace (sumPred dims + 1 - 1) with (sumPred (rev dims))
      by (rewrite sumPred_rev; lia).
    rewrite walkRev_full by assumption. apply rev_involutive.
  - intros idx Hidx. split; [|split; [|split]].
    + rewrite traversal_walk; [|assumption|rewrite len_sumPred in Hidx; lia].
      rewrite Z2Nat.id by lia. apply indtosub_walk.
    + apply Hbnd.
    + now apply Hsum.
    + intros k Hk. now apply (bounded_at_one _ _ (Hbnd idx)).
  - intros i j Hi Hj Heq.
    rewrite <- (Hsum i Hi), <- (Hsum j Hj). now rewrite Heq.
Qed.

Lemma indtosub_inverts_traversal_witness :
  Forall (fun d => 0 < d) [5; 1; 3] /\
  indtosub [5; 1; 3] 3 = [2; 1; 3] /\
  len [5; 1; 3] = fold_right Z.add 0 (map (fun d => d - 1) [5; 1; 3]) + 1 /\
  indtosub [5; 1; 3] 0 = repeat 1 (length [5; 1; 3]) /\
  indtosub [5; 1; 3] (len [5; 1; 3] - 1) = [5; 1; 3] /\
  (forall idx, 0 <= idx < len [5; 1; 3] ->
     indtosub [5; 1; 3] idx = traversal [5; 1; 3] (Z.to_nat idx) /\
     Forall2 (fun s d => 1 <= s <= d) (indtosub [5; 1; 3] idx) [5; 1; 3] /\
     fold_right Z.add 0 (map (fun s => s - 1) (indtosub [5; 1; 3] idx)) = idx /\
     (forall k, nth k [5; 1; 3] 0 = 1 -> nth k (indtosub [5; 1; 3] idx) 0 = 1)) /\
  (forall i j, 0 <= i < len [5; 1; 3] -> 0 <= j < len [5; 1; 3] ->
     indtosub [5; 1; 3] i = indtosub [5; 1; 3] j -> i = j).
Proof.
  assert (Hpos : Forall (fun d => 0 < d) [5; 1; 3]) by (repeat constructor).
  split; [exact Hpos|]. split; [reflexivity|].
  exact (indtosub_inverts_traversal [5; 1; 3] Hpos).
Defined.

(** ** Floating-point arithmetic *)

Lemma digits2_size (p : positive) : digits2_pos p = Pos.size p.
Proof. induction p; cbn; congruence. Qed.

(** [digits2_pos p] is the number of binary digits of [p]. *)
Lemma digits_bounds (p : positive) :
  2 ^ (Zpos (digits2_pos p) - 1) <= Zpos p < 2 ^ Zpos (digits2_pos p).
Proof.
  rewrite digits2_size. split.
  - pose proof (Pos.size_le p) as H.
    apply Pos2Z.pos_le_pos in H. rewrite Pos2Z.inj_pow in H.
    change (Zpos p~0) with (2 * Zpos p) in H.
    replace (Zpos (Pos.size p)) with (Zpos (Pos.size p) - 1 + 1) in H by lia.
    rewrite Z.pow_add_r in H by lia. change (2 ^ 1) with 2 in H. lia.
  - pose proof (Pos.size_gt p) as H.
    apply Pos2Z.pos_lt_pos in H. now rewrite Pos2Z.inj_pow in H.
Qed.

Lemma digits_unique (p : positive) (k : Z) :
  2 ^ (k - 1) <= Zpos p < 2 ^ k -> Zpos (digits2_pos p) = k.
Proof.
  intros [Hlo Hhi]. pose proof (digits_bounds p) as [Dlo Dhi].
  set (d := Zpos (digits2_pos p)) in *.
  assert (Hk : 0 < k).
  { destruct (Z_lt_le_dec 0 k); [assumption|].
    destruct k as [|k|k]; cbn in Hhi; try lia. }
  destruct (Z.lt_trichotomy d k) as [Hlt|[Heq|Hgt]]; [|assumption|].
  - assert (2 ^ d <= 2 ^ (k - 1)) by (apply Z.pow_le_mono_r; lia). lia.
  - assert (2 ^ k <= 2 ^ (d - 1)) by (apply Z.pow_le_mono_r; lia). lia.
Qed.

(** One right shift halves the mantissa, doubles the unit and keeps the
    real number between the same neighbours. *)
Lemma shr_1_brk (mrs : shr_record) (N U : Z) :
  0 <= shr_m mrs -> 0 < U -> recbrk mrs N U ->
  recbrk (shr_1 mrs) N (2 * U) /\ shr_m (shr_1 mrs) = shr_m mrs / 2.
Proof.
  destruct mrs as [m r s]. unfold recbrk. cbn [shr_m].
  intros Hm HU H.
  destruct m as [|p|p]; [| |lia].
  - destruct r, s; cbn [shr_1 shr_m loc_of_shr_record orb brk] in *;
      (split; [|reflexivity]); lia.
  - destruct p as [p|p|].
    + assert (E : Zpos p~1 / 2 = Zpos p).
      { rewrite Pos2Z.inj_xI. symmetry.
        apply (Z.div_unique _ 2 _ 1); lia. }
      rewrite E. rewrite Pos2Z.inj_xI in H.
      destruct r, s; cbn [shr_1 shr_m loc_of_shr_record orb brk] in *;
        (split; [|reflexivity]); nia.
    + assert (E : Zpos p~0 / 2 = Zpos p).
      { rewrite Pos2Z.inj_xO. symmetry.
        apply (Z.div_unique _ 2 _ 0); lia. }
      rewrite E. rewrite Pos2Z.inj_xO in H.
      destruct r, s; cbn [shr_1 shr_m loc_of_shr_record orb brk] in *;
        (split; [|reflexivity]); nia.
    + destruct r, s; cbn [shr_1 shr_m loc_of_shr_record orb brk] in *;
        (split; [|reflexivity]); lia.
Qed.

Lemma div_pow2_pow2 (a i j : Z) :
  0 <= i -> 0 <= j -> a / 2 ^ i / 2 ^ j = a / 2 ^ (i + j).
Proof.
  intros Hi Hj. rewrite Zdiv.Zdiv_Zdiv by (apply Z.pow_nonneg; lia).
  now rewrite Z.pow_add_r.
Qed.

Lemma pow2_unit_pos (k U : Z) : 0 <= k -> 0 < U -> 0 < 2 ^ k * U.
Proof.
  intros Hk HU. apply Z.mul_pos_pos; [apply Z.pow_pos_nonneg; lia|assumption].
Qed.

(** So do [n] right shifts, with [2 ^ n] for [2]. *)
Lemma iter_shr_1_brk (n : positive) :
  forall mrs N U,
    0 <= shr_m mrs -> 0 < U -> recbrk mrs N U ->
    recbrk (iter_pos shr_1 n mrs) N (2 ^ Zpos n * U) /\
    shr_m (iter_pos shr_1 n mrs) = shr_m mrs / 2 ^ Zpos n.
Proof.
  assert (Hstep : forall mrs N U,
            0 <= shr_m mrs -> 0 < U -> recbrk mrs N U ->
            recbrk (shr_1 mrs) N (2 ^ 1 * U) /\
            shr_m (shr_1 mrs) = shr_m mrs / 2 ^ 1 /\
            0 <= shr_m (shr_1 mrs)).
  { intros mrs N U Hm HU H. destruct (shr_1_brk mrs N U Hm HU H) as (H1 & H2).
    change (2 ^ 1) with 2. repeat split; try assumption.
    rewrite H2. apply Z.div_pos; lia. }
  assert (Hp : forall k, 0 <= k -> 0 < 2 ^ k) by (intros; now apply Z.pow_pos_nonneg).
  induction n as [n IH|n IH|]; intros mrs N U Hm HU H; cbn [iter_pos].
  - destruct (Hstep mrs N U Hm HU H) as (H1 & H2 & H3).
    destruct (IH _ N _ H3 (pow2_unit_pos 1 U ltac:(lia) HU) H1) as (H4 & H5).
    assert (H6 : 0 <= shr_m (iter_pos shr_1 n (shr_1 mrs))).
    { rewrite H5. apply Z.div_pos; [assumption|apply Hp; lia]. }
    destruct (IH _ N _ H6 (pow2_unit_pos (Zpos n) _ ltac:(lia)
                             (pow2_unit_pos 1 U ltac:(lia) HU)) H4) as (H7 & H8).
    change (Zpos n~1) with (2 * Zpos n + 1).
    replace (2 ^ (2 * Zpos n + 1)) with (2 ^ Zpos n * (2 ^ Zpos n * 2 ^ 1))
      by (rewrite <- !Z.pow_add_r by lia; f_equal; lia).
    split.
    + now rewrite <- !Z.mul_assoc.
    + rewrite H8, H5, H2. rewrite !div_pow2_pow2 by lia.
      rewrite <- !Z.pow_add_r by lia. f_equal. f_equal. lia.
  - destruct (IH _ N _ Hm HU H) as (H4 & H5).
    assert (H6 : 0 <= shr_m (iter_pos shr_1 n mrs)).
    { rewrite H5. apply Z.div_pos; [assumption|apply Hp; lia]. }
    destruct (IH _ N _ H6 (pow2_unit_pos (Zpos n) _ ltac:(lia) HU) H4) as (H7 & H8).
    change (Zpos n~0) with (2 * Zpos n).
    replace (2 ^ (2 * Zpos n)) with (2 ^ Zpos n * 2 ^ Zpos n)
      by (rewrite <- !Z.pow_add_r by lia; f_equal; lia).
    split.
    + now rewrite <- !Z.mul_assoc.
    + rewrite H8, H5. rewrite div_pow2_pow2 by lia.
      rewrite <- Z.pow_add_r by lia. reflexivity.
  - destruct (Hstep mrs N U Hm HU H) as (H1 & H2 & H3). now split.
Qed.

Lemma brk_scale (m : Z) (l : location) (N U c : Z) :
  0 < c -> brk m l N U -> brk m l (c * N) (c * U).
Proof.
  intros Hc H. destruct l as [|[| |]]; cbn [brk] in *; nia.
Qed.

Lemma brk_lower (m : Z) (l : location) (N U : Z) :
  0 < U -> brk m l N U -> m * U <= N < (m + 1) * U.
Proof.
  intros HU H. destruct l as [|[| |]]; cbn [brk] in *; nia.
Qed.

(** In the same unit, a larger real number has a larger mantissa and
    location. *)
Lemma code_mono (m m' : Z) (l l' : location) (N N' U : Z) :
  0 < U -> brk m l N U -> brk m' l' N' U -> N <= N' ->
  code m l <= code m' l'.
Proof.
  intros HU H H' HN.
  destruct (Z.lt_trichotomy m m') as [Hlt|[Heq|Hgt]].
  - unfold code. destruct l as [|[| |]], l' as [|[| |]]; lia.
  - subst m'. unfold code.
    destruct l as [|[| |]], l' as [|[| |]]; cbn [brk] in *; nia.
  - exfalso. pose proof (brk_lower _ _ _ _ HU H).
    pose proof (brk_lower _ _ _ _ HU H'). nia.
Qed.

(** Rounding the mantissa to nearest, ties to even, respects that order. *)
Lemma rne_mono (m m' : Z) (l l' : location) :
  code m l <= code m' l' ->
  round_nearest_even m l <= round_nearest_even m' l'.
Proof.
  unfold code, round_nearest_even. intros H.
  destruct (Z.lt_trichotomy m m') as [Hlt|[Heq|Hgt]].
  - destruct l as [|[| |]], l' as [|[| |]];
      try destruct (Z.even m); try destruct (Z.even m'); lia.
  - subst m'. destruct l as [|[| |]], l' as [|[| |]];
      try destruct (Z.even m); lia.
  - destruct l as [|[| |]], l' as [|[| |]]; lia.
Qed.

Lemma rne_bounds (m : Z) (l : location) :
  m <= round_nearest_even m l <= m + 1.
Proof.
  unfold round_nearest_even.
  destruct l as [|[| |]]; try destruct (Z.even m); lia.
Qed.

Lemma loc_of_shr_record_of_loc (m : Z) (l : location) :
  loc_of_shr_record (shr_record_of_loc m l) = l /\
  shr_m (shr_record_of_loc m l) = m.
Proof. destruct l as [|[| |]]; split; reflexivity. Qed.

(** In the normal range (a mantissa of at least 53 digits, a result
    exponent of at least -1074) [shr_fexp] shifts the mantissa down to
    exactly 53 digits. *)
Lemma shr_fexp_normal (m : positive) (e : Z) (l : location) (N U : Z) :
  let d := Zpos (digits2_pos m) in
  53 <= d -> -1074 <= d + e - 53 -> 0 < U -> brk (Zpos m) l N U ->
  exists mrs,
    shr_fexp 53 1024 (Zpos m) e l = (mrs, d + e - 53) /\
    brk (shr_m mrs) (loc_of_shr_record mrs) N (2 ^ (d - 53) * U) /\
    2 ^ 52 <= shr_m mrs < 2 ^ 53.
Proof.
  intros d Hd He HU H.
  pose proof (digits_bounds m) as [Dlo Dhi]. fold d in Dlo, Dhi.
  unfold shr_fexp, fexp, emin. cbn [Zdigits2]. fold d.
  replace (Z.max (d + e - 53) (3 - 1024 - 53)) with (d + e - 53) by lia.
  replace (d + e - 53 - e) with (d - 53) by lia.
  destruct (loc_of_shr_record_of_loc (Zpos m) l) as (Hl & Hm).
  destruct (d - 53) as [|n|n] eqn:En; [| |lia].
  - exists (shr_record_of_loc (Zpos m) l). cbn [shr].
    split; [f_equal; lia|]. rewrite Hl, Hm. split.
    + change (2 ^ 0) with 1. now rewrite Z.mul_1_l.
    + replace d with 53 in * by lia. change (53 - 1) with 52 in Dlo. lia.
  - cbn [shr].
    destruct (iter_shr_1_brk n (shr_record_of_loc (Zpos m) l) N U) as (H1 & H2).
    + rewrite Hm. lia.
    + assumption.
    + unfold recbrk. now rewrite Hl, Hm.
    + eexists. split; [f_equal; lia|]. split; [exact H1|].
      rewrite H2, Hm.
      assert (Hp : 0 < 2 ^ Zpos n) by (apply Z.pow_pos_nonneg; lia).
      assert (E1 : 2 ^ (d - 1) = 2 ^ 52 * 2 ^ Zpos n).
      { rewrite <- Z.pow_add_r by lia. f_equal. lia. }
      assert (E2 : 2 ^ d = 2 ^ 53 * 2 ^ Zpos n).
      { rewrite <- Z.pow_add_r by lia. f_equal. lia. }
      split.
      * apply Z.div_le_lower_bound; [assumption|]. lia.
      * apply Z.div_lt_upper_bound; [assumption|]. lia.
Qed.

Lemma digits_Zpos_53 (m1 : Z) :
  2 ^ 52 <= m1 < 2 ^ 53 -> Zdigits2 m1 = 53.
Proof.
  intros H. destruct m1 as [|p|p]; try (cbn in H; lia).
  cbn [Zdigits2]. apply digits_unique. exact H.
Qed.

(** In the normal range [binary_round_aux] returns [rnd_result] of the
    53-digit truncation. *)
Lemma bra_normal (m : positive) (e : Z) (l : location) (N U : Z) :
  let d := Zpos (digits2_pos m) in
  53 <= d -> -1074 <= d + e - 53 -> 0 < U -> brk (Zpos m) l N U ->
  exists mt lt,
    brk mt lt N (2 ^ (d - 53) * U) /\
    2 ^ 52 <= mt < 2 ^ 53 /\
    bra false (Zpos m) e l = rnd_result mt lt (d + e - 53).
Proof.
  intros d Hd He HU H.
  destruct (shr_fexp_normal m e l N U Hd He HU H) as (mrs & Hs & Hb & Hm).
  fold d in Hs, Hb.
  exists (shr_m mrs), (loc_of_shr_record mrs).
  split; [exact Hb|]. split; [exact Hm|].
  unfold binary_round_aux. rewrite Hs. unfold rnd_result.
  set (E := d + e - 53) in *.
  pose proof (rne_bounds (shr_m mrs) (loc_of_shr_record mrs)) as Hr.
  remember (round_nearest_even (shr_m mrs) (loc_of_shr_record mrs)) as m1
    eqn:Em1.
  assert (Hp52 : 0 < 2 ^ 52) by (apply Z.pow_pos_nonneg; lia).
  destruct (Z.ltb_spec m1 (2 ^ 53)) as [Hlt|Hge].
  - assert (Hd1 : Zdigits2 m1 = 53) by (apply digits_Zpos_53; lia).
    unfold shr_fexp, fexp, emin. rewrite Hd1.
    replace (Z.max (53 + E - 53) (3 - 1024 - 53) - E) with 0 by lia.
    cbn [shr shr_record_of_loc shr_m].
    destruct m1 as [|p|p]; [lia| |lia].
    change (1024 - 53) with 971. reflexivity.
  - assert (Em : m1 = 2 ^ 53) by lia. rewrite Em.
    unfold shr_fexp, fexp, emin.
    change (Zdigits2 (2 ^ 53)) with 54.
    replace (Z.max (54 + E - 53) (3 - 1024 - 53) - E) with 1 by lia.
    cbn [shr]. change (1024 - 53) with 971. reflexivity.
Qed.

(** Comparison of positive finite floats: by exponent, then by mantissa. *)
Lemma leb_finite (m m' : positive) (e e' : Z) :
  SFleb (S754_finite false m e) (S754_finite false m' e') = true <->
  e < e' \/ (e = e' /\ Zpos m <= Zpos m').
Proof.
  unfold SFleb, SFcompare.
  change (Pos.compare_cont Eq m m') with (Pos.compare m m').
  destruct (Z.compare_spec e e') as [E|E|E].
  - destruct (Pos.compare_spec m m') as [F|F|F]; split; intros H;
      try reflexivity; try discriminate; try lia.
  - split; [intros _; now left|reflexivity].
  - split; [discriminate|lia].
Qed.


Lemma leb_refl (lo : Z) (a : spec_float) : atLeast lo a -> SFleb a a = true.
Proof.
  destruct a as [s|[|]| |[|] m e]; cbn [atLeast]; try contradiction.
  - reflexivity.
  - intros _. apply leb_finite. right. split; [reflexivity|lia].
Qed.

Lemma leb_trans (lo : Z) (a b c : spec_float) :
  atLeast lo a -> atLeast lo b -> atLeast lo c ->
  SFleb a b = true -> SFleb b c = true -> SFleb a c = true.
Proof.
  destruct a as [s|[|]| |[|] m e]; cbn [atLeast]; try contradiction;
  destruct b as [s'|[|]| |[|] m' e']; cbn [atLeast]; try contradiction;
  destruct c as [s''|[|]| |[|] m'' e'']; cbn [atLeast]; try contradiction;
  intros _ _ _; try reflexivity; try discriminate.
  rewrite !leb_finite. lia.
Qed.



Lemma rnd_result_atLeast (mt : Z) (lt : location) (E : Z) :
  2 ^ 52 <= mt < 2 ^ 53 -> atLeast E (rnd_result mt lt E).
Proof.
  intros Hm. unfold rnd_result. cbv zeta.
  pose proof (rne_bounds mt lt) as Hr.
  assert (Hp52 : 0 < 2 ^ 52) by (apply Z.pow_pos_nonneg; lia).
  destruct (Z.ltb_spec (round_nearest_even mt lt) (2 ^ 53)) as [L|L].
  - destruct (Z.leb_spec E 971); cbn [atLeast]; [|exact I].
    split; [|lia]. apply digits_unique. rewrite Z2Pos.id by lia.
    change (53 - 1) with 52. lia.
  - destruct (Z.leb_spec (E + 1) 971); cbn [atLeast]; [|exact I].
    split; [reflexivity|lia].
Qed.


(** The rounded float grows with the exponent and, at equal exponents,
    with mantissa and location. *)
Lemma rnd_result_mono (mt mt' : Z) (lt lt' : location) (E E' : Z) :
  2 ^ 52 <= mt < 2 ^ 53 -> 2 ^ 52 <= mt' < 2 ^ 53 ->
  E < E' \/ (E = E' /\ code mt lt <= code mt' lt') ->
  SFleb (rnd_result mt lt E) (rnd_result mt' lt' E') = true.
Proof.
  intros Hm Hm' H. unfold rnd_result. cbv zeta.
  pose proof (rne_bounds mt lt) as Hr.
  pose proof (rne_bounds mt' lt') as Hr'.
  assert (Hp52 : 0 < 2 ^ 52) by (apply Z.pow_pos_nonneg; lia).
  assert (Hmono : E = E' -> round_nearest_even mt lt <= round_nearest_even mt' lt').
  { intros EE. apply rne_mono. lia. }
  assert (E52 : Zpos (Z.to_pos (2 ^ 52)) = 2 ^ 52) by (apply Z2Pos.id; lia).
  destruct (Z.ltb_spec (round_nearest_even mt lt) (2 ^ 53)) as [L|L];
  destruct (Z.ltb_spec (round_nearest_even mt' lt') (2 ^ 53)) as [L'|L'];
  repeat match goal with
         | |- context [?a <=? ?b] => destruct (Z.leb_spec a b)
         end;
  try reflexivity; try lia;
  apply leb_finite; rewrite ?E52, ?Z2Pos.id by lia; lia.
Qed.

Lemma scale_pos (D e : Z) : 0 < D -> -2200 <= e -> 0 < scale D e.
Proof.
  intros HD He. unfold scale. apply Z.mul_pos_pos; [assumption|].
  apply Z.pow_pos_nonneg; lia.
Qed.

Lemma scale_shift (D e n : Z) :
  -2200 <= e -> 0 <= n -> 2 ^ n * scale D e = scale D (e + n).
Proof.
  intros He Hn. unfold scale.
  replace (e + n + 2200) with (n + (e + 2200)) by lia.
  rewrite (Z.pow_add_r 2 n (e + 2200)) by lia. ring.
Qed.

Lemma code_inj (m m' : Z) (l l' : location) :
  code m l = code m' l' -> m = m' /\ l = l'.
Proof.
  unfold code. destruct l as [|[| |]], l' as [|[| |]]; intros H;
    (split; [lia|]); try reflexivity; exfalso; lia.
Qed.

(** A larger real number has at least as large a magnitude
    [digits + exponent]. *)
Lemma digits_exponent_mono (D : Z) (m m' : positive) (e e' : Z)
    (l l' : location) (N N' : Z) :
  0 < D -> -2200 <= e -> -2200 <= e' ->
  brk (Zpos m) l N (scale D e) -> brk (Zpos m') l' N' (scale D e') ->
  N <= N' ->
  Zpos (digits2_pos m) + e <= Zpos (digits2_pos m') + e'.
Proof.
  intros HD He He' H H' HN.
  pose proof (brk_lower _ _ _ _ (scale_pos D e HD He) H) as [L _].
  pose proof (brk_lower _ _ _ _ (scale_pos D e' HD He') H') as [_ U].
  pose proof (digits_bounds m) as [Dlo _].
  pose proof (digits_bounds m') as [_ Dhi].
  set (d := Zpos (digits2_pos m)) in *.
  set (d' := Zpos (digits2_pos m')) in *.
  destruct (Z_le_gt_dec (d + e) (d' + e')) as [G|G]; [assumption|exfalso].
  assert (P : 2 ^ (d' + (e' + 2200)) <= 2 ^ ((d - 1) + (e + 2200))).
  { apply Z.pow_le_mono_r; lia. }
  rewrite (Z.pow_add_r 2 d' (e' + 2200)) in P by (unfold d'; lia).
  rewrite (Z.pow_add_r 2 (d - 1) (e + 2200)) in P by (unfold d; lia).
  unfold scale in L, U.
  assert (0 < 2 ^ (e + 2200)) by (apply Z.pow_pos_nonneg; lia).
  assert (0 < 2 ^ (e' + 2200)) by (apply Z.pow_pos_nonneg; lia).
  assert (S1 : 2 ^ (d - 1) * (D * 2 ^ (e + 2200)) <= N).
  { eapply Z.le_trans; [|exact L]. apply Z.mul_le_mono_nonneg_r; nia. }
  assert (S2 : N' < 2 ^ d' * (D * 2 ^ (e' + 2200))).
  { eapply Z.lt_le_trans; [exact U|]. apply Z.mul_le_mono_nonneg_r; nia. }
  assert (S3 : D * (2 ^ d' * 2 ^ (e' + 2200)) <=
               D * (2 ^ (d - 1) * 2 ^ (e + 2200))).
  { apply Z.mul_le_mono_nonneg_l; lia. }
  lia.
Qed.

Section Rounding.

Variable D : Z.
Hypothesis D_pos : 0 < D.

Variables (m m' : positive) (e e' : Z) (l l' : location) (N N' : Z).

Hypothesis digits_m : 53 <= Zpos (digits2_pos m).
Hypothesis digits_m' : 53 <= Zpos (digits2_pos m').
Hypothesis normal_m : -1074 <= Zpos (digits2_pos m) + e - 53.
Hypothesis normal_m' : -1074 <= Zpos (digits2_pos m') + e' - 53.
Hypothesis base_e : -2200 <= e.
Hypothesis base_e' : -2200 <= e'.
Hypothesis value_m : brk (Zpos m) l N (scale D e).
Hypothesis value_m' : brk (Zpos m') l' N' (scale D e').

(** Rounding to nearest, ties to even, is monotone. *)
Lemma round_mono :
  N <= N' ->
  SFleb (bra false (Zpos m) e l) (bra false (Zpos m') e' l') = true.
Proof.
  intros HN.
  pose proof (digits_exponent_mono D m m' e e' l l' N N' D_pos base_e base_e'
                value_m value_m' HN) as HE.
  destruct (bra_normal m e l N (scale D e) digits_m normal_m
              (scale_pos D e D_pos base_e) value_m) as (mt & lt & Hb & Hm & ->).
  destruct (bra_normal m' e' l' N' (scale D e') digits_m' normal_m'
              (scale_pos D e' D_pos base_e') value_m')
    as (mt' & lt' & Hb' & Hm' & ->).
  apply rnd_result_mono; try assumption.
  destruct (Z.eq_dec (Zpos (digits2_pos m) + e) (Zpos (digits2_pos m') + e'))
    as [EE|NE]; [right|left; lia].
  split; [lia|].
  rewrite scale_shift in Hb, Hb' by lia.
  replace (e' + (Zpos (digits2_pos m') - 53))
    with (e + (Zpos (digits2_pos m) - 53)) in Hb' by lia.
  eapply code_mono; [|exact Hb|exact Hb'|exact HN].
  apply scale_pos; [assumption|lia].
Qed.

(** Two truncations of the same real number round to the same float. *)
Lemma round_eq :
  N = N' ->
  bra false (Zpos m) e l = bra false (Zpos m') e' l'.
Proof.
  intros HN.
  pose proof (digits_exponent_mono D m m' e e' l l' N N' D_pos base_e base_e'
                value_m value_m' ltac:(lia)) as HE.
  pose proof (digits_exponent_mono D m' m e' e l' l N' N D_pos base_e' base_e
                value_m' value_m ltac:(lia)) as HE'.
  destruct (bra_normal m e l N (scale D e) digits_m normal_m
              (scale_pos D e D_pos base_e) value_m) as (mt & lt & Hb & Hm & ->).
  destruct (bra_normal m' e' l' N' (scale D e') digits_m' normal_m'
              (scale_pos D e' D_pos base_e') value_m')
    as (mt' & lt' & Hb' & Hm' & ->).
  rewrite scale_shift in Hb, Hb' by lia.
  replace (e' + (Zpos (digits2_pos m') - 53))
    with (e + (Zpos (digits2_pos m) - 53)) in Hb' by lia.
  assert (HU : 0 < scale D (e + (Zpos (digits2_pos m) - 53)))
    by (apply scale_pos; [assumption|lia]).
  pose proof (code_mono _ _ _ _ _ _ _ HU Hb Hb' ltac:(lia)) as C1.
  pose proof (code_mono _ _ _ _ _ _ _ HU Hb' Hb ltac:(lia)) as C2.
  destruct (code_inj mt mt' lt lt' ltac:(lia)) as [-> ->].
  f_equal. lia.
Qed.

(** The rounded float is positive and normal, or plus infinity. *)
Lemma round_atLeast :
  atLeast (Zpos (digits2_pos m) + e - 53) (bra false (Zpos m) e l).
Proof.
  destruct (bra_normal m e l N (scale D e) digits_m normal_m
              (scale_pos D e D_pos base_e) value_m) as (mt & lt & Hb & Hm & ->).
  now apply rnd_result_atLeast.
Qed.


End Rounding.

Lemma iter_xO (d : positive) :
  forall mx, Zpos (Pos.iter xO mx d) = Zpos mx * 2 ^ Zpos d.
Proof.
  induction d as [|d IH] using Pos.peano_ind; intros mx.
  - cbn [Pos.iter]. change (Zpos mx~0) with (2 * Zpos mx).
    change (2 ^ 1) with 2. lia.
  - rewrite Pos.iter_succ. change (Zpos (Pos.iter xO mx d)~0)
      with (2 * Zpos (Pos.iter xO mx d)).
    rewrite IH, Pos2Z.inj_succ, Z.pow_succ_r by lia. ring.
Qed.

(** The mantissa and exponent that [binary_round] starts from for an
    integer. *)
Lemma align_int (p : positive) :
  exists mz ez,
    shl_align p 0 (fexp 53 1024 (Zpos (digits2_pos p) + 0)) = (mz, ez) /\
    -52 <= ez <= 0 /\
    Zpos mz * 2 ^ (ez + 2200) = Zpos p * 2 ^ 2200 /\
    53 <= Zpos (digits2_pos mz) /\
    Zpos (digits2_pos mz) + ez = Z.max 53 (Zpos (digits2_pos p)) + ez /\
    ez = Z.min 0 (Zpos (digits2_pos p) - 53) /\
    Zpos (digits2_pos mz) + ez - 53 = Zpos (digits2_pos p) - 53.
Proof.
  pose proof (digits_bounds p) as [Dlo Dhi].
  set (d := Zpos (digits2_pos p)) in *.
  assert (Hd : 1 <= d) by (unfold d; lia).
  unfold shl_align, fexp, emin. rewrite Z.add_0_r, Z.sub_0_r.
  replace (Z.max (d - 53) (3 - 1024 - 53)) with (d - 53) by lia.
  destruct (d - 53) as [|k|k] eqn:Ek.
  - exists p, 0. fold d. repeat split; try lia.
  - exists p, 0. fold d. repeat split; try lia.
  - exists (Pos.iter xO p k), (Zneg k).
    assert (Ek' : Zpos k = 53 - d) by lia.
    assert (Em : Zpos (Pos.iter xO p k) = Zpos p * 2 ^ (53 - d))
      by (rewrite iter_xO; now rewrite Ek').
    assert (Ed : Zpos (digits2_pos (Pos.iter xO p k)) = 53).
    { apply digits_unique. rewrite Em. change (53 - 1) with 52.
      assert (E52 : 2 ^ 52 = 2 ^ (d - 1) * 2 ^ (53 - d)).
      { rewrite <- Z.pow_add_r by lia. f_equal. lia. }
      assert (E53 : 2 ^ 53 = 2 ^ d * 2 ^ (53 - d)).
      { rewrite <- Z.pow_add_r by lia. f_equal. lia. }
      rewrite E52, E53.
      assert (0 < 2 ^ (53 - d)) by (apply Z.pow_pos_nonneg; lia).
      split; [apply Z.mul_le_mono_nonneg_r|apply Z.mul_lt_mono_pos_r]; lia. }
    split; [reflexivity|]. split; [lia|]. split.
    + rewrite Em. replace 2200 with ((53 - d) + (Zneg k + 2200)) at 2 by lia.
      rewrite (Z.pow_add_r 2 (53 - d) (Zneg k + 2200)) by lia. ring.
    + rewrite Ed. repeat split; lia.
Qed.

(** [float(p)] is the rounding of the integer [p] itself. *)
Lemma fl_round (p : positive) (D : Z) :
  0 < D ->
  exists mz ez,
    fl (Zpos p) = bra false (Zpos mz) ez loc_Exact /\
    -52 <= ez <= 0 /\
    53 <= Zpos (digits2_pos mz) /\
    Zpos (digits2_pos mz) + ez - 53 = Zpos (digits2_pos p) - 53 /\
    brk (Zpos mz) loc_Exact (Zpos p * D * 2 ^ 2200) (scale D ez).
Proof.
  intros HD.
  destruct (align_int p) as (mz & ez & Ha & He & Hv & Hd & _ & _ & HE).
  exists mz, ez. split.
  - unfold Float.nearest. cbn [binary_normalize]. unfold binary_round.
    now rewrite Ha.
  - split; [assumption|]. split; [assumption|]. split; [assumption|].
    cbn [brk]. unfold scale.
    transitivity (D * (Zpos p * 2 ^ 2200)); [ring|]. rewrite <- Hv. ring.
Qed.

Lemma digits_le (p : positive) (k : Z) :
  Zpos p < 2 ^ k -> 0 <= k -> Zpos (digits2_pos p) <= k.
Proof.
  intros Hp Hk. pose proof (digits_bounds p) as [Dlo _].
  destruct (Z_le_gt_dec (Zpos (digits2_pos p)) k) as [L|G]; [assumption|].
  exfalso. assert (2 ^ k <= 2 ^ (Zpos (digits2_pos p) - 1))
    by (apply Z.pow_le_mono_r; lia). lia.
Qed.

(** Conversion of a positive integer: the class of the result. *)
Lemma fl_atLeast (z : Z) : 0 < z -> atLeast (-52) (fl z).
Proof.
  intros Hz. destruct z as [|p|p]; try lia.
  destruct (fl_round p 1 ltac:(lia)) as (mz & ez & -> & He & Hd & HE & Hb).
  pose proof (round_atLeast 1 ltac:(lia) mz ez loc_Exact _ Hd ltac:(lia)
                ltac:(lia) Hb) as H.
  destruct (bra false (Zpos mz) ez loc_Exact) as [s|[|]| |[|] m e];
    cbn [atLeast] in *; try assumption.
  split; [apply H|]. destruct H as [_ H]. lia.
Qed.


Lemma atLeast_weaken (lo lo' : Z) (f : spec_float) :
  lo' <= lo -> atLeast lo f -> atLeast lo' f.
Proof.
  intros Hlo. destruct f as [s|[|]| |[|] m e]; cbn [atLeast]; try tauto.
  intros [Hd He]. split; [assumption|lia].
Qed.

Lemma normalIn_atLeast (lo hi : Z) (f : spec_float) :
  hi <= 971 -> normalIn lo hi f -> atLeast lo f.
Proof.
  intros Hhi. destruct f as [s|[|]| |[|] m e]; cbn [normalIn atLeast];
    try tauto.
  intros [Hd He]. split; [assumption|lia].
Qed.




(** Conversion of integers is monotone. *)
Lemma fl_mono (z z' : Z) :
  0 < z -> z <= z' -> SFleb (fl z) (fl z') = true.
Proof.
  intros Hz Hzz. destruct z as [|p|p]; try lia.
  destruct z' as [|p'|p']; try lia.
  destruct (fl_round p 1 ltac:(lia)) as (mz & ez & -> & He & Hd & HE & Hb).
  destruct (fl_round p' 1 ltac:(lia))
    as (mz' & ez' & -> & He' & Hd' & HE' & Hb').
  apply (round_mono 1 ltac:(lia) mz mz' ez ez' loc_Exact loc_Exact
           (Zpos p * 1 * 2 ^ 2200) (Zpos p' * 1 * 2 ^ 2200));
    try assumption; lia.
Qed.

(** An exact multiple of the unit sits on a mantissa. *)
Lemma brk_exact_inv (mt : Z) (lt : location) (c U : Z) :
  0 < U -> brk mt lt (c * U) U -> mt = c /\ lt = loc_Exact.
Proof.
  intros HU H. destruct lt as [|[| |]]; cbn [brk] in H.
  - split; [|reflexivity]. symmetry. now apply Z.mul_reg_r with U; [lia|].
  - exfalso. replace (2 * (c * U)) with ((2 * c) * U) in H by ring.
    apply Z.mul_reg_r in H; lia.
  - exfalso. destruct H as [H1 H2].
    apply Z.mul_lt_mono_pos_r in H1; [|assumption].
    replace (2 * (c * U)) with ((2 * c) * U) in H2 by ring.
    apply Z.mul_lt_mono_pos_r in H2; [|assumption]. lia.
  - exfalso. destruct H as [H1 H2].
    apply Z.mul_lt_mono_pos_r in H2; [|assumption].
    replace (2 * (c * U)) with ((2 * c) * U) in H1 by ring.
    apply Z.mul_lt_mono_pos_r in H1; [|assumption]. lia.
Qed.

Lemma digits_ge (p : positive) (k : Z) :
  2 ^ k <= Zpos p -> k + 1 <= Zpos (digits2_pos p).
Proof.
  intros Hp. pose proof (digits_bounds p) as [_ Dhi].
  destruct (Z_le_gt_dec (k + 1) (Zpos (digits2_pos p))) as [L|G]; [assumption|].
  exfalso. assert (2 ^ Zpos (digits2_pos p) <= 2 ^ k)
    by (apply Z.pow_le_mono_r; lia). lia.
Qed.

Lemma digits53_bounds (m : positive) :
  Zpos (digits2_pos m) = 53 -> 2 ^ 52 <= Zpos m < 2 ^ 53.
Proof.
  intros H. pose proof (digits_bounds m) as B. rewrite H in B. exact B.
Qed.


(** The product of two positive normal floats is the rounding of the
    product of their values. *)
Lemma mul_round (m1 m2 : positive) (e1 e2 : Z) :
  Zpos (digits2_pos m1) = 53 -> Zpos (digits2_pos m2) = 53 ->
  fmul (S754_finite false m1 e1) (S754_finite false m2 e2) =
    bra false (Zpos (m1 * m2)) (e1 + e2) loc_Exact /\
  105 <= Zpos (digits2_pos (m1 * m2)) /\
  brk (Zpos (m1 * m2)) loc_Exact
    (Zpos m1 * Zpos m2 * 2 ^ (e1 + e2 + 2200)) (scale 1 (e1 + e2)).
Proof.
  intros Hd1 Hd2. apply digits53_bounds in Hd1, Hd2.
  split; [reflexivity|]. split.
  - apply (digits_ge (m1 * m2) 104). rewrite Pos2Z.inj_mul.
    change (2 ^ 104) with (2 ^ 52 * 2 ^ 52).
    assert (P : 0 < 2 ^ 52) by (apply Z.pow_pos_nonneg; lia).
    apply Z.mul_le_mono_nonneg; lia.
  - cbn [brk]. unfold scale. rewrite Pos2Z.inj_mul. ring.
Qed.



(** [new_location] places a quotient [a / b] between [q] and [q + 1]. *)
Lemma new_location_brk (b a q r : Z) :
  0 < b -> a = b * q + r -> 0 <= r < b -> brk q (new_location b r) a b.
Proof.
  intros Hb Ha Hr. unfold new_location.
  destruct (Z.even b) eqn:Ev.
  - unfold new_location_even. destruct (Z.eqb_spec r 0) as [E|E].
    + cbn [brk]. subst. ring.
    + destruct (Z.compare_spec (2 * r) b) as [C|C|C]; cbn [brk]; lia.
  - assert (Ho : Z.odd b = true) by (rewrite <- Z.negb_even, Ev; reflexivity).
    apply Z.odd_spec in Ho. destruct Ho as [k Hk].
    unfold new_location_odd. destruct (Z.eqb_spec r 0) as [E|E].
    + cbn [brk]. subst a r. ring.
    + destruct (Z.compare_spec (2 * r + 1) b) as [C|C|C]; cbn [brk]; lia.
Qed.

(** The quotient of two positive normal floats whose exponents are not too
    far apart is the rounding of the quotient of their values. *)
Lemma div_round (m1 m2 : positive) (e1 e2 : Z) :
  Zpos (digits2_pos m1) = 53 -> Zpos (digits2_pos m2) = 53 ->
  -1021 <= e1 - e2 ->
  exists (q : positive) (loc : location),
    fdiv (S754_finite false m1 e1) (S754_finite false m2 e2) =
      bra false (Zpos q) (e1 - e2 - 53) loc /\
    53 <= Zpos (digits2_pos q) /\
    (Zpos m2 <= Zpos m1 -> 54 <= Zpos (digits2_pos q)) /\
    brk (Zpos q) loc (Zpos m1 * 2 ^ 53) (Zpos m2).
Proof.
  intros Hd1 Hd2 He.
  unfold SFdiv, SFdiv_core_binary. cbn [Zdigits2 xorb]. rewrite Hd1, Hd2.
  replace (53 + e1 - (53 + e2)) with (e1 - e2) by lia.
  unfold fexp, emin.
  replace (Z.min (Z.max (e1 - e2 - 53) (3 - 1024 - 53)) (e1 - e2))
    with (e1 - e2 - 53) by lia.
  replace (e1 - e2 - (e1 - e2 - 53)) with 53 by lia.
  cbv beta iota zeta.
  rewrite Z.shiftl_mul_pow2 by lia.
  apply digits53_bounds in Hd1, Hd2.
  pose proof (Z_div_mod (Zpos m1 * 2 ^ 53) (Zpos m2) ltac:(lia)) as HD.
  destruct (Z.div_eucl (Zpos m1 * 2 ^ 53) (Zpos m2)) as [q r].
  destruct HD as [Ha Hr].
  assert (P52 : 0 < 2 ^ 52) by (apply Z.pow_pos_nonneg; lia).
  assert (P53 : 0 < 2 ^ 53) by (apply Z.pow_pos_nonneg; lia).
  assert (Hq : 2 ^ 52 <= q).
  { destruct (Z_le_gt_dec (2 ^ 52) q) as [L|G]; [assumption|exfalso].
    assert (Zpos m2 * (q + 1) <= Zpos m2 * 2 ^ 52)
      by (apply Z.mul_le_mono_nonneg_l; lia).
    assert (2 ^ 52 * 2 ^ 53 <= Zpos m1 * 2 ^ 53)
      by (apply Z.mul_le_mono_nonneg_r; lia).
    assert (Zpos m2 * 2 ^ 52 < 2 ^ 53 * 2 ^ 52)
      by (apply Z.mul_lt_mono_pos_r; lia).
    lia. }
  destruct q as [|q|q]; try lia.
  exists q, (new_location (Zpos m2) r).
  split; [reflexivity|]. split; [apply (digits_ge q 52 Hq)|]. split.
  - intros Hm. apply (digits_ge q 53).
    destruct (Z_le_gt_dec (2 ^ 53) (Zpos q)) as [L|G]; [assumption|exfalso].
    assert (Zpos m2 * (Zpos q + 1) <= Zpos m2 * 2 ^ 53)
      by (apply Z.mul_le_mono_nonneg_l; lia).
    assert (Zpos m2 * 2 ^ 53 <= Zpos m1 * 2 ^ 53)
      by (apply Z.mul_le_mono_nonneg_r; lia).
    lia.
  - apply new_location_brk; [lia|assumption|lia].
Qed.

(** The bracket of a quotient in units of [scale (m2 * c) (e1 - e2 - 53)]. *)
Lemma div_value (q m1 m2 c : positive) (loc : location) (e1 e2 : Z) :
  -1021 <= e1 - e2 ->
  brk (Zpos q) loc (Zpos m1 * 2 ^ 53) (Zpos m2) ->
  brk (Zpos q) loc (Zpos c * Zpos m1 * 2 ^ (e1 - e2 + 2200))
      (scale (Zpos m2 * Zpos c) (e1 - e2 - 53)).
Proof.
  intros He H.
  apply (brk_scale _ _ _ _ (Zpos c * 2 ^ (e1 - e2 - 53 + 2200))) in H.
  - unfold scale.
    replace (e1 - e2 + 2200) with ((e1 - e2 - 53 + 2200) + 53) by lia.
    rewrite (Z.pow_add_r 2 (e1 - e2 - 53 + 2200) 53) by lia.
    replace (Zpos c * Zpos m1 * (2 ^ (e1 - e2 - 53 + 2200) * 2 ^ 53))
      with (Zpos c * 2 ^ (e1 - e2 - 53 + 2200) * (Zpos m1 * 2 ^ 53)) by ring.
    replace (Zpos m2 * Zpos c * 2 ^ (e1 - e2 - 53 + 2200))
      with (Zpos c * 2 ^ (e1 - e2 - 53 + 2200) * Zpos m2) by ring.
    exact H.
  - apply Z.mul_pos_pos; [lia|]. apply Z.pow_pos_nonneg; lia.
Qed.


(** A quotient by a float that is not larger is at least one. *)
Lemma div_atLeast (m1 m2 : positive) (e1 e2 : Z) :
  Zpos (digits2_pos m1) = 53 -> Zpos (digits2_pos m2) = 53 ->
  e2 < e1 \/ (e2 = e1 /\ Zpos m2 <= Zpos m1) ->
  atLeast (-52) (fdiv (S754_finite false m1 e1) (S754_finite false m2 e2)).
Proof.
  intros Hd1 Hd2 Hle.
  assert (He : -1021 <= e1 - e2) by lia.
  destruct (div_round m1 m2 e1 e2 Hd1 Hd2 He) as (q & loc & -> & Hq & Hq' & Hb).
  apply (div_value q m1 m2 1 loc e1 e2 He) in Hb.
  pose proof (round_atLeast (Zpos m2 * 1) ltac:(lia) q (e1 - e2 - 53) loc
                (1 * Zpos m1 * 2 ^ (e1 - e2 + 2200))
                Hq ltac:(lia) ltac:(lia) Hb) as H.
  eapply atLeast_weaken; [|exact H].
  destruct Hle as [L|[-> L]]; [lia|]. specialize (Hq' L). lia.
Qed.


(** Integers below [2 ^ 53] convert exactly. *)
Lemma fl_exact (p : positive) :
  Zpos p < 2 ^ 53 ->
  exists mz ez,
    fl (Zpos p) = S754_finite false mz ez /\
    Zpos (digits2_pos mz) = 53 /\ -52 <= ez <= 0 /\
    Zpos mz * 2 ^ (ez + 2200) = Zpos p * 2 ^ 2200.
Proof.
  intros Hp. pose proof (digits_le p 53 Hp ltac:(lia)) as Hd.
  destruct (align_int p) as (mz & ez & Ha & He & Hv & Hdz & _ & Hez & HE).
  assert (Hd53 : Zpos (digits2_pos mz) = 53) by lia.
  exists mz, ez. split; [|repeat split; try assumption; lia].
  unfold Float.nearest. cbn [binary_normalize]. unfold binary_round. rewrite Ha.
  destruct (bra_normal mz ez loc_Exact (Zpos mz * 1) 1 ltac:(lia) ltac:(lia)
              ltac:(lia) eq_refl) as (mt & lt & Hb & Hm & ->).
  rewrite Hd53 in Hb. change (2 ^ (53 - 53) * 1) with 1 in Hb.
  destruct (brk_exact_inv mt lt (Zpos mz) 1 ltac:(lia) Hb) as [-> ->].
  unfold rnd_result. cbn [round_nearest_even].
  destruct (Z.ltb_spec (Zpos mz) (2 ^ 53)) as [L|L]; [|lia].
  destruct (Z.leb_spec (Zpos (digits2_pos mz) + ez - 53) 971) as [L'|L'];
    [|lia].
  cbn [Z.to_pos]. f_equal. lia.
Qed.


Lemma normal_not_zero (lo : Z) (f : spec_float) :
  atLeast lo f -> Float.isZero f = false.
Proof.
  destruct f as [s|[|]| |[|] m e]; cbn [atLeast]; try contradiction;
    reflexivity.
Qed.

Lemma atLeast_nonnegative (lo : Z) (f : spec_float) :
  atLeast lo f -> nonnegative f.
Proof.
  destruct f as [s|[|]| |[|] m e]; cbn [atLeast nonnegative]; tauto.
Qed.

(** The sign only labels the result of rounding. *)
Lemma bra_sign (m e : Z) (l : location) :
  bra true m e l = SFopp (bra false m e l).
Proof.
  unfold binary_round_aux.
  destruct (shr_fexp 53 1024 m e l) as [mrs' e'].
  destruct (shr_fexp 53 1024 _ e' loc_Exact) as [mrs'' e''].
  destruct (shr_m mrs'') as [|p|p]; try reflexivity.
  destruct (e'' <=? 1024 - 53); reflexivity.
Qed.

Lemma fl_opp (p : positive) : fl (Zneg p) = SFopp (fl (Zpos p)).
Proof.
  unfold Float.nearest. cbn [binary_normalize]. unfold binary_round.
  destruct (shl_align p 0 _) as [mz ez]. apply bra_sign.
Qed.






(** The integers that [float] accepts. *)
Lemma representable_fl (z : Z) :
  Float.representable z -> Float.ofInt z = Ok (fl z).
Proof.
  intros [f Hf]. unfold Float.ofInt in *.
  destruct (fl z) as [s|s| |s m e]; try discriminate; reflexivity.
Qed.

Lemma fl_finite (z : Z) :
  0 < z -> Float.representable z -> normalIn (-52) 971 (fl z).
Proof.
  intros Hz [f Hf]. pose proof (fl_atLeast z Hz) as H.
  unfold Float.ofInt in Hf.
  destruct (fl z) as [s|[|]| |[|] m e]; cbn [atLeast normalIn] in *;
    try contradiction; try discriminate. exact H.
Qed.

Lemma representable_le (s d : Z) :
  0 < s -> s <= d -> Float.representable d -> Float.representable s.
Proof.
  intros Hs Hsd Hd.
  pose proof (fl_finite d ltac:(lia) Hd) as Nd.
  pose proof (fl_atLeast s Hs) as Ns.
  pose proof (fl_mono s d Hs Hsd) as Hle.
  unfold Float.representable, Float.ofInt.
  destruct (fl d) as [?|[|]| |[|] m1 e1]; cbn [normalIn] in Nd;
    try contradiction.
  destruct (fl s) as [?|[|]| |[|] m2 e2]; cbn [atLeast] in Ns;
    try contradiction; try discriminate.
  eexists. reflexivity.
Qed.



Lemma fl_nonzero (z : Z) : z <> 0 -> Float.isZero (fl z) = false.
Proof.
  intros Hne. destruct z as [|p|p]; [contradiction| |].
  - apply (normal_not_zero (-52)), fl_atLeast. lia.
  - pose proof (fl_atLeast (Zpos p) ltac:(lia)) as H.
    rewrite fl_opp.
    destruct (fl (Zpos p)) as [s|[|]| |[|] m e];
      cbn [atLeast] in H; try contradiction; reflexivity.
Qed.

(** [d / float(s)] for a divisor between one and [d]. *)
Lemma floatDiv_Ok (d s : Z) :
  0 < s -> s <= d -> Float.representable d ->
  floatDiv d s = Ok (fdiv (fl d) (fl s)) /\
  atLeast (-52) (fdiv (fl d) (fl s)).
Proof.
  intros Hs Hsd Hd.
  pose proof (representable_le s d Hs Hsd Hd) as Hrs.
  unfold floatDiv.
  rewrite (representable_fl s Hrs), (representable_fl d Hd). cbn [Py.bind].
  pose proof (fl_finite s Hs Hrs) as Ns.
  pose proof (fl_finite d ltac:(lia) Hd) as Nd.
  pose proof (fl_mono s d Hs Hsd) as Hle.
  unfold Float.div. rewrite fl_nonzero by lia.
  split; [reflexivity|].
  destruct (fl s) as [?|[|]| |[|] m2 e2]; cbn [normalIn] in Ns;
    try contradiction.
  destruct (fl d) as [?|[|]| |[|] m1 e1]; cbn [normalIn] in Nd;
    try contradiction.
  apply leb_finite in Hle. apply div_atLeast; tauto.
Qed.




(** [b / float(m)] is defined for every divisor but zero. *)
Lemma floatDiv_defined (b m : Z) :
  Float.representable b -> Float.representable m -> m <> 0 ->
  floatDiv b m = Ok (fdiv (fl b) (fl m)).
Proof.
  intros Hb Hm Hne. unfold floatDiv.
  rewrite (representable_fl m Hm), (representable_fl b Hb). cbn [Py.bind].
  unfold Float.div. now rewrite fl_nonzero.
Qed.

Lemma floatDiv_by_zero (b : Z) :
  Float.representable b -> floatDiv b 0 = Raise ZeroDivisionError.
Proof.
  intros Hb. unfold floatDiv. change (Float.ofInt 0) with (Ok (fl 0)).
  cbn [Py.bind]. rewrite (representable_fl b Hb). reflexivity.
Qed.




(** A float divided by itself is one. *)
Lemma div_self (m : positive) (e : Z) :
  Zpos (digits2_pos m) = 53 ->
  fdiv (S754_finite false m e) (S754_finite false m e) = fl 1.
Proof.
  intros Hd.
  destruct (div_round m m e e Hd Hd ltac:(lia)) as (q & loc & -> & Hq & _ & Hb).
  apply (div_value q m m 1 loc e e ltac:(lia)) in Hb.
  destruct (fl_round 1 (Zpos m * 1) ltac:(lia))
    as (mc & ec & -> & Hec & Hdc & HEc & Hbc).
  apply (round_eq (Zpos m * 1) ltac:(lia) q mc (e - e - 53) ec loc loc_Exact
           (1 * Zpos m * 2 ^ (e - e + 2200))
           (1 * (Zpos m * 1) * 2 ^ 2200)
           Hq Hdc ltac:(lia) ltac:(lia) ltac:(lia) ltac:(lia) Hb Hbc).
  replace (e - e + 2200) with 2200 by lia. ring.
Qed.


(** Products of integers below [2 ^ 53] are exact. *)
Lemma mul_exact (a b : positive) :
  Zpos a * Zpos b < 2 ^ 53 ->
  fmul (fl (Zpos a)) (fl (Zpos b)) = fl (Zpos a * Zpos b).
Proof.
  intros Hab.
  assert (Ha : Zpos a < 2 ^ 53) by nia.
  assert (Hb : Zpos b < 2 ^ 53) by nia.
  destruct (fl_exact a Ha) as (m1 & e1 & -> & Hd1 & He1 & Hv1).
  destruct (fl_exact b Hb) as (m2 & e2 & -> & Hd2 & He2 & Hv2).
  destruct (mul_round m1 m2 e1 e2 Hd1 Hd2) as (-> & Hd & Hv).
  change (Zpos a * Zpos b) with (Zpos (a * b)).
  destruct (fl_round (a * b) 1 ltac:(lia))
    as (mc & ec & -> & Hec & Hdc & HEc & Hbc).
  apply (round_eq 1 ltac:(lia) (m1 * m2)%positive mc (e1 + e2) ec
           loc_Exact loc_Exact
           (Zpos m1 * Zpos m2 * 2 ^ (e1 + e2 + 2200))
           (Zpos (a * b) * 1 * 2 ^ 2200)
           ltac:(lia) Hdc ltac:(lia) ltac:(lia) ltac:(lia) ltac:(lia) Hv Hbc).
  apply Z.mul_reg_r with (2 ^ 2200); [lia|].
  replace (Zpos m1 * Zpos m2 * 2 ^ (e1 + e2 + 2200) * 2 ^ 2200)
    with (Zpos m1 * Zpos m2 * (2 ^ (e1 + e2 + 2200) * 2 ^ 2200)) by ring.
  rewrite <- Z.pow_add_r by lia.
  replace (e1 + e2 + 2200 + 2200) with ((e1 + 2200) + (e2 + 2200)) by lia.
  rewrite (Z.pow_add_r 2 (e1 + 2200) (e2 + 2200)) by lia.
  replace (Zpos m1 * Zpos m2 * (2 ^ (e1 + 2200) * 2 ^ (e2 + 2200)))
    with ((Zpos m1 * 2 ^ (e1 + 2200)) * (Zpos m2 * 2 ^ (e2 + 2200))) by ring.
  rewrite Hv1, Hv2, Pos2Z.inj_mul. ring.
Qed.

(** A float divided by one is itself. *)
Lemma div_one (m : positive) (e : Z) :
  Zpos (digits2_pos m) = 53 -> -52 <= e <= 971 ->
  fdiv (S754_finite false m e) (fl 1) = S754_finite false m e.
Proof.
  intros Hd He.
  change (fl 1) with (S754_finite false 4503599627370496 (-52)).
  destruct (div_round m 4503599627370496 e (-52) Hd eq_refl ltac:(lia))
    as (q & loc & -> & Hq & _ & Hb).
  change (Zpos 4503599627370496) with (2 ^ 52) in Hb.
  replace (Zpos m * 2 ^ 53) with ((2 * Zpos m) * 2 ^ 52) in Hb
    by (change (2 ^ 53) with (2 * 2 ^ 52); ring).
  destruct (brk_exact_inv (Zpos q) loc (2 * Zpos m) (2 ^ 52) ltac:(lia) Hb)
    as [Eq ->].
  change (2 * Zpos m) with (Zpos m~0) in Eq. injection Eq as ->.
  assert (Hd0 : Zpos (digits2_pos m~0) = 54).
  { cbn [digits2_pos]. rewrite Pos2Z.inj_succ. lia. }
  destruct (bra_normal m~0 (e - -52 - 53) loc_Exact (Zpos m~0 * 1) 1
              ltac:(lia) ltac:(lia) ltac:(lia) eq_refl)
    as (mt & lt & Hb' & Hm & ->).
  rewrite Hd0 in Hb'. change (2 ^ (54 - 53) * 1) with 2 in Hb'.
  replace (Zpos m~0 * 1) with (Zpos m * 2) in Hb' by lia.
  destruct (brk_exact_inv mt lt (Zpos m) 2 ltac:(lia) Hb') as [-> ->].
  unfold rnd_result. cbn [round_nearest_even].
  apply digits53_bounds in Hd.
  destruct (Z.ltb_spec (Zpos m) (2 ^ 53)) as [L|L]; [|lia].
  rewrite Hd0.
  destruct (Z.leb_spec (54 + (e - -52 - 53) - 53) 971) as [L'|L']; [|lia].
  cbn [Z.to_pos]. f_equal. lia.
Qed.

Lemma Forall2_le_bounds (a b ds : list Z) :
  Forall2 Z.le a b ->
  Forall2 (fun s d => 1 <= s <= d) a ds ->
  Forall2 (fun s s' => 1 <= s <= s') a b.
Proof.
  intros H. revert ds. induction H as [|x y a b Hxy _ IH]; intros ds Hb.
  - constructor.
  - inversion Hb; subst. constructor; [lia|]. eapply IH; eassumption.
Qed.

Lemma indtosub_mono (dims : list Z) (i j : Z) :
  Forall (fun d => 0 < d) dims -> i <= j ->
  Forall2 (fun s s' => 1 <= s <= s') (indtosub dims i) (indtosub dims j).
Proof.
  intros Hpos Hij. rewrite !indtosub_walk.
  apply Forall2_rev.
  apply Forall2_le_bounds with (ds := rev dims).
  - now apply walkRev_mono.
  - apply walkRev_bounds. now apply Forall_rev.
Qed.

Lemma indtosub_length (dims : list Z) (idx : Z) :
  length (indtosub dims idx) = length dims.
Proof. now rewrite indtosub_walk, length_rev, walkRev_length, length_rev. Qed.

Lemma indtosub_ge_one (dims : list Z) (idx : Z) :
  Forall (fun d => 0 < d) dims -> Forall (fun s => 1 <= s) (indtosub dims idx).
Proof.
  intros Hpos.
  pose proof (indtosub_mono dims idx idx Hpos (Z.le_refl idx)) as H.
  remember (indtosub dims idx) as ss eqn:E. clear E.
  induction ss as [|s ss IH]; constructor.
  - inversion H; subst. lia.
  - apply IH. now inversion H.
Qed.

Lemma indtosub_bounds (dims : list Z) (idx : Z) :
  Forall (fun d => 0 < d) dims ->
  Forall2 (fun s d => 1 <= s <= d) (indtosub dims idx) dims.
Proof.
  intros Hpos. rewrite indtosub_walk.
  rewrite <- (rev_involutive dims) at 2.
  apply Forall2_rev. apply walkRev_bounds. now apply Forall_rev.
Qed.

(** ** Values of the search sequence *)

Lemma dims_in_range (dims : list Z) :
  Forall (fun d => 0 < d /\ Float.representable d) dims ->
  Forall (fun d => 0 < d) dims /\ Forall Float.representable dims.
Proof.
  intros H. split; (eapply Forall_impl; [|exact H]); cbn; intros d Hd;
    apply Hd.
Qed.

Lemma sizes_Ok (dims : list Z) :
  Forall Float.representable dims ->
  forall sub, Forall2 (fun s d => 1 <= s <= d) sub dims ->
    mapM (fun p => floatDiv (fst p) (snd p)) (combine dims sub) =
      Ok (sizes dims sub) /\
    Forall (atLeast (-52)) (sizes dims sub).
Proof.
  induction 1 as [|d dims Hd _ IH]; intros sub Hsub.
  - inversion Hsub; subst. split; [reflexivity|constructor].
  - inversion Hsub as [|s d' sub' dims' Hs Hsub']; subst.
    destruct (IH sub' Hsub') as [E F].
    destruct (floatDiv_Ok d s ltac:(lia) ltac:(lia) Hd) as [E1 F1].
    unfold sizes in *. cbn [combine map mapM fst snd].
    rewrite E1. cbn [Py.bind]. rewrite E. cbn [Py.bind].
    split; [reflexivity|]. now constructor.
Qed.

Lemma blockMemoryForSplits_Ok (dims sub : list Z) :
  Forall Float.representable dims ->
  Forall2 (fun s d => 1 <= s <= d) sub dims -> dims <> [] ->
  blockMemoryForSplits dims sub = Ok (productOf (sizes dims sub)).
Proof.
  intros Hd Hsub Hne. unfold blockMemoryForSplits.
  rewrite (proj1 (sizes_Ok dims Hd sub Hsub)). cbn [Py.bind].
  destruct Hsub as [|s d sub dims Hs Hsub]; [contradiction|]. reflexivity.
Qed.







Lemma getitem_value (dims : list Z) (idx : Z) :
  Forall (fun d => 0 < d /\ Float.representable d) dims -> dims <> [] ->
  BlockMemoryAsSequence.getitem dims idx =
  Ok (productOf (sizes dims (indtosub dims idx))).
Proof.
  intros Hr Hne. destruct (dims_in_range dims Hr) as [Hpos Hd].
  unfold BlockMemoryAsSequence.getitem.
  apply blockMemoryForSplits_Ok; [assumption| |assumption].
  now apply indtosub_bounds.
Qed.







(** ** The size-driven factory *)

Section Bisect.

Variable a : Z -> result Float.float.
Variable f : Z -> Float.float.
Variable x : Float.float.
Variable hi0 : Z.

Hypothesis a_items : forall k, 0 <= k < hi0 -> a k = Ok (f k).
Hypothesis f_class : forall k, 0 <= k < hi0 -> atLeast (-52) (f k).
Hypothesis f_ascending :
  forall k k', 0 <= k -> k <= k' -> k' < hi0 -> SFleb (f k) (f k') = true.



End Bisect.

(** The iteration bound of [bisect_left] is never reached. *)
Lemma bisectLoop_fuel (a : Z -> result Float.float) (x : Float.float)
    (fuel : nat) :
  (forall k, a k <> Raise OutOfFuel) ->
  forall lo hi, hi - lo <= Z.of_nat fuel ->
    bisectLoop fuel a x lo hi <> Raise OutOfFuel.
Proof.
  intros Ha. induction fuel as [|fuel IH]; intros lo hi Hfuel; cbn [bisectLoop];
    destruct (Z.ltb_spec lo hi) as [Hlt|Hge]; try discriminate; try lia.
  assert (Hmid : lo <= (lo + hi) / 2 < hi).
  { split; [apply Z.div_le_lower_bound|apply Z.div_lt_upper_bound]; lia. }
  destruct (a ((lo + hi) / 2)) as [v|e] eqn:E; cbn [Py.bind].
  - destruct (Float.ltb v x); apply IH; lia.
  - intros [= ->]. now apply (Ha _ E).
Qed.

Lemma bisect_left_fuel (alen : Z) (a : Z -> result Float.float)
    (x : Float.float) :
  (forall k, a k <> Raise OutOfFuel) ->
  bisect_left alen a x <> Raise OutOfFuel.
Proof.
  intros Ha. unfold bisect_left. apply bisectLoop_fuel; [assumption|]. lia.
Qed.







(** ** Extraction of blocks *)

Lemma product_length {A : Type} (ls : list (list A)) :
  length (product ls) = fold_right Nat.mul 1%nat (map (@length A) ls).
Proof.
  induction ls as [|l ls IH]; [reflexivity|].
  cbn [product map fold_right]. rewrite <- IH. clear IH.
  induction l as [|a l IHl]; [reflexivity|].
  cbn [flat_map]. rewrite length_app, length_map, IHl. reflexivity.
Qed.

Lemma in_product {A : Type} (ls : list (list A)) :
  forall cell, In cell (product ls) <-> Forall2 (fun a l => In a l) cell ls.
Proof.
  induction ls as [|l ls IH]; intros cell; cbn [product].
  - split.
    + intros [<-|[]]. constructor.
    + intros H. inversion H. now left.
  - rewrite in_flat_map. split.
    + intros (a & Ha & Hin). apply in_map_iff in Hin.
      destruct Hin as (c & <- & Hc). constructor; [assumption|]. now apply IH.
    + intros H. inversion H as [|a l0 c ls0 Ha Hc]; subst.
      exists a. split; [assumption|]. apply in_map_iff.
      exists c. split; [reflexivity|]. now apply IH.
Qed.

Lemma mapM_Forall2 {A B : Type} (f : A -> result B) (P : A -> B -> Prop)
    (l : list A) :
  (forall x, In x l -> exists y, f x = Ok y /\ P x y) ->
  exists ys, mapM f l = Ok ys /\ Forall2 P l ys.
Proof.
  induction l as [|x l IH]; intros H.
  - exists []. split; [reflexivity|constructor].
  - destruct (H x (or_introl eq_refl)) as (y & Hy & HP).
    destruct IH as (ys & Hys & HF). { intros x' Hx'. apply H. now right. }
    exists (y :: ys). cbn [mapM]. rewrite Hy. cbn [Py.bind]. rewrite Hys.
    split; [reflexivity|now constructor].
Qed.

Lemma mapM_map {A B : Type} (f : A -> result B) (g : A -> B) (l : list A) :
  (forall x, In x l -> f x = Ok (g x)) -> mapM f l = Ok (map g l).
Proof.
  induction l as [|x l IH]; intros H; [reflexivity|].
  cbn [mapM map]. rewrite (H x (or_introl eq_refl)). cbn [Py.bind].
  rewrite IH; [reflexivity|]. intros x' Hx'. apply H. now right.
Qed.

Lemma Forall2_length_eq {A B : Type} (P : A -> B -> Prop) (l : list A)
    (l' : list B) :
  Forall2 P l l' -> length l = length l'.
Proof. induction 1; cbn; congruence. Qed.

Lemma dimSlicesLoop_steps (n : nat) :
  forall b d st r acc,
    Forall (fun sl => step sl = Some 1) acc ->
    Forall (fun sl => step sl = Some 1) (dimSlicesLoop n b d st r acc).
Proof.
  induction n as [|n IH]; intros b d st r acc Hacc; cbn [dimSlicesLoop].
  - assumption.
  - destruct (r =? 0); apply IH; apply Forall_app; split; try assumption;
      now repeat constructor.
Qed.

Lemma generateSlices_steps (splits ds : list Z) :
  Forall (Forall (fun sl => step sl = Some 1)) (generateSlices splits ds).
Proof.
  unfold generateSlices. apply Forall_map. apply Forall_forall.
  intros p _. unfold dimSlices. apply dimSlicesLoop_steps. constructor.
Qed.

Lemma generateSlices_length (splits ds : list Z) :
  length splits = length ds ->
  length (generateSlices splits ds) = length ds.
Proof.
  intros H. unfold generateSlices. rewrite length_map, length_combine. lia.
Qed.

Lemma slice_indices_step (sl : slice) (d : Z) :
  step sl = Some 1 -> exists t, slice_indices sl d = Ok t.
Proof.
  intros H. unfold slice_indices. rewrite H. cbn. eexists. reflexivity.
Qed.

Lemma axes_steps (sls : list slice) :
  forall shp,
    Forall (fun sl => step sl = Some 1) sls ->
    (length sls <= length shp)%nat ->
    exists ax, axes sls shp = Ok ax.
Proof.
  induction sls as [|sl sls IH]; intros shp Hst Hlen.
  - clear Hst Hlen. induction shp as [|d shp IHs]; cbn [axes].
    + eexists. reflexivity.
    + destruct IHs as (ax & ->). eexists. reflexivity.
  - destruct shp as [|d shp]; [cbn in Hlen; lia|].
    inversion Hst as [|? ? Hs Hst']; subst. cbn [axes].
    destruct (slice_indices_step sl d Hs) as (t & ->). cbn [Py.bind].
    destruct (IH shp Hst') as (ax & ->); [cbn in Hlen; lia|].
    eexists. reflexivity.
Qed.

Lemma bound_state (images : Images) (s0 s : SimpleBlockingStrategy) :
  setImages images s0 = (Ok tt, s) ->
  length (_splitsPerDim s0) = length (images_dims images) /\
  s = mkSimple (mkBlockingStrategy (Some (images_dims images))
                                   (Some (images_nimages images))
                                   (Some (images_dtype images)))
               (_splitsPerDim s0)
               (Some (generateSlices (_splitsPerDim s0) (images_dims images))).
Proof.
  intros H.
  destruct (Nat.eq_dec (length (_splitsPerDim s0)) (length (images_dims images)))
    as [E|E].
  - rewrite setImages_same_length in H by assumption. split; [assumption|].
    now injection H.
  - rewrite setImages_other_length in H by assumption. discriminate.
Qed.

(** C6: on a bound strategy one call of [blockingFunction] on an image of the
    bound dimensionality returns one pair per element of the product of the
    per-axis slice lists, in the order of the product, so as many pairs as
    the product of the per-axis slice counts; the block of a cell is the
    image sliced by the cell's slices with a new leading axis of size 1, the
    key's original shape is the image count followed by the image's shape,
    and its original slices are the singleton slice at the time index
    followed by the cell's slices. *)
Theorem blockingFunction_one_pair_per_cell
    (images : Images) (s0 s : SimpleBlockingStrategy)
    (tpidx : Z) (imgary : ndarray) :
  setImages images s0 = (Ok tt, s) ->
  length (shape imgary) = length (images_dims images) ->
  exists slices blocks,
    _slices s = Some slices /\
    blockingFunction s (tpidx, imgary) = Ok blocks /\
    length blocks = fold_right Nat.mul 1%nat (map (@length slice) slices) /\
    (forall cell, In cell (product slices) <->
                  Forall2 (fun sl axis => In sl axis) cell slices) /\
    Forall2
      (fun cell kb =>
         origshape (fst kb) = images_nimages images :: shape imgary /\
         origslices (fst kb) = slice3 tpidx (tpidx + 1) 1 :: cell /\
         exists sub,
           Np.getitem imgary cell = Ok sub /\
           snd kb = expand_dims sub 0 /\
           shape (snd kb) = 1 :: shape sub)
      (product slices) blocks.
Proof.
  intros Hbind Hnd. apply bound_state in Hbind. destruct Hbind as (Hlen & ->).
  set (slices := generateSlices (_splitsPerDim s0) (images_dims images)).
  assert (Hcells : forall cell, In cell (product slices) ->
            exists kb,
              extractBlockFromImage imgary cell tpidx (images_nimages images) =
              Ok kb /\
              (origshape (fst kb) = images_nimages images :: shape imgary /\
               origslices (fst kb) = slice3 tpidx (tpidx + 1) 1 :: cell /\
               exists sub,
                 Np.getitem imgary cell = Ok sub /\
                 snd kb = expand_dims sub 0 /\
                 shape (snd kb) = 1 :: shape sub)).
  { intros cell Hin. apply in_product in Hin.
    assert (Hst : Forall (fun sl => step sl = Some 1) cell).
    { pose proof (generateSlices_steps (_splitsPerDim s0) (images_dims images))
        as Hall. fold slices in Hall.
      clear - Hin Hall. induction Hin as [|sl axis cell ls Hsl _ IH].
      - constructor.
      - inversion Hall; subst. constructor.
        + rewrite Forall_forall in H1. now apply H1.
        + now apply IH. }
    assert (Hcl : (length cell <= length (shape imgary))%nat).
    { rewrite (Forall2_length_eq _ _ _ Hin). unfold slices.
      rewrite generateSlices_length by assumption. lia. }
    destruct (axes_steps cell (shape imgary) Hst Hcl) as (ax & Hax).
    unfold extractBlockFromImage, Np.getitem. rewrite Hax. cbn [Py.bind].
    eexists. split; [reflexivity|]. cbn [fst snd origshape origslices].
    repeat split. eexists. split; [reflexivity|]. split; reflexivity. }
  destruct (mapM_Forall2 _ _ (product slices) Hcells) as (blocks & Hb & HF).
  exists slices, blocks. split; [reflexivity|]. split; [exact Hb|].
  split; [|split].
  - rewrite <- (Forall2_length_eq _ _ _ HF). apply product_length.
  - apply in_product.
  - exact HF.
Qed.

Lemma blockingFunction_one_pair_per_cell_witness :
  let images := mkImages [12; 12] 3 "int16"%string in
  let s0 := mkSimple BlockingStrategy_init [2; 2] None in
  let s := snd (setImages images s0) in
  let imgary := mkArray [12; 12] "int16"%string (fun idx => nth 0 idx 0) in
  exists slices blocks,
    _slices s = Some slices /\
    blockingFunction s (1, imgary) = Ok blocks /\
    length blocks = fold_right Nat.mul 1%nat (map (@length slice) slices) /\
    (forall cell, In cell (product slices) <->
                  Forall2 (fun sl axis => In sl axis) cell slices) /\
    Forall2
      (fun cell kb =>
         origshape (fst kb) = images_nimages images :: shape imgary /\
         origslices (fst kb) = slice3 1 (1 + 1) 1 :: cell /\
         exists sub,
           Np.getitem imgary cell = Ok sub /\
           snd kb = expand_dims sub 0 /\
           shape (snd kb) = 1 :: shape sub)
      (product slices) blocks.
Proof.
  cbn zeta.
  apply (blockingFunction_one_pair_per_cell
           (mkImages [12; 12] 3 "int16"%string)
           (mkSimple BlockingStrategy_init [2; 2] None)); reflexivity.
Defined.

(** ** Round trip of extraction and combination *)

Lemma clamp_bound_within (d v x y : Z) :
  0 <= v <= d -> clamp_bound d 1 (Some v) x y = v.
Proof.
  intros Hv. unfold clamp_bound. change (1 <? 0) with false. cbv iota zeta.
  destruct (Z.ltb_spec v 0) as [|_]; [lia|].
  destruct (Z.ltb_spec v 0) as [|_]; [lia|].
  destruct (Z.leb_spec d v); lia.
Qed.

Lemma slice_indices_good (d : Z) (sl : slice) :
  goodSlice d sl -> slice_indices sl d = Ok (axOf sl).
Proof.
  intros (a & b & -> & Hab & Hb). unfold slice_indices, axOf.
  cbn [slice3 start stop step]. change (1 =? 0) with false.
  change (1 <? 0) with false. cbv iota.
  rewrite !clamp_bound_within by lia.
  destruct (Z.ltb_spec a b).
  - rewrite Z.div_1_r. f_equal. f_equal. lia.
  - f_equal. f_equal. lia.
Qed.

Lemma slice_indices_full (d : Z) :
  0 <= d -> slice_indices full_slice d = Ok (0, 1, d).
Proof.
  intros Hd. unfold slice_indices, full_slice, clamp_bound.
  cbn [start stop step]. change (1 =? 0) with false.
  change (1 <? 0) with false. cbv iota.
  destruct (Z.ltb_spec 0 d).
  - rewrite Z.div_1_r. f_equal. f_equal. lia.
  - f_equal. f_equal. lia.
Qed.

Lemma slice_indices_single (n t : Z) :
  0 <= t < n -> slice_indices (slice3 t (t + 1) 1) n = Ok (t, 1, 1).
Proof.
  intros Ht.
  assert (G : goodSlice n (slice3 t (t + 1) 1)).
  { exists t, (t + 1). repeat split; lia. }
  rewrite (slice_indices_good _ _ G). unfold axOf. cbn. f_equal. f_equal. lia.
Qed.

Lemma axes_good (ds : list Z) (cell : list slice) :
  Forall2 goodSlice ds cell -> axes cell ds = Ok (map axOf cell).
Proof.
  induction 1 as [|d sl ds cell Hg _ IH]; [reflexivity|].
  cbn [axes map]. rewrite (slice_indices_good _ _ Hg). cbn [Py.bind].
  now rewrite IH.
Qed.

Lemma axes_whole (cs : list Z) :
  Forall (fun d => 0 <= d) cs ->
  axes (repeat full_slice (length cs)) cs = Ok (map (fun d => (0, 1, d)) cs).
Proof.
  induction 1 as [|d cs Hd _ IH]; [reflexivity|].
  cbn [length repeat axes map]. rewrite (slice_indices_full _ Hd).
  cbn [Py.bind]. now rewrite IH.
Qed.

Lemma cutAt_nonneg (b r k : Z) : 0 <= b -> 0 <= r -> 0 <= k -> 0 <= cutAt b r k.
Proof. unfold cutAt. intros. nia. Qed.

Lemma dimSlices_good (nsplits dimsize : Z) :
  0 < nsplits -> 0 <= dimsize ->
  Forall (goodSlice dimsize) (dimSlices nsplits dimsize).
Proof.
  intros Hn Hd. rewrite dimSlices_cut by assumption.
  apply Forall_map. apply Forall_forall. intros k Hk.
  apply in_seq in Hk. unfold cutSlice.
  pose proof (Z.mod_pos_bound dimsize nsplits Hn) as Hr.
  assert (Hb : 0 <= dimsize / nsplits) by (apply Z.div_pos; lia).
  rewrite Z.min_l by (apply cutAt_le_dim; lia).
  eexists. eexists. split; [reflexivity|]. repeat split.
  - apply cutAt_nonneg; lia.
  - apply cutAt_mono; lia.
  - apply cutAt_le_dim; lia.
Qed.

Lemma generateSlices_good (splits ds : list Z) :
  Forall (fun k => 0 < k) splits ->
  Forall (fun d => 0 <= d) ds ->
  length splits = length ds ->
  Forall2 (fun d axis => Forall (goodSlice d) axis) ds
          (generateSlices splits ds).
Proof.
  intros Hs. revert ds. unfold generateSlices.
  induction Hs as [|k splits Hk _ IH]; intros [|d ds] Hd Hlen;
    try discriminate; cbn [combine map]; constructor.
  - cbn [fst snd]. apply dimSlices_good; [assumption|]. now inversion Hd.
  - apply IH; [now inversion Hd|now injection Hlen].
Qed.

Lemma cell_good (ds : list Z) (slices : list (list slice)) :
  Forall2 (fun d axis => Forall (goodSlice d) axis) ds slices ->
  forall cell, In cell (product slices) -> Forall2 goodSlice ds cell.
Proof.
  intros H cell Hin. apply in_product in Hin. revert cell Hin.
  induction H as [|d axis ds slices Hax _ IH]; intros cell Hin.
  - inversion Hin. constructor.
  - inversion Hin as [|sl ? c ? Hsl Hc]; subst. constructor.
    + rewrite Forall_forall in Hax. now apply Hax.
    + now apply IH.
Qed.

Lemma good_lengths (ds : list Z) (cell : list slice) :
  Forall2 goodSlice ds cell ->
  Forall (fun d => 0 <= d) (map axLen (map axOf cell)).
Proof.
  induction 1 as [|d sl ds cell Hg _ IH]; cbn [map]; constructor.
  - destruct Hg as (a & b & -> & Hab & _). cbn. lia.
  - exact IH.
Qed.

Lemma bcastOk_same (l : list Z) : bcastOk l l = true.
Proof.
  induction l as [|b l IH]; [reflexivity|].
  cbn [bcastOk]. now rewrite Z.eqb_refl, IH.
Qed.

Lemma bcastIndex_same (l rel : list Z) :
  inRange l rel -> bcastIndex l rel = rel.
Proof.
  induction 1 as [|b j l rel Hj _ IH]; [reflexivity|].
  cbn [bcastIndex]. rewrite IH.
  destruct (Z.eqb_spec b 1) as [->|_]; [|reflexivity]. f_equal. lia.
Qed.

Lemma locate_whole (cs idx : list Z) :
  inRange cs idx -> locate (map (fun d => (0, 1, d)) cs) idx = Some idx.
Proof.
  induction 1 as [|d i cs idx Hi _ IH]; [reflexivity|].
  cbn [map locate]. rewrite Z.sub_0_r, Z.mod_1_r, Z.div_1_r, IH.
  destruct (Z.leb_spec 0 i); [|lia]. destruct (Z.ltb_spec i d); [|lia].
  reflexivity.
Qed.

Lemma map_axLen_whole (cs : list Z) :
  map axLen (map (fun d => (0, 1, d)) cs) = cs.
Proof. rewrite map_map. cbn. apply map_id. Qed.

Lemma combineStep_eq (ary0 : option ndarray) (fk0 : option BlockGroupingKey)
    (kb : BlockGroupingKey * ndarray) :
  combineStep (ary0, fk0) kb =
  (st1 <- match ary0 with
          | None =>
              n <- item0 (origshape (fst kb)) ;;
              a <- zeros (n :: tl (shape (snd kb))) (dtype (snd kb)) ;;
              Ok (a, Some (fst kb))
          | Some a => Ok (a, fk0)
          end ;;
   t <- item0 (origslices (fst kb)) ;;
   ary2 <- setitem (fst st1)
             (t :: repeat full_slice (Z.to_nat (ndim (snd kb) - 1))) (snd kb) ;;
   Ok (Some ary2, snd st1)).
Proof.
  destruct kb as [key blk]. unfold combineStep. cbn [fst snd].
  destruct ary0 as [a|]; [reflexivity|].
  destruct (item0 (origshape key)) as [m|e]; [|reflexivity]. cbn [Py.bind].
  destruct (zeros (m :: tl (shape blk)) (dtype blk)); reflexivity.
Qed.

Lemma fst_blockAt (src : ndarray) (n : Z) (cell : list slice) (t : Z) :
  fst (blockAt src n cell t) =
  mkKey (n :: tl (shape src)) (slice3 t (t + 1) 1 :: cell).
Proof. reflexivity. Qed.

Section RoundTrip.

Variable src : ndarray.
Variable n : Z.
Variable ds : list Z.
Variable cell : list slice.

Hypothesis cell_within : Forall2 goodSlice ds cell.

Local Abbreviation ax := (map axOf cell).
Local Abbreviation cs := (map axLen (map axOf cell)).
Local Abbreviation block t := (snd (blockAt src n cell t)).
Local Abbreviation collected := (collected src n cell).

Lemma block_shape (t : Z) : shape (block t) = 1 :: cs.
Proof. reflexivity. Qed.

Lemma block_targslices (t : Z) :
  repeat full_slice (Z.to_nat (ndim (block t) - 1)) =
  repeat full_slice (length cs).
Proof.
  f_equal. unfold ndim. rewrite block_shape. cbn [length]. lia.
Qed.

Lemma setitem_block_eq (ary : ndarray) (t : Z) :
  shape ary = n :: cs -> 0 <= t < n ->
  setitem ary
    (slice3 t (t + 1) 1 :: repeat full_slice (Z.to_nat (ndim (block t) - 1)))
    (block t) =
  Ok (mkArray (shape ary) (dtype ary)
        (fun idx =>
           match locate ((t, 1, 1) :: map (fun d => (0, 1, d)) cs) idx with
           | Some rel => at_ (block t) (rev (bcastIndex (rev (1 :: cs)) (rev rel)))
           | None => at_ ary idx
           end)).
Proof.
  intros Hs Ht.
  pose proof (good_lengths ds cell cell_within) as Hcs.
  unfold setitem. rewrite block_targslices. rewrite Hs at 1. cbn [axes].
  rewrite slice_indices_single by assumption. cbn [Py.bind].
  rewrite axes_whole by assumption. cbn [Py.bind map].
  rewrite map_axLen_whole, block_shape.
  change (axLen (t, 1, 1)) with 1. rewrite bcastOk_same. reflexivity.
Qed.

Lemma setitem_block (ary : ndarray) (t : Z) :
  shape ary = n :: cs -> 0 <= t < n ->
  exists ary',
    setitem ary
      (slice3 t (t + 1) 1 :: repeat full_slice (Z.to_nat (ndim (block t) - 1)))
      (block t) = Ok ary' /\
    shape ary' = shape ary /\ dtype ary' = dtype ary /\
    forall t' idx, inRange cs idx ->
      at_ ary' (t' :: idx) =
      if t' =? t then at_ src (t :: reindex ax idx) else at_ ary (t' :: idx).
Proof.
  intros Hs Ht.
  eexists. split; [now apply setitem_block_eq|]. cbn [shape dtype at_].
  split; [reflexivity|]. split; [reflexivity|].
  intros t' idx Hidx. cbn [locate].
  rewrite Z.mod_1_r, Z.div_1_r, locate_whole by assumption.
  cbn [option_map andb Z.eqb].
  destruct (Z.eqb_spec t' t) as [->|Hne].
  - rewrite Z.sub_diag. cbn [Z.leb Z.ltb Z.compare andb].
    assert (Hr : inRange (rev (1 :: cs)) (rev (0 :: idx))).
    { apply Forall2_rev. constructor; [lia|assumption]. }
    rewrite (bcastIndex_same _ _ Hr), rev_involutive. reflexivity.
  - destruct (Z.leb_spec 0 (t' - t)); destruct (Z.ltb_spec (t' - t) 1);
      cbn [andb]; try reflexivity. lia.
Qed.

Lemma zeros_collection (t : Z) :
  0 <= n ->
  zeros (n :: tl (shape (block t))) (dtype (block t)) =
  Ok (mkArray (n :: cs) (dtype src) (fun _ => 0)).
Proof.
  intros Hn. pose proof (good_lengths ds cell cell_within) as Hcs.
  unfold zeros. rewrite block_shape. cbn [tl].
  destruct (existsb (fun d => d <? 0) (n :: cs)) eqn:E; [|reflexivity].
  apply existsb_exists in E. destruct E as (d & Hin & Hd).
  apply Z.ltb_lt in Hd. destruct Hin as [<-|Hin]; [lia|].
  rewrite Forall_forall in Hcs. apply Hcs in Hin. lia.
Qed.

Lemma combineStep_first (t : Z) :
  0 <= t < n ->
  exists ary,
    combineStep (None, None) (blockAt src n cell t) =
    Ok (Some ary, Some (fst (blockAt src n cell t))) /\
    collected (fun t' => t' = t) ary.
Proof.
  intros Ht.
  destruct (setitem_block (mkArray (n :: cs) (dtype src) (fun _ => 0)) t
              eq_refl Ht) as (ary' & Hset & Hsh & Hdt & Hat).
  exists ary'. split.
  - rewrite combineStep_eq. rewrite fst_blockAt at 1.
    cbn [origshape item0 Py.bind]. rewrite zeros_collection by lia.
    cbn [Py.bind]. rewrite fst_blockAt at 1.
    cbn [origslices item0 Py.bind fst snd]. rewrite Hset. reflexivity.
  - split; [exact Hsh|]. split; [exact Hdt|].
    intros t' idx -> Hidx. rewrite Hat by assumption. now rewrite Z.eqb_refl.
Qed.

Lemma combineStep_next (P : Z -> Prop) (ary : ndarray)
    (fk : BlockGroupingKey) (t : Z) :
  collected P ary -> 0 <= t < n ->
  exists ary',
    combineStep (Some ary, Some fk) (blockAt src n cell t) = Ok (Some ary', Some fk) /\
    collected (fun t' => P t' \/ t' = t) ary'.
Proof.
  intros (Hsh & Hdt & Hval) Ht.
  destruct (setitem_block ary t Hsh Ht) as (ary' & Hset & Hsh' & Hdt' & Hat).
  exists ary'. split.
  - rewrite combineStep_eq. cbn [Py.bind]. rewrite fst_blockAt at 1.
    cbn [origslices item0 Py.bind fst snd]. rewrite Hset. reflexivity.
  - split; [congruence|]. split; [congruence|].
    intros t' idx HP Hidx. rewrite Hat by assumption.
    destruct (Z.eqb_spec t' t) as [->|Hne]; [reflexivity|].
    apply Hval; [|assumption]. destruct HP as [HP|HP]; [assumption|contradiction].
Qed.

Lemma combineLoop_collects (ts : list Z) :
  forall (P : Z -> Prop) (ary : ndarray) (fk : BlockGroupingKey),
    collected P ary ->
    (forall t, In t ts -> 0 <= t < n) ->
    exists ary',
      combineLoop (Some ary, Some fk) (map (blockAt src n cell) ts) =
      Ok (Some ary', Some fk) /\
      collected (fun t => P t \/ In t ts) ary'.
Proof.
  induction ts as [|t ts IH]; intros P ary fk Hc Hts.
  - exists ary. split; [reflexivity|].
    destruct Hc as (Hsh & Hdt & Hval). repeat split; try assumption.
    intros t idx [HP|[]] Hidx. now apply Hval.
  - cbn [map combineLoop].
    destruct (combineStep_next P ary fk t Hc (Hts t (or_introl eq_refl)))
      as (ary1 & Hstep & Hc1).
    rewrite Hstep. cbn [Py.bind].
    destruct (IH _ ary1 fk Hc1) as (ary' & Hloop & Hc').
    { intros t' Ht'. apply Hts. now right. }
    exists ary'. split; [exact Hloop|].
    destruct Hc' as (Hsh & Hdt & Hval). repeat split; try assumption.
    intros t' idx HP Hidx. apply Hval; [|assumption].
    cbn [In] in HP. destruct HP as [HP|[HP|HP]]; auto.
Qed.

End RoundTrip.

Lemma getitemInt_frame (src : ndarray) (n : Z) (ds : list Z) (t : Z) :
  shape src = n :: ds -> 0 <= t < n ->
  getitemInt src t =
  Ok (mkArray ds (dtype src) (fun idx => at_ src (t :: idx))).
Proof.
  intros Hs Ht. unfold getitemInt. rewrite Hs.
  destruct (Z.ltb_spec t 0); [lia|].
  destruct (Z.leb_spec 0 t); [|lia]. destruct (Z.ltb_spec t n); [|lia].
  reflexivity.
Qed.

Lemma extractBlock_blockAt (src : ndarray) (n : Z) (ds : list Z)
    (cell : list slice) (t : Z) :
  shape src = n :: ds -> Forall2 goodSlice ds cell ->
  extractBlockFromImage
    (mkArray ds (dtype src) (fun idx => at_ src (t :: idx))) cell t n =
  Ok (blockAt src n cell t).
Proof.
  intros Hs Hg. unfold extractBlockFromImage, Np.getitem, blockAt.
  cbn [shape dtype at_]. rewrite (axes_good _ _ Hg). cbn [Py.bind].
  now rewrite Hs.
Qed.

Lemma blockOfCell_blockAt (images : Images) (s0 s : SimpleBlockingStrategy)
    (src : ndarray) (k : nat) (cell : list slice) (t : Z) :
  Forall (fun m => 0 < m) (_splitsPerDim s0) ->
  setImages images s0 = (Ok tt, s) ->
  shape src = images_nimages images :: images_dims images ->
  Forall (fun d => 0 <= d) (images_dims images) ->
  nth_error (product (generateSlices (_splitsPerDim s0) (images_dims images))) k =
  Some cell ->
  0 <= t < images_nimages images ->
  blockOfCell s src k t = Ok (blockAt src (images_nimages images) cell t).
Proof.
  intros Hpos Hbind Hs Hds Hcell Ht.
  apply bound_state in Hbind. destruct Hbind as (Hlen & ->).
  unfold blockOfCell. rewrite (getitemInt_frame _ _ _ _ Hs Ht). cbn [Py.bind].
  unfold blockingFunction, nimages. cbn [_slices super _nimages].
  pose proof (generateSlices_good _ _ Hpos Hds Hlen) as Hgood.
  rewrite (mapM_map _ (fun c => blockAt src (images_nimages images) c t)).
  - cbn [Py.bind]. now rewrite (map_nth_error _ _ _ Hcell).
  - intros c Hc. apply extractBlock_blockAt; [assumption|].
    now apply (cell_good _ _ Hgood).
Qed.

(** C2: for a strategy with positive split counts (as every constructed one
    has) that has been bound, a source array of shape
    [nimages :: dims], a cell of the slice grid and the time points in any
    order: the blocks of that cell extracted from each time point's image
    are combined by [combiningFunction] into an array that equals, element
    for element, the source array sliced by the returned key's original
    slices, which are the full slice for time followed by the cell's
    slices; the key's original shape is the shape of the source. *)
Theorem extract_combine_round_trip {T : Type} (tok : T)
    (splits : list Z) (images : Images) (s0 s : SimpleBlockingStrategy)
    (src : ndarray) (slices : list (list slice)) (k : nat)
    (cell : list slice) (ts : list Z) :
  _splitsPerDim s0 = splits ->
  Forall (fun m => 0 < m) splits ->
  setImages images s0 = (Ok tt, s) ->
  shape src = images_nimages images :: images_dims images ->
  0 < images_nimages images ->
  Forall (fun d => 0 <= d) (images_dims images) ->
  _slices s = Some slices ->
  nth_error (product slices) k = Some cell ->
  (forall t, In t ts <-> 0 <= t < images_nimages images) ->
  exists pairs key ary region,
    blocksOfCell s src k ts = Ok pairs /\
    combiningFunction s (tok, pairs) = Ok (key, Some ary) /\
    origshape key = shape src /\
    origslices key = full_slice :: cell /\
    Np.getitem src (origslices key) = Ok region /\
    arrayEq ary region.
Proof.
  intros Hsplits Hpos Hbind Hs Hn Hds Hsl Hcell Hts.
  set (n := images_nimages images) in *. set (ds := images_dims images) in *.
  destruct (bound_state _ _ _ Hbind) as (Hlen & Hs').
  rewrite Hsplits in Hlen, Hs'.
  assert (Hslices : slices = generateSlices splits ds).
  { rewrite Hs' in Hsl. cbn in Hsl. now injection Hsl. }
  subst slices.
  assert (Hgood : Forall2 goodSlice ds cell).
  { apply (cell_good _ _ (generateSlices_good _ _ Hpos Hds Hlen)).
    eapply nth_error_In. exact Hcell. }
  assert (Hblocks : blocksOfCell s src k ts = Ok (map (blockAt src n cell) ts)).
  { unfold blocksOfCell. apply mapM_map. intros t Ht.
    apply (blockOfCell_blockAt images s0); rewrite ?Hsplits; try assumption.
    now apply Hts. }
  destruct ts as [|t0 ts].
  { exfalso. apply (proj2 (Hts 0)). lia. }
  assert (Ht0 : 0 <= t0 < n) by (apply Hts; now left).
  destruct (combineStep_first src n ds cell Hgood t0 Ht0)
    as (ary1 & Hstep & Hc1).
  destruct (combineLoop_collects src n ds cell Hgood ts _ ary1
              (fst (blockAt src n cell t0)) Hc1)
    as (ary & Hloop & Hc).
  { intros t Ht. apply Hts. now right. }
  exists (map (blockAt src n cell) (t0 :: ts)).
  exists (mkKey (n :: tl (shape src)) (full_slice :: cell)), ary.
  exists (mkArray (n :: map axLen (map axOf cell)) (dtype src)
            (fun idx => at_ src (reindex ((0, 1, n) :: map axOf cell) idx))).
  split; [exact Hblocks|]. split; [|split; [|split; [|split]]].
  - unfold combiningFunction. cbn [map combineLoop].
    rewrite Hstep. cbn [Py.bind]. rewrite Hloop. cbn [Py.bind].
    rewrite fst_blockAt. reflexivity.
  - cbn [origshape]. now rewrite Hs.
  - reflexivity.
  - cbn [origslices]. unfold Np.getitem. rewrite Hs. cbn [axes].
    rewrite slice_indices_full by lia. cbn [Py.bind].
    rewrite (axes_good _ _ Hgood). reflexivity.
  - destruct Hc as (Hsh & Hdt & Hval). split; [exact Hsh|].
    split; [exact Hdt|]. rewrite Hsh. cbn [at_].
    intros idx Hidx. inversion Hidx as [|d t cs idx' Ht Hidx']; subst.
    cbn [reindex]. replace (0 + t * 1) with t by lia.
    apply Hval; [|assumption].
    destruct (proj2 (Hts t) Ht) as [<-|Hin]; [now left|now right].
Qed.

Lemma extract_combine_round_trip_witness :
  let images := mkImages [2; 3] 2 "int16"%string in
  let s0 := mkSimple BlockingStrategy_init [1; 2] None in
  let s := snd (setImages images s0) in
  let src := mkArray [2; 2; 3] "int16"%string
               (fun idx => 100 * nth 0 idx 0 + 10 * nth 1 idx 0 + nth 2 idx 0) in
  let cell := [slice3 0 2 1; slice3 2 3 1] in
  exists pairs key ary region,
    blocksOfCell s src 1 [1; 0] = Ok pairs /\
    combiningFunction s (tt, pairs) = Ok (key, Some ary) /\
    origshape key = shape src /\
    origslices key = full_slice :: cell /\
    Np.getitem src (origslices key) = Ok region /\
    arrayEq ary region.
Proof.
  cbn zeta.
  apply (extract_combine_round_trip tt [1; 2] (mkImages [2; 3] 2 "int16"%string)
           (mkSimple BlockingStrategy_init [1; 2] None) _ _
           (generateSlices [1; 2] [2; 3])).
  - reflexivity.
  - repeat constructor.
  - reflexivity.
  - reflexivity.
  - reflexivity.
  - repeat constructor; discriminate.
  - reflexivity.
  - reflexivity.
  - intros t. cbn [In images_nimages]. lia.
Defined.

(** ** Calls before binding *)

(** C8, as the claim states it, fails: on a strategy that was never bound,
    [combiningFunction] returns a combined block. *)
Lemma combiningFunction_unbound_counterexample :
  ~ (forall splits s (input : Z * list (BlockGroupingKey * ndarray)),
       SimpleBlockingStrategy_init splits = Ok s ->
       exists e, combiningFunction s input = Raise e).
Proof.
  intros H.
  destruct (H [2] (mkSimple BlockingStrategy_init [2] None)
              (0, [(mkKey [1; 4] [slice3 0 1 1; slice3 0 2 1],
                    mkArray [1; 2] "int16"%string (fun _ => 7))]))
    as (e & He).
  - reflexivity.
  - vm_compute in He. discriminate.
Qed.

(** Whatever the strategy it is called on, [combiningFunction] puts the
    blocks of one cell, one per time point, back together. *)
Lemma combine_cell_blocks {T : Type} (tok : T) (sa : SimpleBlockingStrategy)
    (src : ndarray) (n : Z) (ds : list Z) (cell : list slice) (ts : list Z) :
  shape src = n :: ds -> 0 < n -> Forall2 goodSlice ds cell ->
  (forall t, In t ts <-> 0 <= t < n) ->
  exists key ary region,
    combiningFunction sa (tok, map (blockAt src n cell) ts) =
      Ok (key, Some ary) /\
    origshape key = shape src /\
    origslices key = full_slice :: cell /\
    Np.getitem src (origslices key) = Ok region /\
    arrayEq ary region.
Proof.
  intros Hs Hn Hgood Hts.
  destruct ts as [|t0 ts].
  { exfalso. apply (proj2 (Hts 0)). lia. }
  assert (Ht0 : 0 <= t0 < n) by (apply Hts; now left).
  destruct (combineStep_first src n ds cell Hgood t0 Ht0)
    as (ary1 & Hstep & Hc1).
  destruct (combineLoop_collects src n ds cell Hgood ts _ ary1
              (fst (blockAt src n cell t0)) Hc1)
    as (ary & Hloop & Hc).
  { intros t Ht. apply Hts. now right. }
  exists (mkKey (n :: tl (shape src)) (full_slice :: cell)), ary.
  exists (mkArray (n :: map axLen (map axOf cell)) (dtype src)
            (fun idx => at_ src (reindex ((0, 1, n) :: map axOf cell) idx))).
  split; [|split; [|split; [|split]]].
  - unfold combiningFunction. cbn [map combineLoop].
    rewrite Hstep. cbn [Py.bind]. rewrite Hloop. cbn [Py.bind].
    rewrite fst_blockAt. reflexivity.
  - cbn [origshape]. now rewrite Hs.
  - reflexivity.
  - cbn [origslices]. unfold Np.getitem. rewrite Hs. cbn [axes].
    rewrite slice_indices_full by lia. cbn [Py.bind].
    rewrite (axes_good _ _ Hgood). reflexivity.
  - destruct Hc as (Hsh & Hdt & Hval). split; [exact Hsh|].
    split; [exact Hdt|]. rewrite Hsh. cbn [at_].
    intros idx Hidx. inversion Hidx as [|d t cs idx' Ht Hidx']; subst.
    cbn [reindex]. replace (0 + t * 1) with t by lia.
    apply Hval; [|assumption].
    destruct (proj2 (Hts t) Ht) as [<-|Hin]; [now left|now right].
Qed.

(** C8, amended: on a freshly constructed strategy [blockingFunction] raises
    [TypeError] for every input.  [combiningFunction] does not: called on
    the never-bound strategy with the blocks of one cell of the grid, one
    per time point and in any order, as a bound strategy of the same splits
    extracts them from a source array, it returns the combined block, which
    equals the source array sliced by the returned key; and on every input
    it returns what it returns on any other strategy, bound or not. *)
Theorem blockingFunction_unbound_raises {T : Type} (tok : T)
    (splits : list Z) (s : SimpleBlockingStrategy) :
  SimpleBlockingStrategy_init splits = Ok s ->
  (forall input, blockingFunction s input = Raise TypeError) /\
  (forall (images : Images) (sb : SimpleBlockingStrategy) (src : ndarray)
          (k : nat) (cell : list slice) (ts : list Z)
          (pairs : list (BlockGroupingKey * ndarray)),
     setImages images s = (Ok tt, sb) ->
     shape src = images_nimages images :: images_dims images ->
     0 < images_nimages images ->
     Forall (fun d => 0 <= d) (images_dims images) ->
     nth_error (product (generateSlices splits (images_dims images))) k =
       Some cell ->
     (forall t, In t ts <-> 0 <= t < images_nimages images) ->
     blocksOfCell sb src k ts = Ok pairs ->
     exists key ary region,
       combiningFunction s (tok, pairs) = Ok (key, Some ary) /\
       origshape key = shape src /\
       origslices key = full_slice :: cell /\
       Np.getitem src (origslices key) = Ok region /\
       arrayEq ary region) /\
  (forall (s' : SimpleBlockingStrategy)
          (input : T * list (BlockGroupingKey * ndarray)),
     combiningFunction s input = combiningFunction s' input).
Proof.
  intros Hinit. apply init_Ok in Hinit. destruct Hinit as [-> Hpos].
  split; [|split].
  - intros [tpidx imgary]. reflexivity.
  - intros images sb src k cell ts pairs Hbind Hs Hn Hds Hcell Hts Hpairs.
    set (n := images_nimages images) in *.
    set (ds := images_dims images) in *.
    destruct (bound_state _ _ _ Hbind) as (Hlen & Hsb).
    cbn [_splitsPerDim] in Hlen.
    assert (Hgood : Forall2 goodSlice ds cell).
    { apply (cell_good _ _ (generateSlices_good _ _ Hpos Hds Hlen)).
      eapply nth_error_In. exact Hcell. }
    assert (Hblocks : blocksOfCell sb src k ts =
                      Ok (map (blockAt src n cell) ts)).
    { unfold blocksOfCell. apply mapM_map. intros t Ht.
      apply (blockOfCell_blockAt images
               (mkSimple BlockingStrategy_init splits None));
        try assumption.
      now apply Hts. }
    rewrite Hblocks in Hpairs. injection Hpairs as <-.
    now apply (combine_cell_blocks tok _ src n ds cell ts).
  - intros s' input. reflexivity.
Qed.

Lemma blockingFunction_unbound_raises_witness :
  let s := mkSimple BlockingStrategy_init [1; 2] None in
  let images := mkImages [2; 3] 2 "int16"%string in
  let sb := snd (setImages images s) in
  let src := mkArray [2; 2; 3] "int16"%string
               (fun idx => 100 * nth 0 idx 0 + 10 * nth 1 idx 0 + nth 2 idx 0) in
  let cell := [slice3 0 2 1; slice3 2 3 1] in
  (forall input, blockingFunction s input = Raise TypeError) /\
  (exists pairs key ary region,
     blocksOfCell sb src 1 [1; 0] = Ok pairs /\
     combiningFunction s (tt, pairs) = Ok (key, Some ary) /\
     origshape key = shape src /\
     origslices key = full_slice :: cell /\
     Np.getitem src (origslices key) = Ok region /\
     arrayEq ary region).
Proof.
  cbn zeta.
  destruct (blockingFunction_unbound_raises tt [1; 2]
              (mkSimple BlockingStrategy_init [1; 2] None) eq_refl)
    as (Hraise & Hcombine & _).
  split; [exact Hraise|].
  set (images := mkImages [2; 3] 2 "int16"%string).
  set (s := mkSimple BlockingStrategy_init [1; 2] None) in *.
  set (sb := snd (setImages images s)).
  set (src := mkArray [2; 2; 3] "int16"%string
                (fun idx => 100 * nth 0 idx 0 + 10 * nth 1 idx 0 + nth 2 idx 0)).
  pose (pairs := match blocksOfCell sb src 1 [1; 0] with
                 | Ok p => p
                 | Raise _ => []
                 end).
  assert (Hpairs : blocksOfCell sb src 1 [1; 0] = Ok pairs) by reflexivity.
  destruct (Hcombine images sb src 1%nat [slice3 0 2 1; slice3 2 3 1] [1; 0]
              pairs)
    as (key & ary & region & H).
  - reflexivity.
  - reflexivity.
  - reflexivity.
  - repeat constructor; discriminate.
  - reflexivity.
  - intros t. cbn [In images_nimages images]. lia.
  - exact Hpairs.
  - exists pairs, key, ary, region. split; [exact Hpairs|exact H].
Defined.

(** * Further properties of the code *)

(** ** Construction *)

(** X1: [__normalizeSplits] accepts exactly the lists of positive counts, the
    empty list included, and raises [ValueError] as soon as one count is
    zero or negative; a new strategy carries the counts unchanged and no
    metadata. *)
Theorem init_positive_or_ValueError (splits : list Z) :
  (Forall (fun k => 0 < k) splits /\
   SimpleBlockingStrategy_init splits =
   Ok (mkSimple (mkBlockingStrategy None None None) splits None)) \/
  (Exists (fun k => k <= 0) splits /\
   SimpleBlockingStrategy_init splits = Raise ValueError).
Proof.
  unfold SimpleBlockingStrategy_init, normalizeSplits.
  destruct (existsb (fun nsplits => nsplits <=? 0) splits) eqn:E; cbn [Py.bind].
  - right. split; [|reflexivity].
    apply existsb_exists in E. destruct E as (k & Hin & Hk).
    apply Exists_exists. exists k. split; [assumption|]. now apply Z.leb_le.
  - left. split; [|reflexivity].
    apply Forall_forall. intros k Hin.
    destruct (Z.leb_spec k 0) as [Hle|Hgt]; [|assumption].
    assert (existsb (fun nsplits => nsplits <=? 0) splits = true).
    { apply existsb_exists. exists k. split; [assumption|]. now apply Z.leb_le. }
    congruence.
Qed.

(** ** Slice generation with more splits than elements *)

Lemma cutSlice_excess (nsplits dimsize : Z) (k : nat) :
  0 <= dimsize < nsplits ->
  cutSlice (dimsize / nsplits) (dimsize mod nsplits) dimsize k =
  if Z.of_nat k <? dimsize
  then slice3 (Z.of_nat k) (Z.of_nat k + 1) 1
  else slice3 dimsize dimsize 1.
Proof.
  intros Hd. rewrite Z.div_small, Z.mod_small by lia.
  unfold cutSlice, cutAt. destruct (Z.ltb_spec (Z.of_nat k) dimsize).
  - f_equal; lia.
  - f_equal; lia.
Qed.

(** X2: When an axis of [dimsize] elements is split more than [dimsize] times,
    [__generateSlices] gives one single-element slice per element, in order,
    followed by empty slices [slice(dimsize, dimsize, 1)] up to the requested
    count. *)
Theorem dimSlices_excess_splits (nsplits dimsize : Z) :
  0 <= dimsize < nsplits ->
  generateSlices [nsplits] [dimsize] =
  [map (fun k => slice3 (Z.of_nat k) (Z.of_nat k + 1) 1)
       (seq 0 (Z.to_nat dimsize)) ++
   repeat (slice3 dimsize dimsize 1) (Z.to_nat (nsplits - dimsize))].
Proof.
  intros Hd. unfold generateSlices. cbn [combine map fst snd]. f_equal.
  rewrite dimSlices_cut by lia.
  replace (Z.to_nat nsplits)
    with (Z.to_nat dimsize + Z.to_nat (nsplits - dimsize))%nat by lia.
  rewrite seq_app, map_app. f_equal.
  - apply map_ext_in. intros k Hk. apply in_seq in Hk.
    rewrite cutSlice_excess by assumption.
    destruct (Z.ltb_spec (Z.of_nat k) dimsize); [reflexivity|lia].
  - cbn [Nat.add].
    remember (Z.to_nat (nsplits - dimsize)) as m eqn:Em. clear Em.
    assert (Hge : forall k, In k (seq (Z.to_nat dimsize) m) ->
              cutSlice (dimsize / nsplits) (dimsize mod nsplits) dimsize k =
              slice3 dimsize dimsize 1).
    { intros k Hk. apply in_seq in Hk. rewrite cutSlice_excess by assumption.
      destruct (Z.ltb_spec (Z.of_nat k) dimsize); [lia|reflexivity]. }
    revert Hge. generalize (Z.to_nat dimsize) as st.
    induction m as [|m IH]; intros st Hge; [reflexivity|].
    cbn [seq map repeat]. rewrite Hge by now left. f_equal.
    apply IH. intros k Hk. apply Hge. now right.
Qed.

Lemma dimSlices_excess_splits_witness :
  generateSlices [5] [2] =
  [[slice3 0 1 1; slice3 1 2 1; slice3 2 2 1; slice3 2 2 1; slice3 2 2 1]].
Proof.
  exact (dimSlices_excess_splits 5 2 ltac:(lia)).
Defined.

(** ** Binding again *)

(** X3: A successful [setImages] overwrites all that an earlier call left:
    binding a source of the right dimensionality after any other bind, failed or not,
    gives exactly what binding it first would have given. *)
Theorem setImages_last_call_wins
    (s : SimpleBlockingStrategy) (images1 images2 : Images) :
  length (_splitsPerDim s) = length (images_dims images2) ->
  setImages images2 (snd (setImages images1 s)) = setImages images2 s /\
  fst (setImages images2 s) = Ok tt.
Proof.
  intros E.
  assert (Hsp : _splitsPerDim (snd (setImages images1 s)) = _splitsPerDim s).
  { destruct (Nat.eq_dec (length (_splitsPerDim s)) (length (images_dims images1))).
    - now rewrite setImages_same_length.
    - now rewrite setImages_other_length. }
  rewrite (setImages_same_length images2 s E).
  rewrite setImages_same_length by now rewrite Hsp.
  now rewrite Hsp.
Qed.

Lemma setImages_last_call_wins_witness :
  let s := mkSimple BlockingStrategy_init [2; 2] None in
  let images1 := mkImages [4; 4; 4] 3 "int16"%string in
  let images2 := mkImages [6; 5] 7 "float64"%string in
  setImages images2 (snd (setImages images1 s)) = setImages images2 s /\
  fst (setImages images2 s) = Ok tt.
Proof.
  cbn zeta.
  apply (setImages_last_call_wins
           (mkSimple BlockingStrategy_init [2; 2] None)
           (mkImages [4; 4; 4] 3 "int16"%string)
           (mkImages [6; 5] 7 "float64"%string)).
  reflexivity.
Defined.

(** X4: A bind that fails on a strategy bound before leaves the slice grid of
    the earlier source in place, next to the dims and image count of the
    rejected one: [blockingFunction] goes on cutting by the old grid and
    stamps the keys with the new image count. *)
Theorem failed_rebind_keeps_old_grid
    (s : SimpleBlockingStrategy) (images1 images2 : Images)
    (tpidx : Z) (imgary : ndarray) :
  length (_splitsPerDim s) = length (images_dims images1) ->
  length (_splitsPerDim s) <> length (images_dims images2) ->
  let s1 := snd (setImages images1 s) in
  let s2 := snd (setImages images2 s1) in
  fst (setImages images2 s1) = Raise ValueError /\
  dims s2 = Some (images_dims images2) /\
  _slices s2 = Some (generateSlices (_splitsPerDim s) (images_dims images1)) /\
  blockingFunction s2 (tpidx, imgary) =
  mapM (fun blockslices =>
          extractBlockFromImage imgary blockslices tpidx (images_nimages images2))
       (product (generateSlices (_splitsPerDim s) (images_dims images1))).
Proof.
  intros H1 H2. cbn zeta.
  rewrite (setImages_same_length images1 s H1).
  cbn [snd]. rewrite setImages_other_length by (cbn; assumption).
  cbn. repeat split.
Qed.

Lemma failed_rebind_keeps_old_grid_witness :
  let s := mkSimple BlockingStrategy_init [2; 2] None in
  let images1 := mkImages [4; 4] 3 "int16"%string in
  let images2 := mkImages [4; 4; 4] 7 "int16"%string in
  let imgary := mkArray [4; 4] "int16"%string (fun _ => 1) in
  let s1 := snd (setImages images1 s) in
  let s2 := snd (setImages images2 s1) in
  fst (setImages images2 s1) = Raise ValueError /\
  dims s2 = Some (images_dims images2) /\
  _slices s2 = Some (generateSlices (_splitsPerDim s) (images_dims images1)) /\
  blockingFunction s2 (0, imgary) =
  mapM (fun blockslices =>
          extractBlockFromImage imgary blockslices 0 (images_nimages images2))
       (product (generateSlices (_splitsPerDim s) (images_dims images1))).
Proof.
  cbn zeta.
  apply (failed_rebind_keeps_old_grid
           (mkSimple BlockingStrategy_init [2; 2] None)
           (mkImages [4; 4] 3 "int16"%string)
           (mkImages [4; 4; 4] 7 "int16"%string)).
  - reflexivity.
  - cbn. lia.
Defined.

(** ** Indices of the search sequence *)





Lemma walkRev_saturates (rdims : list Z) :
  Forall (fun d => 0 < d) rdims ->
  forall idx, sumPred rdims <= idx -> walkRev rdims idx = rdims.
Proof.
  induction 1 as [|d r Hd Hr IH]; intros idx Hidx; [reflexivity|].
  pose proof (sumPred_nonneg r Hr) as Hs.
  change (sumPred (d :: r)) with (d - 1 + sumPred r) in Hidx.
  cbn [walkRev].
  replace (Z.max 0 (Z.min (d - 1) idx)) with (d - 1) by lia.
  rewrite IH by lia. f_equal. lia.
Qed.

Lemma indtosub_saturates_parts (dims : list Z) (idx : Z) :
  Forall (fun d => 0 < d) dims ->
  (idx <= 0 -> indtosub dims idx = repeat 1 (length dims)) /\
  (len dims - 1 <= idx -> indtosub dims idx = dims).
Proof.
  intros Hpos. rewrite indtosub_walk. split; intros Hidx.
  - rewrite walkRev_nonpos by assumption.
    now rewrite rev_repeat, length_rev.
  - rewrite walkRev_saturates.
    + apply rev_involutive.
    + now apply Forall_rev.
    + rewrite sumPred_rev. rewrite len_sumPred in Hidx. lia.
Qed.

(** X7: The forward [indtosub] never raises and saturates outside the range: an
    index of zero or below gives the all-ones split, an index at or beyond
    the last gives [dims]. *)
Theorem indtosub_saturates (dims : list Z) (idx : Z) :
  Forall (fun d => 0 < d) dims ->
  (idx <= 0 -> indtosub dims idx = repeat 1 (length dims)) /\
  (len dims - 1 <= idx -> indtosub dims idx = dims).
Proof.
  intros Hpos. rewrite indtosub_walk. split; intros Hidx.
  - rewrite walkRev_nonpos by assumption.
    now rewrite rev_repeat, length_rev.
  - rewrite walkRev_saturates.
    + apply rev_involutive.
    + now apply Forall_rev.
    + rewrite sumPred_rev. rewrite len_sumPred in Hidx. lia.
Qed.

Lemma indtosub_saturates_witness :
  indtosub [5; 10; 3] (-4) = [1; 1; 1] /\ indtosub [5; 10; 3] 99 = [5; 10; 3].
Proof.
  destruct (indtosub_saturates [5; 10; 3] (-4) ltac:(repeat constructor))
    as [Hlow _].
  destruct (indtosub_saturates [5; 10; 3] 99 ltac:(repeat constructor))
    as [_ Hhigh].
  split; [apply Hlow; lia|apply Hhigh; cbv; discriminate].
Defined.

(** ** Values at the ends of the search sequence *)

Lemma indtosub_inverts_traversal_parts (dims : list Z) :
  Forall (fun d => 0 < d) dims ->
  indtosub dims 0 = repeat 1 (length dims) /\
  indtosub dims (len dims - 1) = dims.
Proof.
  intros Hpos. split.
  - apply (proj1 (indtosub_saturates_parts dims 0 Hpos)). lia.
  - apply (proj2 (indtosub_saturates_parts dims (len dims - 1) Hpos)). lia.
Qed.

Lemma quotient_by_one (d : Z) :
  0 < d /\ Float.representable d -> fdiv (fl d) (fl 1) = fl d.
Proof.
  intros [Hd Hr]. pose proof (fl_finite d Hd Hr) as N.
  destruct (fl d) as [s|[|]| |[|] m e]; cbn [normalIn] in N; try contradiction.
  apply div_one; tauto.
Qed.

Lemma quotient_self (d : Z) :
  0 < d /\ Float.representable d -> fdiv (fl d) (fl d) = fl 1.
Proof.
  intros [Hd Hr]. pose proof (fl_finite d Hd Hr) as N.
  destruct (fl d) as [s|[|]| |[|] m e]; cbn [normalIn] in N; try contradiction.
  apply div_self. tauto.
Qed.

Lemma sizes_ones (dims : list Z) :
  Forall (fun d => 0 < d /\ Float.representable d) dims ->
  sizes dims (repeat 1 (length dims)) = map Float.nearest dims.
Proof.
  induction 1 as [|d dims Hd _ IH]; [reflexivity|].
  unfold sizes in *. cbn [length repeat combine map fst snd].
  now rewrite quotient_by_one, IH.
Qed.

Lemma sizes_self (dims : list Z) :
  Forall (fun d => 0 < d /\ Float.representable d) dims ->
  sizes dims dims = map (fun _ => Float.nearest 1) dims.
Proof.
  induction 1 as [|d dims Hd _ IH]; [reflexivity|].
  unfold sizes in *. cbn [combine map fst snd].
  now rewrite quotient_self, IH.
Qed.

Lemma fold_mul_ones (l : list Z) :
  fold_left Float.mul (map (fun _ => fl 1) l) (fl 1) = fl 1.
Proof.
  induction l as [|d l IH]; [reflexivity|]. cbn [map fold_left].
  replace (Float.mul (fl 1) (fl 1)) with (fl 1) by (vm_compute; reflexivity).
  exact IH.
Qed.

Lemma product_pos (l : list Z) :
  Forall (fun d => 0 < d) l -> 0 < fold_right Z.mul 1 l.
Proof.
  induction 1 as [|d l Hd _ IH]; cbn [fold_right]; [lia|].
  now apply Z.mul_pos_pos.
Qed.

Lemma mul_exact_int (a b : Z) :
  0 < a -> 0 < b -> a * b < 2 ^ 53 -> Float.mul (fl a) (fl b) = fl (a * b).
Proof.
  intros Ha Hb Hab. destruct a as [|a|a]; try lia. destruct b as [|b|b]; try lia.
  now apply mul_exact.
Qed.

Lemma fold_mul_exact (l : list Z) :
  Forall (fun d => 0 < d) l ->
  forall acc, 0 < acc -> acc * fold_right Z.mul 1 l < 2 ^ 53 ->
    fold_left Float.mul (map fl l) (fl acc) = fl (acc * fold_right Z.mul 1 l).
Proof.
  induction 1 as [|d l Hd Hl IH]; intros acc Hacc Hb;
    cbn [map fold_left fold_right] in *.
  - now rewrite Z.mul_1_r.
  - pose proof (product_pos l Hl) as P.
    assert (Hd' : acc * d < 2 ^ 53) by nia.
    rewrite mul_exact_int by assumption.
    rewrite IH; [f_equal; ring|nia|].
    now replace (acc * d * fold_right Z.mul 1 l)
      with (acc * (d * fold_right Z.mul 1 l)) by ring.
Qed.

Lemma value_last (dims : list Z) :
  Forall (fun d => 0 < d /\ Float.representable d) dims -> dims <> [] ->
  productOf (sizes dims (indtosub dims (len dims - 1))) = fl 1.
Proof.
  intros Hr Hne. destruct (dims_in_range dims Hr) as [Hpos _].
  rewrite (proj2 (indtosub_inverts_traversal_parts dims Hpos)).
  rewrite sizes_self by assumption.
  destruct dims as [|d dims]; [contradiction|].
  cbn [map productOf]. apply fold_mul_ones.
Qed.

Lemma value_first (dims : list Z) :
  Forall (fun d => 0 < d /\ Float.representable d) dims ->
  productOf (sizes dims (indtosub dims 0)) = productOf (map Float.nearest dims).
Proof.
  intros Hr. destruct (dims_in_range dims Hr) as [Hpos _].
  rewrite (proj1 (indtosub_inverts_traversal_parts dims Hpos)).
  now rewrite sizes_ones.
Qed.

(** X8: The forward sequence ends at exactly 1.0, one cell per block, and
    starts at the float product of the converted dims, which is exactly the
    number of cells of the whole array when that is below [2 ^ 53]. *)
Theorem sequence_end_values (dims : list Z) :
  dims <> [] -> Forall (fun d => 0 < d /\ Float.representable d) dims ->
  BlockMemoryAsSequence.getitem dims (len dims - 1) = Ok (Float.nearest 1) /\
  BlockMemoryAsSequence.getitem dims 0 =
    Ok (productOf (map Float.nearest dims)) /\
  (fold_right Z.mul 1 dims < 2 ^ 53 ->
   BlockMemoryAsSequence.getitem dims 0 =
     Ok (Float.nearest (fold_right Z.mul 1 dims))).
Proof.
  intros Hne Hr. destruct (dims_in_range dims Hr) as [Hpos _].
  split; [|split].
  - rewrite getitem_value by assumption. f_equal. now apply value_last.
  - rewrite getitem_value by assumption. f_equal. now apply value_first.
  - intros Hcells. rewrite getitem_value by assumption. f_equal.
    rewrite value_first by assumption.
    destruct dims as [|d dims]; [contradiction|].
    cbn [map productOf fold_right] in *.
    inversion Hpos; subst. apply fold_mul_exact; assumption.
Qed.

Lemma sequence_end_values_witness :
  BlockMemoryAsSequence.getitem [5; 10; 3] (len [5; 10; 3] - 1) =
    Ok (Float.nearest 1) /\
  BlockMemoryAsSequence.getitem [5; 10; 3] 0 =
    Ok (productOf (map Float.nearest [5; 10; 3])) /\
  BlockMemoryAsSequence.getitem [5; 10; 3] 0 =
    Ok (Float.nearest (fold_right Z.mul 1 [5; 10; 3])).
Proof.
  destruct (sequence_end_values [5; 10; 3]) as (Hlast & Hfirst & Hcells).
  - discriminate.
  - repeat (apply Forall_cons;
              [split; [reflexivity|eexists; reflexivity]|]).
    apply Forall_nil.
  - split; [exact Hlast|]. split; [exact Hfirst|]. apply Hcells. reflexivity.
Defined.

(** X20: Rounding makes the sequence non-increasing but not strictly
    decreasing: for a dimension of [2 ^ 53 + 2] elements the splits
    [2 ^ 53] and [2 ^ 53 + 1] convert to the same double, and the items at
    their two indices are equal. *)
Theorem blockMemory_items_tie :
  indtosub [2 ^ 53 + 2] (2 ^ 53 - 1) = [2 ^ 53] /\
  indtosub [2 ^ 53 + 2] (2 ^ 53) = [2 ^ 53 + 1] /\
  Float.nearest (2 ^ 53 + 1) = Float.nearest (2 ^ 53) /\
  exists v,
    BlockMemoryAsSequence.getitem [2 ^ 53 + 2] (2 ^ 53 - 1) = Ok v /\
    BlockMemoryAsSequence.getitem [2 ^ 53 + 2] (2 ^ 53) = Ok v.
Proof.
  split; [reflexivity|]. split; [reflexivity|]. split; [reflexivity|].
  eexists. split; vm_compute; reflexivity.
Qed.

(** ** Integers beyond the largest double *)

Lemma ofInt_cases (z : Z) :
  Float.ofInt z = Ok (fl z) \/ Float.ofInt z = Raise OverflowError.
Proof.
  unfold Float.ofInt. destruct (fl z) as [s|s| |s m e]; auto.
Qed.

Lemma floatDiv_overflow (d s : Z) :
  ~ Float.representable d -> floatDiv d s = Raise OverflowError.
Proof.
  intros Hd. unfold floatDiv.
  destruct (ofInt_cases s) as [-> | ->]; cbn [Py.bind]; [|reflexivity].
  destruct (ofInt_cases d) as [E | ->]; [|reflexivity].
  exfalso. apply Hd. eexists. exact E.
Qed.

Lemma floatDiv_Ok_or_overflow (d s : Z) :
  0 < s ->
  (exists q, floatDiv d s = Ok q) \/ floatDiv d s = Raise OverflowError.
Proof.
  intros Hs. unfold floatDiv.
  destruct (ofInt_cases s) as [-> | ->]; cbn [Py.bind]; [|now right].
  destruct (ofInt_cases d) as [-> | ->]; cbn [Py.bind]; [|now right].
  left. unfold Float.div. rewrite fl_nonzero by lia. eexists. reflexivity.
Qed.

Lemma sizes_overflow (dims : list Z) :
  Exists (fun d => ~ Float.representable d) dims ->
  forall sub, Forall (fun s => 1 <= s) sub -> length sub = length dims ->
    mapM (fun p => floatDiv (fst p) (snd p)) (combine dims sub) =
    Raise OverflowError.
Proof.
  induction 1 as [d dims Hd|d dims _ IH]; intros sub Hsub Hlen;
    destruct sub as [|s sub]; try discriminate;
    inversion Hsub; subst; cbn [combine mapM fst snd].
  - now rewrite floatDiv_overflow.
  - destruct (floatDiv_Ok_or_overflow d s ltac:(lia)) as [[q ->] | ->];
      cbn [Py.bind]; [|reflexivity].
    rewrite IH by (assumption || now injection Hlen). reflexivity.
Qed.

(** X22: A dimension beyond the largest double, such as [2 ^ 1024], makes
    every item access of the sequence raise [OverflowError]: the conversion
    [float] of that dimension, or of its split count, overflows. *)
Theorem sequence_overflow (dims : list Z) (idx : Z) :
  Forall (fun d => 0 < d) dims ->
  Exists (fun d => ~ Float.representable d) dims ->
  BlockMemoryAsSequence.getitem dims idx = Raise OverflowError.
Proof.
  intros Hpos Hbig. unfold BlockMemoryAsSequence.getitem, blockMemoryForSplits.
  rewrite (sizes_overflow dims Hbig);
    [reflexivity|now apply indtosub_ge_one|apply indtosub_length].
Qed.

Lemma sequence_overflow_witness :
  BlockMemoryAsSequence.getitem [5; 2 ^ 1024; 3] 4 = Raise OverflowError.
Proof.
  apply (sequence_overflow [5; 2 ^ 1024; 3] 4).
  - repeat (apply Forall_cons; [reflexivity|]). apply Forall_nil.
  - apply Exists_cons_tl, Exists_cons_hd.
    intros [f Hf]. vm_compute in Hf. discriminate.
Defined.

(** ** The factory on other inputs *)






Section FactoryFacts.

Variable parseMemoryString : string -> result Z.
Variable itemsize : string -> Z.

Local Abbreviation factory := (generateFromBlockSize parseMemoryString itemsize).

(** X10: For a requested size that [float] accepts, a series size of
    zero bytes makes the target a division by zero, and an array without
    dimensions makes the first item access fail on the product of an empty
    list: the factory raises in both cases. *)
Theorem factory_degenerate_inputs (blockSize : Z) (dims : list Z)
    (nimages : Z) (datatype : string) :
  Float.representable blockSize ->
  (nimages * itemsize datatype = 0 ->
   factory (SizeInt blockSize) dims nimages datatype = Raise ZeroDivisionError) /\
  (nimages * itemsize datatype <> 0 ->
   Float.representable (nimages * itemsize datatype) ->
   factory (SizeInt blockSize) [] nimages datatype = Raise TypeError).
Proof.
  intros Hb. split.
  - intros Hm. unfold generateFromBlockSize. cbn [Py.bind].
    rewrite Hm, floatDiv_by_zero by assumption. reflexivity.
  - intros Hm Hr. unfold generateFromBlockSize. cbn [Py.bind].
    rewrite floatDiv_defined by assumption. reflexivity.
Qed.




(** X23: A requested size beyond the largest double is not clamped: its
    conversion in [blockSize / float(minseriessize)] raises
    [OverflowError], whatever the other arguments. *)
Theorem factory_overflow (blockSize : Z) (dims : list Z) (nimages : Z)
    (datatype : string) :
  ~ Float.representable blockSize ->
  factory (SizeInt blockSize) dims nimages datatype = Raise OverflowError.
Proof.
  intros Hb. unfold generateFromBlockSize. cbn [Py.bind].
  now rewrite floatDiv_overflow.
Qed.

(** X21: The search compares doubles, not rationals.  For a 12 by 12 array
    of 5 one-byte images and a request of 144 bytes, the split (1, 5) gives
    blocks of exactly the requested size in rational arithmetic, but its
    item [12.0 * (12 / 5.0)] rounds below the target [144 / 5.0], and the
    factory returns the coarser split (1, 4). *)
Theorem factory_rounding_example :
  itemsize "uint8"%string = 1 ->
  exists item target,
    BlockMemoryAsReversedSequence.indtosub [12; 12] 18 = Ok [1; 5] /\
    12 * 12 * (5 * 1) = 144 * (1 * 5) /\
    BlockMemoryAsReversedSequence.getitem [12; 12] 18 = Ok item /\
    floatDiv 144 (5 * 1) = Ok target /\
    Float.ltb item target = true /\
    factory (SizeInt 144) [12; 12] 5 "uint8"%string =
    Ok (mkSimple BlockingStrategy_init [1; 4] None).
Proof.
  intros Hisz. eexists. eexists.
  split; [reflexivity|]. split; [reflexivity|].
  split; [vm_compute; reflexivity|]. split; [vm_compute; reflexivity|].
  split; [vm_compute; reflexivity|].
  unfold generateFromBlockSize. rewrite Hisz. vm_compute. reflexivity.
Qed.

End FactoryFacts.

Lemma factory_degenerate_inputs_witness :
  generateFromBlockSize (fun _ => Raise ValueError) (fun _ => 8)
    (SizeInt 1000) [5; 10; 3] 0 "float64"%string = Raise ZeroDivisionError /\
  generateFromBlockSize (fun _ => Raise ValueError) (fun _ => 8)
    (SizeInt 1000) [] 7 "float64"%string = Raise TypeError.
Proof.
  split.
  - apply (factory_degenerate_inputs (fun _ => Raise ValueError) (fun _ => 8)
             1000 [5; 10; 3] 0 "float64"%string);
      [eexists; reflexivity|reflexivity].
  - apply (factory_degenerate_inputs (fun _ => Raise ValueError) (fun _ => 8)
             1000 [5; 10; 3] 7 "float64"%string);
      [eexists; reflexivity|discriminate|eexists; reflexivity].
Defined.




Lemma factory_overflow_witness :
  generateFromBlockSize (fun _ => Raise ValueError) (fun _ => 8)
    (SizeInt (2 ^ 1024)) [5; 10; 3] 7 "float64"%string = Raise OverflowError.
Proof.
  apply (factory_overflow (fun _ => Raise ValueError) (fun _ => 8)).
  intros [f Hf]. vm_compute in Hf. discriminate.
Defined.

Lemma factory_rounding_example_witness :
  exists item target,
    BlockMemoryAsReversedSequence.indtosub [12; 12] 18 = Ok [1; 5] /\
    12 * 12 * (5 * 1) = 144 * (1 * 5) /\
    BlockMemoryAsReversedSequence.getitem [12; 12] 18 = Ok item /\
    floatDiv 144 (5 * 1) = Ok target /\
    Float.ltb item target = true /\
    generateFromBlockSize (fun _ => Raise ValueError) (fun _ => 1)
      (SizeInt 144) [12; 12] 5 "uint8"%string =
    Ok (mkSimple BlockingStrategy_init [1; 4] None).
Proof.
  apply (factory_rounding_example (fun _ => Raise ValueError) (fun _ => 1)).
  reflexivity.
Defined.

(** ** Extraction from an image of the wrong rank *)

Lemma axes_too_many (shp : list Z) :
  forall sls,
    Forall (fun sl => step sl = Some 1) sls ->
    (length shp < length sls)%nat ->
    axes sls shp = Raise IndexError.
Proof.
  induction shp as [|d shp IH]; intros sls Hst Hlen.
  - destruct sls as [|sl sls]; [cbn in Hlen; lia|reflexivity].
  - destruct sls as [|sl sls]; [cbn in Hlen; lia|].
    inversion Hst as [|? ? Hs Hst']; subst. cbn [axes].
    destruct (slice_indices_step sl d Hs) as (t & ->). cbn [Py.bind].
    rewrite IH; [reflexivity|assumption|cbn in Hlen; lia].
Qed.

Lemma product_nonempty {A : Type} (ls : list (list A)) :
  Forall (fun l => l <> []) ls -> product ls <> [].
Proof.
  induction 1 as [|l ls Hl _ IH]; [discriminate|].
  cbn [product]. destruct l as [|a l]; [contradiction|].
  cbn [flat_map]. destruct (product ls) as [|c cs]; [contradiction|].
  discriminate.
Qed.

Lemma generateSlices_nonempty_axes (splits ds : list Z) :
  Forall (fun k => 0 < k) splits ->
  Forall (fun l : list slice => l <> []) (generateSlices splits ds).
Proof.
  intros Hpos. unfold generateSlices. apply Forall_map. apply Forall_forall.
  intros [k d] Hin. apply in_combine_l in Hin. cbn [fst snd].
  rewrite Forall_forall in Hpos. apply Hpos in Hin.
  intros E. apply (f_equal (@length slice)) in E.
  rewrite dimSlices_length in E. cbn in E. lia.
Qed.

(** X15: An image with fewer axes than the bound dims cannot be cut: the first
    cell already has too many slices for it and [blockingFunction] raises
    [IndexError]. *)
Theorem blockingFunction_rank_too_low
    (images : Images) (s0 s : SimpleBlockingStrategy)
    (tpidx : Z) (imgary : ndarray) :
  Forall (fun k => 0 < k) (_splitsPerDim s0) ->
  setImages images s0 = (Ok tt, s) ->
  (length (shape imgary) < length (images_dims images))%nat ->
  blockingFunction s (tpidx, imgary) = Raise IndexError.
Proof.
  intros Hpos Hbind Hrank. apply bound_state in Hbind.
  destruct Hbind as (Hlen & ->).
  unfold blockingFunction, nimages. cbn [_slices super _nimages].
  set (slices := generateSlices (_splitsPerDim s0) (images_dims images)).
  pose proof (product_nonempty slices
                (generateSlices_nonempty_axes _ (images_dims images) Hpos)) as Hne.
  destruct (product slices) as [|cell cells] eqn:E; [contradiction|].
  assert (Hin : In cell (product slices)) by (rewrite E; now left).
  apply in_product in Hin.
  assert (Hst : Forall (fun sl => step sl = Some 1) cell).
  { pose proof (generateSlices_steps (_splitsPerDim s0) (images_dims images))
      as Hall. fold slices in Hall.
    clear - Hin Hall. induction Hin as [|sl axis c ls Hsl _ IH].
    - constructor.
    - inversion Hall; subst. constructor.
      + rewrite Forall_forall in H1. now apply H1.
      + now apply IH. }
  assert (Hcl : (length (shape imgary) < length cell)%nat).
  { rewrite (Forall2_length_eq _ _ _ Hin). unfold slices.
    rewrite generateSlices_length by assumption. assumption. }
  cbn [mapM]. unfold extractBlockFromImage at 1, Np.getitem.
  rewrite (axes_too_many _ _ Hst Hcl). reflexivity.
Qed.

Lemma blockingFunction_rank_too_low_witness :
  blockingFunction
    (snd (setImages (mkImages [4; 4] 3 "int16"%string)
            (mkSimple BlockingStrategy_init [2; 2] None)))
    (0, mkArray [4] "int16"%string (fun _ => 1)) = Raise IndexError.
Proof.
  apply (blockingFunction_rank_too_low (mkImages [4; 4] 3 "int16"%string)
           (mkSimple BlockingStrategy_init [2; 2] None)).
  - repeat constructor.
  - reflexivity.
  - cbn. lia.
Defined.

(** ** The blocks of one image partition it *)

Lemma extract_good (img : ndarray) (cell : list slice) (t n : Z) :
  Forall2 goodSlice (shape img) cell ->
  extractBlockFromImage img cell t n = Ok (cellBlock img n cell t).
Proof.
  intros Hg. unfold extractBlockFromImage, Np.getitem, cellBlock.
  rewrite (axes_good _ _ Hg). reflexivity.
Qed.

Lemma filter_map_length {A B : Type} (p : B -> bool) (g : A -> B) (l : list A) :
  length (filter p (map g l)) = length (filter (fun a => p (g a)) l).
Proof.
  induction l as [|a l IH]; [reflexivity|].
  cbn [map filter]. destruct (p (g a)); cbn [length]; now rewrite IH.
Qed.

Lemma filter_none {A : Type} (h : A -> bool) (l : list A) :
  (forall a, In a l -> h a = false) -> filter h l = [].
Proof.
  induction l as [|a l IH]; intros H; [reflexivity|].
  cbn [filter]. rewrite (H a (or_introl eq_refl)).
  apply IH. intros b Hb. apply H. now right.
Qed.

Lemma count_seq_unique (h : nat -> bool) (K j0 : nat) :
  (j0 < K)%nat -> h j0 = true ->
  (forall j, (j < K)%nat -> j <> j0 -> h j = false) ->
  length (filter h (seq 0 K)) = 1%nat.
Proof.
  intros Hj Hh Hother.
  replace K with (j0 + S (K - S j0))%nat by lia.
  rewrite seq_app, filter_app. cbn [Nat.add seq filter]. rewrite Hh.
  rewrite !filter_none.
  - reflexivity.
  - intros j Hin. apply in_seq in Hin. apply Hother; lia.
  - intros j Hin. apply in_seq in Hin. apply Hother; lia.
Qed.

Lemma dimSlices_count (nsplits dimsize x : Z) :
  0 < nsplits -> 0 <= x < dimsize ->
  length (filter (fun sl => sliceHas sl x) (dimSlices nsplits dimsize)) = 1%nat.
Proof.
  intros Hn Hx. rewrite dimSlices_cut by assumption.
  rewrite filter_map_length.
  set (b := dimsize / nsplits). set (r := dimsize mod nsplits).
  assert (Hb : 0 <= b) by (apply Z.div_pos; lia).
  assert (Hlast : cutAt b r nsplits = dimsize) by now apply cutAt_last.
  assert (Hcut : forall j, (j < Z.to_nat nsplits)%nat ->
            sliceHas (cutSlice b r dimsize j) x =
            (cutAt b r (Z.of_nat j) <=? x) && (x <? cutAt b r (Z.of_nat j + 1))).
  { intros j Hj. unfold cutSlice, sliceHas. cbn [slice3 start stop].
    rewrite Z.min_l; [reflexivity|]. apply cutAt_le_dim; lia. }
  assert (Hx' : 0 <= x < cutAt b r (Z.of_nat (Z.to_nat nsplits)))
    by (rewrite Z2Nat.id by lia; lia).
  destruct (cutAt_find b r _ x Hx') as (j0 & Hj0 & Hc).
  apply (count_seq_unique _ _ j0 Hj0).
  - rewrite Hcut by assumption.
    destruct (Z.leb_spec (cutAt b r (Z.of_nat j0)) x); [|lia].
    destruct (Z.ltb_spec x (cutAt b r (Z.of_nat j0 + 1))); [reflexivity|lia].
  - intros j Hj Hne. rewrite Hcut by assumption.
    destruct (Nat.lt_trichotomy j j0) as [Hlt|[Heq|Hgt]]; [|contradiction|].
    + pose proof (cutAt_mono b r (Z.of_nat j + 1) (Z.of_nat j0) Hb ltac:(lia)).
      destruct (Z.ltb_spec x (cutAt b r (Z.of_nat j + 1))); [lia|].
      apply andb_false_r.
    + pose proof (cutAt_mono b r (Z.of_nat j0 + 1) (Z.of_nat j) Hb ltac:(lia)).
      destruct (Z.leb_spec (cutAt b r (Z.of_nat j)) x); [lia|]. reflexivity.
Qed.

Lemma generateSlices_count (splits : list Z) :
  Forall (fun k => 0 < k) splits ->
  forall ds idx,
    length splits = length ds ->
    inRange ds idx ->
    Forall2 (fun axis x =>
               length (filter (fun sl => sliceHas sl x) axis) = 1%nat)
            (generateSlices splits ds) idx.
Proof.
  unfold generateSlices.
  induction 1 as [|k splits Hk _ IH]; intros ds idx Hlen Hidx.
  - destruct ds; [|discriminate]. inversion Hidx. constructor.
  - destruct Hidx as [|d x ds idx Hx Hidx]; [discriminate|].
    cbn [combine map fst snd]. constructor.
    + now apply dimSlices_count.
    + apply IH; [now injection Hlen|assumption].
Qed.

Lemma count_cons_cells (x : Z) (idx : list Z) (P : list (list slice))
    (axis : list slice) :
  length (filter (fun c => cellHas c (x :: idx))
            (flat_map (fun a => map (cons a) P) axis)) =
  (length (filter (fun sl => sliceHas sl x) axis) *
   length (filter (fun c => cellHas c idx) P))%nat.
Proof.
  induction axis as [|a axis IH]; [reflexivity|].
  cbn [flat_map filter]. rewrite filter_app, length_app, IH.
  rewrite filter_map_length. cbn [cellHas].
  destruct (sliceHas a x); cbn [andb length].
  - cbn [Nat.mul]. lia.
  - rewrite filter_none by reflexivity. reflexivity.
Qed.

Lemma product_count (L : list (list slice)) (idx : list Z) :
  Forall2 (fun axis x =>
             length (filter (fun sl => sliceHas sl x) axis) = 1%nat) L idx ->
  length (filter (fun c => cellHas c idx) (product L)) = 1%nat.
Proof.
  induction 1 as [|axis x L idx Hax _ IH]; [reflexivity|].
  cbn [product]. rewrite count_cons_cells, Hax, IH. reflexivity.
Qed.

Lemma cell_relIndex (ds : list Z) (cell : list slice) :
  Forall2 goodSlice ds cell ->
  forall idx, cellHas cell idx = true ->
    reindex (map axOf cell) (relIndex cell idx) = idx /\
    inRange (map axLen (map axOf cell)) (relIndex cell idx).
Proof.
  induction 1 as [|d sl ds cell Hg _ IH]; intros idx Hhas.
  - destruct idx; [|discriminate]. split; constructor.
  - destruct idx as [|x idx]; [discriminate|].
    cbn [cellHas] in Hhas. apply andb_true_iff in Hhas.
    destruct Hhas as (Hsl & Hrest).
    destruct (IH idx Hrest) as (Hre & Hin).
    destruct Hg as (a & b & -> & Hab & Hb).
    unfold sliceHas in Hsl. cbn [slice3 start stop] in Hsl.
    apply andb_true_iff in Hsl. destruct Hsl as (Ha & Hxb).
    apply Z.leb_le in Ha. apply Z.ltb_lt in Hxb.
    cbn [map relIndex reindex axOf slice3 start stop]. split.
    + rewrite Hre. f_equal. lia.
    + constructor; [cbn; lia|exact Hin].
Qed.

(** X16: The blocks cut from one image partition it: every index of the image
    lies in the slices of exactly one returned block, and that block holds
    the image's value at the position relative to the block's start. *)
Theorem blocks_partition_image
    (images : Images) (s0 s : SimpleBlockingStrategy)
    (tpidx : Z) (imgary : ndarray) (idx : list Z) :
  Forall (fun k => 0 < k) (_splitsPerDim s0) ->
  setImages images s0 = (Ok tt, s) ->
  shape imgary = images_dims images ->
  inRange (shape imgary) idx ->
  exists blocks,
    blockingFunction s (tpidx, imgary) = Ok blocks /\
    length (filter (fun kb => blockHas kb idx) blocks) = 1%nat /\
    forall kb, In kb blocks -> blockHas kb idx = true ->
      inRange (shape (snd kb)) (0 :: relIndex (tl (origslices (fst kb))) idx) /\
      at_ (snd kb) (0 :: relIndex (tl (origslices (fst kb))) idx) =
      at_ imgary idx.
Proof.
  intros Hpos Hbind Hshape Hidx.
  apply bound_state in Hbind. destruct Hbind as (Hlen & ->).
  set (n := images_nimages images). set (ds := images_dims images) in *.
  set (slices := generateSlices (_splitsPerDim s0) ds).
  assert (Hds : Forall (fun d => 0 <= d) ds).
  { rewrite Hshape in Hidx. clear - Hidx.
    induction Hidx; constructor; [lia|assumption]. }
  pose proof (generateSlices_good _ _ Hpos Hds Hlen) as Hgood.
  assert (Hblocks : blockingFunction
            (mkSimple (mkBlockingStrategy (Some ds) (Some n)
                         (Some (images_dtype images)))
                      (_splitsPerDim s0) (Some slices)) (tpidx, imgary) =
          Ok (map (fun c => cellBlock imgary n c tpidx) (product slices))).
  { unfold blockingFunction, nimages. cbn [_slices super _nimages].
    apply mapM_map. intros c Hc. apply extract_good. rewrite Hshape.
    now apply (cell_good _ _ Hgood). }
  eexists. split; [exact Hblocks|]. split.
  - rewrite filter_map_length. unfold blockHas, cellBlock.
    cbn [fst origslices tl]. apply product_count.
    apply generateSlices_count; [assumption|assumption|].
    now rewrite <- Hshape.
  - intros kb Hin Hhas. apply in_map_iff in Hin.
    destruct Hin as (c & <- & Hc).
    unfold blockHas, cellBlock in *. cbn [fst snd origslices tl] in *.
    destruct (cell_relIndex ds c (cell_good _ _ Hgood c Hc) idx Hhas)
      as (Hre & Hin).
    split.
    + cbn [expand_dims shape firstn skipn app]. constructor; [lia|exact Hin].
    + cbn [expand_dims at_ firstn skipn app]. now rewrite Hre.
Qed.

Lemma blocks_partition_image_witness :
  let images := mkImages [5; 4] 3 "int16"%string in
  let s := snd (setImages images (mkSimple BlockingStrategy_init [2; 3] None)) in
  let imgary := mkArray [5; 4] "int16"%string
                  (fun i => 10 * nth 0 i 0 + nth 1 i 0) in
  exists blocks,
    blockingFunction s (1, imgary) = Ok blocks /\
    length (filter (fun kb => blockHas kb [3; 2]) blocks) = 1%nat /\
    forall kb, In kb blocks -> blockHas kb [3; 2] = true ->
      inRange (shape (snd kb))
              (0 :: relIndex (tl (origslices (fst kb))) [3; 2]) /\
      at_ (snd kb) (0 :: relIndex (tl (origslices (fst kb))) [3; 2]) =
      at_ imgary [3; 2].
Proof.
  cbn zeta.
  apply (blocks_partition_image (mkImages [5; 4] 3 "int16"%string)
           (mkSimple BlockingStrategy_init [2; 3] None)).
  - repeat constructor.
  - reflexivity.
  - reflexivity.
  - repeat constructor; cbn; lia.
Defined.

(** ** Combining when time points are missing *)

Lemma combineStep_first_exact (src : ndarray) (n : Z) (ds : list Z)
    (cell : list slice) (t : Z) :
  Forall2 goodSlice ds cell -> 0 <= t < n ->
  exists ary,
    combineStep (None, None) (blockAt src n cell t) =
    Ok (Some ary, Some (fst (blockAt src n cell t))) /\
    collected src n cell (fun t' => t' = t) ary /\
    zeroElsewhere cell (fun t' => t' = t) ary.
Proof.
  intros Hgood Ht.
  destruct (setitem_block src n ds cell Hgood
              (mkArray (n :: map axLen (map axOf cell)) (dtype src) (fun _ => 0))
              t eq_refl Ht) as (ary' & Hset & Hsh & Hdt & Hat).
  exists ary'. split; [|split].
  - rewrite combineStep_eq. rewrite fst_blockAt at 1.
    cbn [origshape item0 Py.bind].
    rewrite (zeros_collection src n ds cell Hgood) by lia.
    cbn [Py.bind]. rewrite fst_blockAt at 1.
    cbn [origslices item0 Py.bind fst snd]. rewrite Hset. reflexivity.
  - split; [exact Hsh|]. split; [exact Hdt|].
    intros t' idx -> Hidx. rewrite Hat by assumption. now rewrite Z.eqb_refl.
  - intros t' idx Hne Hidx. rewrite Hat by assumption.
    destruct (Z.eqb_spec t' t) as [E|_]; [contradiction|reflexivity].
Qed.

Lemma combineStep_next_exact (src : ndarray) (n : Z) (ds : list Z)
    (cell : list slice) (P : Z -> Prop) (ary : ndarray)
    (fk : BlockGroupingKey) (t : Z) :
  Forall2 goodSlice ds cell ->
  collected src n cell P ary -> zeroElsewhere cell P ary -> 0 <= t < n ->
  exists ary',
    combineStep (Some ary, Some fk) (blockAt src n cell t) =
    Ok (Some ary', Some fk) /\
    collected src n cell (fun t' => P t' \/ t' = t) ary' /\
    zeroElsewhere cell (fun t' => P t' \/ t' = t) ary'.
Proof.
  intros Hgood (Hsh & Hdt & Hval) Hzero Ht.
  destruct (setitem_block src n ds cell Hgood ary t Hsh Ht)
    as (ary' & Hset & Hsh' & Hdt' & Hat).
  exists ary'. split; [|split].
  - rewrite combineStep_eq. cbn [Py.bind]. rewrite fst_blockAt at 1.
    cbn [origslices item0 Py.bind fst snd]. rewrite Hset. reflexivity.
  - split; [congruence|]. split; [congruence|].
    intros t' idx HP Hidx. rewrite Hat by assumption.
    destruct (Z.eqb_spec t' t) as [->|Hne]; [reflexivity|].
    apply Hval; [|assumption]. destruct HP as [HP|HP]; [assumption|contradiction].
  - intros t' idx HP Hidx. rewrite Hat by assumption.
    destruct (Z.eqb_spec t' t) as [->|Hne].
    + exfalso. apply HP. now right.
    + apply Hzero; [|assumption]. intros HP'. apply HP. now left.
Qed.

Lemma combineLoop_exact (src : ndarray) (n : Z) (ds : list Z)
    (cell : list slice) (ts : list Z) :
  Forall2 goodSlice ds cell ->
  forall (P : Z -> Prop) (ary : ndarray) (fk : BlockGroupingKey),
    collected src n cell P ary -> zeroElsewhere cell P ary ->
    (forall t, In t ts -> 0 <= t < n) ->
    exists ary',
      combineLoop (Some ary, Some fk) (map (blockAt src n cell) ts) =
      Ok (Some ary', Some fk) /\
      collected src n cell (fun t => P t \/ In t ts) ary' /\
      zeroElsewhere cell (fun t => P t \/ In t ts) ary'.
Proof.
  intros Hgood. induction ts as [|t ts IH]; intros P ary fk Hc Hz Hts.
  - exists ary. split; [reflexivity|]. split.
    + destruct Hc as (Hsh & Hdt & Hval). repeat split; try assumption.
      intros t idx [HP|[]] Hidx. now apply Hval.
    + intros t idx HP Hidx. apply Hz; [|assumption].
      intros HP'. apply HP. now left.
  - cbn [map combineLoop].
    destruct (combineStep_next_exact src n ds cell P ary fk t Hgood Hc Hz
                (Hts t (or_introl eq_refl))) as (ary1 & Hstep & Hc1 & Hz1).
    rewrite Hstep. cbn [Py.bind].
    destruct (IH _ ary1 fk Hc1 Hz1) as (ary' & Hloop & Hc' & Hz').
    { intros t' Ht'. apply Hts. now right. }
    exists ary'. split; [exact Hloop|]. split.
    + destruct Hc' as (Hsh & Hdt & Hval). repeat split; try assumption.
      intros t' idx HP Hidx. apply Hval; [|assumption].
      cbn [In] in HP. destruct HP as [HP|[HP|HP]]; auto.
    + intros t' idx HP Hidx. apply Hz'; [|assumption].
      intros [[HP'|HP']|HP']; apply HP; cbn [In]; auto.
Qed.

(** X17: [combiningFunction] needs no complete set of time points.  Given the
    blocks of one cell for any non-empty selection of time points, in any
    order and with repeats, it returns an array of the full time extent
    that agrees with the source region at the time points given and is zero
    at all others.  Given no block at all it raises [AttributeError]. *)
Theorem combine_missing_time_points {T : Type} (tok : T)
    (splits : list Z) (images : Images) (s0 s : SimpleBlockingStrategy)
    (src : ndarray) (slices : list (list slice)) (k : nat)
    (cell : list slice) (ts : list Z) :
  _splitsPerDim s0 = splits ->
  Forall (fun m => 0 < m) splits ->
  setImages images s0 = (Ok tt, s) ->
  shape src = images_nimages images :: images_dims images ->
  Forall (fun d => 0 <= d) (images_dims images) ->
  _slices s = Some slices ->
  nth_error (product slices) k = Some cell ->
  ts <> [] ->
  (forall t, In t ts -> 0 <= t < images_nimages images) ->
  combiningFunction s (tok, []) = Raise AttributeError /\
  exists pairs key ary region,
    blocksOfCell s src k ts = Ok pairs /\
    combiningFunction s (tok, pairs) = Ok (key, Some ary) /\
    Np.getitem src (full_slice :: cell) = Ok region /\
    shape ary = shape region /\
    forall t idx, inRange (shape region) (t :: idx) ->
      (In t ts -> at_ ary (t :: idx) = at_ region (t :: idx)) /\
      (~ In t ts -> at_ ary (t :: idx) = 0).
Proof.
  intros Hsplits Hpos Hbind Hs Hds Hsl Hcell Hne Hts.
  split; [reflexivity|].
  set (n := images_nimages images) in *. set (ds := images_dims images) in *.
  destruct (bound_state _ _ _ Hbind) as (Hlen & Hs').
  rewrite Hsplits in Hlen, Hs'.
  assert (Hslices : slices = generateSlices splits ds).
  { rewrite Hs' in Hsl. cbn in Hsl. now injection Hsl. }
  subst slices.
  assert (Hgood : Forall2 goodSlice ds cell).
  { apply (cell_good _ _ (generateSlices_good _ _ Hpos Hds Hlen)).
    eapply nth_error_In. exact Hcell. }
  assert (Hblocks : blocksOfCell s src k ts = Ok (map (blockAt src n cell) ts)).
  { unfold blocksOfCell. apply mapM_map. intros t Ht.
    apply (blockOfCell_blockAt images s0); rewrite ?Hsplits; try assumption.
    now apply Hts. }
  destruct ts as [|t0 ts]; [contradiction|].
  assert (Ht0 : 0 <= t0 < n) by (apply Hts; now left).
  destruct (combineStep_first_exact src n ds cell t0 Hgood Ht0)
    as (ary1 & Hstep & Hc1 & Hz1).
  destruct (combineLoop_exact src n ds cell ts Hgood _ ary1
              (fst (blockAt src n cell t0)) Hc1 Hz1)
    as (ary & Hloop & Hc & Hz).
  { intros t Ht. apply Hts. now right. }
  exists (map (blockAt src n cell) (t0 :: ts)).
  exists (mkKey (n :: tl (shape src)) (full_slice :: cell)), ary.
  exists (mkArray (n :: map axLen (map axOf cell)) (dtype src)
            (fun idx => at_ src (reindex ((0, 1, n) :: map axOf cell) idx))).
  split; [exact Hblocks|]. split; [|split; [|split]].
  - unfold combiningFunction. cbn [map combineLoop].
    rewrite Hstep. cbn [Py.bind]. rewrite Hloop. cbn [Py.bind].
    rewrite fst_blockAt. reflexivity.
  - unfold Np.getitem. rewrite Hs. cbn [axes].
    rewrite slice_indices_full by lia. cbn [Py.bind].
    rewrite (axes_good _ _ Hgood). reflexivity.
  - destruct Hc as (Hsh & _). exact Hsh.
  - cbn [shape at_]. intros t idx Hfull.
    assert (Hidx : inRange (map axLen (map axOf cell)) idx)
      by now inversion Hfull.
    split.
    + intros Hin. cbn [reindex]. replace (0 + t * 1) with t by lia.
      destruct Hc as (_ & _ & Hval). apply Hval; [|assumption].
      destruct Hin as [<-|Hin]; [now left|now right].
    + intros Hnin. apply Hz; [|assumption].
      intros [->|Hin]; apply Hnin; [now left|now right].
Qed.

Lemma combine_missing_time_points_witness :
  let images := mkImages [2; 3] 4 "int16"%string in
  let s0 := mkSimple BlockingStrategy_init [1; 2] None in
  let s := snd (setImages images s0) in
  let src := mkArray [4; 2; 3] "int16"%string
               (fun idx => 100 * nth 0 idx 0 + 10 * nth 1 idx 0 + nth 2 idx 0) in
  let cell := [slice3 0 2 1; slice3 2 3 1] in
  combiningFunction s (tt, []) = Raise AttributeError /\
  exists pairs key ary region,
    blocksOfCell s src 1 [3; 1; 3] = Ok pairs /\
    combiningFunction s (tt, pairs) = Ok (key, Some ary) /\
    Np.getitem src (full_slice :: cell) = Ok region /\
    shape ary = shape region /\
    forall t idx, inRange (shape region) (t :: idx) ->
      (In t [3; 1; 3] -> at_ ary (t :: idx) = at_ region (t :: idx)) /\
      (~ In t [3; 1; 3] -> at_ ary (t :: idx) = 0).
Proof.
  cbn zeta.
  apply (combine_missing_time_points tt [1; 2]
           (mkImages [2; 3] 4 "int16"%string)
           (mkSimple BlockingStrategy_init [1; 2] None) _ _
           (generateSlices [1; 2] [2; 3])).
  - reflexivity.
  - repeat constructor.
  - reflexivity.
  - reflexivity.
  - repeat constructor; discriminate.
  - reflexivity.
  - reflexivity.
  - discriminate.
  - intros t. cbn [In images_nimages]. lia.
Defined.

(** ** Shapes of the blocks *)

Lemma dimSlices_balanced (nsplits dimsize : Z) :
  0 < nsplits -> 0 <= dimsize ->
  Forall (balancedSlice nsplits dimsize) (dimSlices nsplits dimsize).
Proof.
  intros Hn Hd. rewrite dimSlices_cut by assumption.
  apply Forall_map. apply Forall_forall. intros k Hk.
  apply in_seq in Hk. unfold cutSlice.
  rewrite Z.min_l by (apply cutAt_le_dim; lia).
  eexists. eexists. split; [reflexivity|].
  pose proof (Z.mod_pos_bound dimsize nsplits Hn) as Hr.
  unfold cutAt. split; [lia|]. intros Hz. rewrite Hz. lia.
Qed.

Lemma generateSlices_balanced (splits : list Z) :
  Forall (fun k => 0 < k) splits ->
  forall ds,
    Forall (fun d => 0 <= d) ds ->
    length splits = length ds ->
    Forall2 (fun kd axis => Forall (balancedSlice (fst kd) (snd kd)) axis)
            (combine splits ds) (generateSlices splits ds).
Proof.
  unfold generateSlices.
  induction 1 as [|k splits Hk _ IH]; intros [|d ds] Hd Hlen;
    try discriminate; cbn [combine map]; constructor.
  - cbn [fst snd]. apply dimSlices_balanced; [assumption|]. now inversion Hd.
  - apply IH; [now inversion Hd|now injection Hlen].
Qed.

Lemma cell_Forall2 {A : Type} (R : A -> slice -> Prop) (l : list A)
    (slices : list (list slice)) :
  Forall2 (fun a axis => Forall (R a) axis) l slices ->
  forall cell, In cell (product slices) -> Forall2 R l cell.
Proof.
  intros H cell Hin. apply in_product in Hin. revert cell Hin.
  induction H as [|a axis l slices Hax _ IH]; intros cell Hin.
  - inversion Hin. constructor.
  - inversion Hin as [|sl ? c ? Hsl Hc]; subst. constructor.
    + rewrite Forall_forall in Hax. now apply Hax.
    + now apply IH.
Qed.

(** X18: Every block of a bound strategy has a leading axis of size 1 and, along
    each spatial axis, the extent [dims[i] div splits[i]] or one more; where
    the split count divides the dimension the extent is the quotient
    exactly. *)
Theorem block_shapes_balanced
    (images : Images) (s0 s : SimpleBlockingStrategy)
    (tpidx : Z) (imgary : ndarray) :
  Forall (fun k => 0 < k) (_splitsPerDim s0) ->
  setImages images s0 = (Ok tt, s) ->
  shape imgary = images_dims images ->
  Forall (fun d => 0 <= d) (images_dims images) ->
  exists blocks,
    blockingFunction s (tpidx, imgary) = Ok blocks /\
    forall kb, In kb blocks ->
      exists lens,
        shape (snd kb) = 1 :: lens /\
        Forall2 (fun kd len =>
                   snd kd / fst kd <= len <= snd kd / fst kd + 1 /\
                   (snd kd mod fst kd = 0 -> len = snd kd / fst kd))
                (combine (_splitsPerDim s0) (images_dims images)) lens.
Proof.
  intros Hpos Hbind Hshape Hds.
  apply bound_state in Hbind. destruct Hbind as (Hlen & ->).
  set (n := images_nimages images). set (ds := images_dims images) in *.
  set (slices := generateSlices (_splitsPerDim s0) ds).
  pose proof (generateSlices_good _ _ Hpos Hds Hlen) as Hgood.
  pose proof (generateSlices_balanced _ Hpos ds Hds Hlen) as Hbal.
  exists (map (fun c => cellBlock imgary n c tpidx) (product slices)). split.
  - unfold blockingFunction, nimages. cbn [_slices super _nimages].
    apply mapM_map. intros c Hc. apply extract_good. rewrite Hshape.
    now apply (cell_good _ _ Hgood).
  - intros kb Hin. apply in_map_iff in Hin. destruct Hin as (c & <- & Hc).
    exists (map axLen (map axOf c)). split; [reflexivity|].
    pose proof (cell_Forall2 _ _ _ Hbal c Hc) as H.
    clear - H. induction H as [|kd sl l c Hsl _ IH]; cbn [map]; constructor.
    + destruct Hsl as (a & b & -> & Hab & Hz). cbn. split; assumption.
    + exact IH.
Qed.

Lemma block_shapes_balanced_witness :
  let images := mkImages [12; 12] 3 "int16"%string in
  let s0 := mkSimple BlockingStrategy_init [2; 2] None in
  let imgary := mkArray [12; 12] "int16"%string (fun _ => 1) in
  exists blocks,
    blockingFunction (snd (setImages images s0)) (0, imgary) = Ok blocks /\
    forall kb, In kb blocks ->
      exists lens,
        shape (snd kb) = 1 :: lens /\
        Forall2 (fun kd len =>
                   snd kd / fst kd <= len <= snd kd / fst kd + 1 /\
                   (snd kd mod fst kd = 0 -> len = snd kd / fst kd))
                (combine (_splitsPerDim s0) (images_dims images)) lens.
Proof.
  cbn zeta.
  apply (block_shapes_balanced (mkImages [12; 12] 3 "int16"%string)
           (mkSimple BlockingStrategy_init [2; 2] None)).
  - repeat constructor.
  - reflexivity.
  - reflexivity.
  - repeat constructor; discriminate.
Defined.

(** ** Blocks of different time points *)

Lemma Forall2_map_same {A B C : Type} (R : B -> C -> Prop)
    (f : A -> B) (g : A -> C) (l : list A) :
  (forall x, In x l -> R (f x) (g x)) -> Forall2 R (map f l) (map g l).
Proof.
  induction l as [|x l IH]; intros H; cbn [map]; constructor.
  - apply H. now left.
  - apply IH. intros y Hy. apply H. now right.
Qed.

(** X19: The blocks of two time points line up: [blockingFunction] returns them
    in the same order of cells, and the blocks at one position have the same
    original shape, the same spatial slices and the same block shape; their
    keys differ only in the leading slice, which is the one of their own
    time index. *)
Theorem blocks_align_across_time
    (images : Images) (s0 s : SimpleBlockingStrategy)
    (t1 t2 : Z) (img1 img2 : ndarray) :
  Forall (fun k => 0 < k) (_splitsPerDim s0) ->
  setImages images s0 = (Ok tt, s) ->
  shape img1 = images_dims images ->
  shape img2 = images_dims images ->
  Forall (fun d => 0 <= d) (images_dims images) ->
  exists blocks1 blocks2,
    blockingFunction s (t1, img1) = Ok blocks1 /\
    blockingFunction s (t2, img2) = Ok blocks2 /\
    Forall2
      (fun kb1 kb2 =>
         origshape (fst kb1) = origshape (fst kb2) /\
         tl (origslices (fst kb1)) = tl (origslices (fst kb2)) /\
         hd full_slice (origslices (fst kb1)) = slice3 t1 (t1 + 1) 1 /\
         hd full_slice (origslices (fst kb2)) = slice3 t2 (t2 + 1) 1 /\
         shape (snd kb1) = shape (snd kb2))
      blocks1 blocks2.
Proof.
  intros Hpos Hbind Hs1 Hs2 Hds.
  apply bound_state in Hbind. destruct Hbind as (Hlen & ->).
  set (n := images_nimages images). set (ds := images_dims images) in *.
  set (slices := generateSlices (_splitsPerDim s0) ds).
  pose proof (generateSlices_good _ _ Hpos Hds Hlen) as Hgood.
  exists (map (fun c => cellBlock img1 n c t1) (product slices)).
  exists (map (fun c => cellBlock img2 n c t2) (product slices)).
  split; [|split].
  - unfold blockingFunction, nimages. cbn [_slices super _nimages].
    apply mapM_map. intros c Hc. apply extract_good. rewrite Hs1.
    now apply (cell_good _ _ Hgood).
  - unfold blockingFunction, nimages. cbn [_slices super _nimages].
    apply mapM_map. intros c Hc. apply extract_good. rewrite Hs2.
    now apply (cell_good _ _ Hgood).
  - apply Forall2_map_same. intros c _. unfold cellBlock.
    cbn [fst snd origshape origslices tl hd]. rewrite Hs1, Hs2.
    repeat split.
Qed.

Lemma blocks_align_across_time_witness :
  let images := mkImages [5; 4] 3 "int16"%string in
  let s := snd (setImages images (mkSimple BlockingStrategy_init [2; 3] None)) in
  let img1 := mkArray [5; 4] "int16"%string (fun _ => 1) in
  let img2 := mkArray [5; 4] "int16"%string (fun _ => 2) in
  exists blocks1 blocks2,
    blockingFunction s (0, img1) = Ok blocks1 /\
    blockingFunction s (2, img2) = Ok blocks2 /\
    Forall2
      (fun kb1 kb2 =>
         origshape (fst kb1) = origshape (fst kb2) /\
         tl (origslices (fst kb1)) = tl (origslices (fst kb2)) /\
         hd full_slice (origslices (fst kb1)) = slice3 0 (0 + 1) 1 /\
         hd full_slice (origslices (fst kb2)) = slice3 2 (2 + 1) 1 /\
         shape (snd kb1) = shape (snd kb2))
      blocks1 blocks2.
Proof.
  cbn zeta.
  apply (blocks_align_across_time (mkImages [5; 4] 3 "int16"%string)
           (mkSimple BlockingStrategy_init [2; 3] None)).
  - repeat constructor.
  - reflexivity.
  - reflexivity.
  - reflexivity.
  - repeat constructor; discriminate.
Defined.

